(** * BeitHayal: the secure matching engine

    A shallow embedding of [src/lib/matchingAlgorithm-secure.ts] (scoring,
    candidate generation, allocation with its final rebalancing pass, the
    summary, and the conversions for the cloud copy), of [getDistanceScore]
    and [isDistanceAcceptable] from [src/lib/cityDistance.ts], of the gender
    check of the first engine, and of the list operations of the matches
    panel ([updateMatchStatus], [filteredMatches], [stats]).

    Conventions of the embedding:
    - a TypeScript [string | null] or optional string is an [option string];
    - integer-valued numbers (ranks, counters, indices, scores after
      [Math.round]) are [Z]; numbers that feed [Math.round] are [Q];
    - the great-circle distance is an IEEE double ([float]); the gazetteer
      lookup with the Haversine formula is the section variable
      [getCityDistance];
    - [crypto.randomUUID()] is the section variable [randomUUID]: the n-th
      identifier drawn during a run, with the number of draws threaded
      through the allocator;
    - a JavaScript [Map] that is iterated is an insertion-ordered association
      list ([JSMap]); a [Map] or [Set] that is only probed is a [gmap] or
      [gset];
    - [Array.prototype.sort] is the stable sort [sort_by];
    - the order [<] of JavaScript on strings and [parseInt] are parameters of
      the panel's definitions;
    - a [TypeError] (reading a property of [undefined]) is [None]. *)

From Stdlib Require Import ZArith QArith Qround String List Lia Bool Permutation Sorted.
From Stdlib Require Import Floats.
From stdpp Require Import base list strings gmap.

Set Warnings "-clear-no-such-hyp".

Open Scope string_scope.
Open Scope list_scope.
Open Scope Z_scope.

(** ** Data model ([src/lib/supabase-secure.ts]) *)

Record MatchCriteria := mkCriteria {
  language_match : bool;
  distance_score : Q;
  gender_pref_match : bool;
  region_match : bool
}.

Module LocalStudent.
Record t := mk {
  contact_id : string;
  full_name : option string;
  phone : option string;
  email : option string;
  full_address : option string;
  coordinator : option string;
  notes : option string;
  gender : option string;
  city : option string;
  city_code : option string;
  region : option string;
  origin_country : option string;
  languages : option string;
  mother_tongue : option string;
  mother_tongue_code : option string;
  current_soldiers_count : Z;
  is_scholarship_active : bool;
  max_soldiers : Z;
  available_slots : Z;
  volunteer_status : option string
}.
End LocalStudent.

Module LocalSoldier.
Record t := mk {
  contact_id : string;
  full_name : option string;
  phone : option string;
  email : option string;
  full_address : option string;
  coordinator : option string;
  notes : option string;
  special_requests : option string;
  gender : option string;
  city : option string;
  city_code : option string;
  region : option string;
  origin_country : option string;
  mother_tongue : option string;
  mother_tongue_code : option string;
  language_preference : option string;
  volunteer_gender_preference : option string;
  soldier_status : option string;
  has_special_requests : bool
}.
End LocalSoldier.

Inductive MatchStatus := suggested | approved | rejected.

Record MatchCandidate := mkCandidate {
  student : LocalStudent.t;
  soldier : LocalSoldier.t;
  score : Z;
  criteria : MatchCriteria
}.

Record EnrichedMatch := mkMatch {
  id : string;
  student_external_id : string;
  soldier_external_id : string;
  confidence_score : Z;
  match_rank : Z;
  match_criteria : MatchCriteria;
  status : MatchStatus;
  em_student : option LocalStudent.t;
  em_soldier : option LocalSoldier.t
}.

Record MatchingSummary := mkSummary {
  totalStudents : Z;
  totalSoldiers : Z;
  totalMatches : Z;
  soldiersWithTwoMatches : Z;
  soldiersWithOneMatch : Z;
  soldiersWithNoMatch : Z;
  studentsUsed : Z;
  studentsNotUsed : Z;
  avgScore : Z;
  highScoreMatches : Z;
  mediumScoreMatches : Z;
  lowScoreMatches : Z
}.

(** ** JavaScript primitives *)

(** [!s] is false exactly for a present, non-empty string. *)
Definition truthy (s : option string) : bool :=
  match s with
  | Some s => negb (String.eqb s "")
  | None => false
  end.

(** [s || ''] *)
Definition or_empty (s : option string) : string := default "" s.

(** [codes.includes(c)] *)
Definition includes (codes : list string) (c : string) : bool :=
  existsb (String.eqb c) codes.

(** [a === b] on optional strings. *)
Definition opt_string_eqb (a b : option string) : bool :=
  match a, b with
  | Some x, Some y => String.eqb x y
  | None, None => true
  | _, _ => false
  end.

(** [Math.round]: the nearest integer, a tie going up. *)
Definition Math_round (x : Q) : Z := Qfloor (x + (1 # 2)).

(** [xs.length] as a number. *)
Definition len {A} (l : list A) : Z := Z.of_nat (length l).

(** *** [Array.prototype.sort] with a comparator

    The sort is stable: [insert_sorted] puts an element in front of the first
    one it does not have to follow, and [sort_by] inserts from the right, so
    elements the comparator does not separate keep their order. *)
Fixpoint insert_sorted {A} (cmp : A -> A -> Z) (x : A) (l : list A) : list A :=
  match l with
  | [] => [x]
  | y :: l' => if cmp x y <=? 0 then x :: y :: l' else y :: insert_sorted cmp x l'
  end.

Definition sort_by {A} (cmp : A -> A -> Z) (l : list A) : list A :=
  foldr (insert_sorted cmp) [] l.

(** *** An iterated [Map<string, V>]: entries in insertion order *)
Module JSMap.
Definition t (V : Type) := list (string * V).

Definition empty {V} : t V := [].

(** [m.set(k, v)]: overwrite in place, or append a new entry. *)
Fixpoint set {V} (k : string) (v : V) (m : t V) : t V :=
  match m with
  | [] => [(k, v)]
  | (k', v') :: m' =>
      if String.eqb k' k then (k, v) :: m' else (k', v') :: set k v m'
  end.

Fixpoint get {V} (k : string) (m : t V) : option V :=
  match m with
  | [] => None
  | (k', v') :: m' => if String.eqb k' k then Some v' else get k m'
  end.

(** [Array.from(m.entries())] *)
Definition entries {V} (m : t V) : list (string * V) := m.

Definition keys {V} (m : t V) : list string := map fst m.
End JSMap.

(** [counts.get(k) || 0] *)
Definition count_of (counts : gmap string Z) (k : string) : Z :=
  default 0 (counts !! k).

(** ** Scoring *)

Definition languageFamilies : list (string * list string) :=
  [ ("slavic", ["RU"; "UK"; "BG"; "HR"; "PL"]);
    ("romance", ["FR"; "ES"; "IT"; "PT"; "RO"]);
    ("semitic", ["HE"; "AR"]);
    ("germanic", ["DE"; "NL"; "DA"]) ].

Definition checkLanguageMatch (studentLangCode soldierLangCode : option string) : bool :=
  if negb (truthy studentLangCode) || negb (truthy soldierLangCode) then false
  else if opt_string_eqb studentLangCode soldierLangCode then true
  else
    existsb (fun family =>
               includes (snd family) (or_empty studentLangCode)
               && includes (snd family) (or_empty soldierLangCode))
            languageFamilies.

Definition checkGenderMatch (studentGender soldierPref : option string) : bool :=
  if negb (truthy soldierPref)
     || opt_string_eqb soldierPref (Some "לא חשוב")
     || opt_string_eqb soldierPref (Some "any")
  then true
  else if negb (truthy studentGender) then false
  else
    let genderCode :=
      if opt_string_eqb studentGender (Some "זכר") then Some "M"
      else if opt_string_eqb studentGender (Some "נקבה") then Some "F"
      else studentGender in
    let prefCode :=
      if opt_string_eqb soldierPref (Some "male")
         || opt_string_eqb soldierPref (Some "מתנדב") then Some "M"
      else if opt_string_eqb soldierPref (Some "female")
              || opt_string_eqb soldierPref (Some "מתנדבת") then Some "F"
      else None in
    opt_string_eqb genderCode prefCode.

(** The table of [calculateSecureMatch], before rounding. *)
Definition tableScore (genderMatch languageMatch : bool) (distanceScore : Q) : Q :=
  if genderMatch && languageMatch then distanceScore
  else if negb genderMatch && languageMatch then 70 - (100 - distanceScore)
  else if genderMatch && negb languageMatch then 60 - (100 - distanceScore)
  else 30 - (100 - distanceScore).

(** The decision table as the specification words it, for comparison with
    [tableScore]. *)
Definition decision_table_spec (gender language : bool) (d : Q) : Q :=
  match gender, language with
  | true, true => d
  | false, true => 70 - (100 - d)
  | true, false => 60 - (100 - d)
  | false, false => 30 - (100 - d)
  end.

(** [z] is an integer nearest to [x]. *)
Definition nearest_integer (z : Z) (x : Q) : Prop :=
  (x - (1 # 2) <= inject_Z z)%Q /\ (inject_Z z <= x + (1 # 2))%Q.

(** ** The cloud copy ([toSecureStudent], [toSecureSoldier], [toSecureMatch]) *)

(** [s || null] *)
Definition or_null (s : option string) : option string :=
  if truthy s then s else None.

Module SecureStudent.
Record t := mk {
  external_id : string;
  gender : option string;
  city_code : option string;
  region : option string;
  mother_tongue_code : option string;
  current_soldiers_count : Z;
  is_scholarship_active : bool;
  status : string
}.
End SecureStudent.

Module SecureSoldier.
Record t := mk {
  external_id : string;
  gender : option string;
  city_code : option string;
  region : option string;
  mother_tongue_code : option string;
  language_preference_code : option string;
  volunteer_gender_preference : option string;
  status : string;
  has_special_requests : bool
}.
End SecureSoldier.

(** The uploaded part of a [SecureMatch]: no [id], no timestamps. *)
Module SecureMatch.
Record t := mk {
  student_id : string;
  soldier_id : string;
  confidence_score : Z;
  match_rank : Z;
  match_criteria : MatchCriteria;
  status : MatchStatus
}.
End SecureMatch.

Definition toSecureStudent (local : LocalStudent.t) : SecureStudent.t :=
  {| SecureStudent.external_id := LocalStudent.contact_id local;
     SecureStudent.gender :=
       if opt_string_eqb (LocalStudent.gender local) (Some "זכר") then Some "M"
       else if opt_string_eqb (LocalStudent.gender local) (Some "נקבה") then Some "F"
       else None;
     SecureStudent.city_code := or_null (LocalStudent.city_code local);
     SecureStudent.region := or_null (LocalStudent.region local);
     SecureStudent.mother_tongue_code := or_null (LocalStudent.mother_tongue_code local);
     SecureStudent.current_soldiers_count := LocalStudent.current_soldiers_count local;
     SecureStudent.is_scholarship_active := LocalStudent.is_scholarship_active local;
     SecureStudent.status :=
       if opt_string_eqb (LocalStudent.volunteer_status local) (Some "ממתין לשיבוץ")
       then "waiting" else "inactive" |}.

Definition toSecureSoldier (local : LocalSoldier.t) : SecureSoldier.t :=
  let pref := LocalSoldier.volunteer_gender_preference local in
  let genderPref :=
    if truthy pref then
      if opt_string_eqb pref (Some "מתנדב") then Some "male"
      else if opt_string_eqb pref (Some "מתנדבת") then Some "female"
      else if opt_string_eqb pref (Some "לא חשוב") then Some "any"
      else pref
    else None in
  {| SecureSoldier.external_id := LocalSoldier.contact_id local;
     SecureSoldier.gender :=
       if opt_string_eqb (LocalSoldier.gender local) (Some "זכר") then Some "M"
       else if opt_string_eqb (LocalSoldier.gender local) (Some "נקבה") then Some "F"
       else None;
     SecureSoldier.city_code := or_null (LocalSoldier.city_code local);
     SecureSoldier.region := or_null (LocalSoldier.region local);
     SecureSoldier.mother_tongue_code := or_null (LocalSoldier.mother_tongue_code local);
     SecureSoldier.language_preference_code :=
       or_null (LocalSoldier.mother_tongue_code local);
     SecureSoldier.volunteer_gender_preference := genderPref;
     SecureSoldier.status :=
       if opt_string_eqb (LocalSoldier.soldier_status local) (Some "מחכה לשיבוץ")
       then "waiting" else "inactive";
     SecureSoldier.has_special_requests := LocalSoldier.has_special_requests local |}.

Definition toSecureMatch (enriched : EnrichedMatch) : SecureMatch.t :=
  {| SecureMatch.student_id := "";
     SecureMatch.soldier_id := "";
     SecureMatch.confidence_score := confidence_score enriched;
     SecureMatch.match_rank := match_rank enriched;
     SecureMatch.match_criteria := match_criteria enriched;
     SecureMatch.status := status enriched |}.

(** [getVolunteerPreferenceCode] of [supabase-secure.ts]. *)
Definition getVolunteerPreferenceCode (pref : option string) : option string :=
  if negb (truthy pref) then None
  else if opt_string_eqb pref (Some "מתנדב") then Some "male"
  else if opt_string_eqb pref (Some "מתנדבת") then Some "female"
  else if opt_string_eqb pref (Some "לא חשוב") then Some "any"
  else Some "any".

(** ** The first matching engine's gender check ([getGenderPreferenceScore])

    [genderMap[studentGender]] of a gender outside the map is no string, so it
    equals no preference: [None]. *)
Definition getGenderPreferenceScore (studentGender soldierPreference : option string)
  : Z * bool :=
  if negb (truthy soldierPreference) || opt_string_eqb soldierPreference (Some "לא חשוב")
  then (100, true)
  else if negb (truthy studentGender) then (50, false)
  else
    let expectedPreference :=
      if opt_string_eqb studentGender (Some "זכר") then Some "מתנדב"
      else if opt_string_eqb studentGender (Some "נקבה") then Some "מתנדבת"
      else None in
    if opt_string_eqb soldierPreference expectedPreference then (100, true)
    else (0, false).

(** ** The matches panel's statistics ([stats] of [MatchesPanel.tsx]) *)

Module PanelStats.
Record t := mk {
  total : Z;
  approved : Z;
  rejected : Z;
  pending : Z;
  primary : Z;
  secondary : Z;
  avgScore : Z
}.
End PanelStats.

(** ** Sample inputs *)

(** A gazetteer with two kinds of answers: a city is at distance 0 from
    itself and at 81.5 km from any other; the empty name is unknown. *)
Definition sampleDistance (city1 city2 : string) : option float :=
  if String.eqb city1 "" || String.eqb city2 "" then None
  else if String.eqb city1 city2 then Some 0%float
  else Some 81.5%float.

(** Identifier sources: the n-th draw is a letter, counted from [A] or from
    [a]. *)
Definition upperUUID (n : nat) : string := String (Ascii.ascii_of_nat (65 + n)) "".
Definition lowerUUID (n : nat) : string := String (Ascii.ascii_of_nat (97 + n)) "".

Definition sampleStudent (contact_id : string) (gender city code : option string)
  : LocalStudent.t :=
  {| LocalStudent.contact_id := contact_id;
     LocalStudent.full_name := None; LocalStudent.phone := None;
     LocalStudent.email := None; LocalStudent.full_address := None;
     LocalStudent.coordinator := None; LocalStudent.notes := None;
     LocalStudent.gender := gender; LocalStudent.city := city;
     LocalStudent.city_code := None; LocalStudent.region := None;
     LocalStudent.origin_country := None; LocalStudent.languages := None;
     LocalStudent.mother_tongue := None; LocalStudent.mother_tongue_code := code;
     LocalStudent.current_soldiers_count := 0;
     LocalStudent.is_scholarship_active := false;
     LocalStudent.max_soldiers := 4; LocalStudent.available_slots := 4;
     LocalStudent.volunteer_status := None |}.

Definition sampleSoldier (contact_id : string) (city code pref : option string)
  : LocalSoldier.t :=
  {| LocalSoldier.contact_id := contact_id;
     LocalSoldier.full_name := None; LocalSoldier.phone := None;
     LocalSoldier.email := None; LocalSoldier.full_address := None;
     LocalSoldier.coordinator := None; LocalSoldier.notes := None;
     LocalSoldier.special_requests := None;
     LocalSoldier.gender := None; LocalSoldier.city := city;
     LocalSoldier.city_code := None; LocalSoldier.region := None;
     LocalSoldier.origin_country := None; LocalSoldier.mother_tongue := None;
     LocalSoldier.mother_tongue_code := code;
     LocalSoldier.language_preference := None;
     LocalSoldier.volunteer_gender_preference := pref;
     LocalSoldier.soldier_status := None;
     LocalSoldier.has_special_requests := false |}.

Definition studentA : LocalStudent.t :=
  sampleStudent "A" (Some "נקבה") (Some "Tel Aviv") (Some "HE").
Definition studentB : LocalStudent.t :=
  sampleStudent "B" (Some "זכר") (Some "Haifa") (Some "RU").
Definition studentU : LocalStudent.t := sampleStudent "U" None None None.
Definition soldierX : LocalSoldier.t :=
  sampleSoldier "X" (Some "Tel Aviv") (Some "HE") (Some "female").
Definition soldierY : LocalSoldier.t :=
  sampleSoldier "Y" (Some "Haifa") (Some "UK") None.
Definition soldierZ : LocalSoldier.t :=
  sampleSoldier "Z" (Some "Tel Aviv") (Some "RU") (Some "any").

(** Eleven students, told apart by their identifier only. *)
Definition elevenStudents : list LocalStudent.t :=
  map (fun i => sampleStudent i (Some "נקבה") (Some "Tel Aviv") (Some "HE"))
      ["s01"; "s02"; "s03"; "s04"; "s05"; "s06"; "s07"; "s08"; "s09"; "s10"; "s11"].

Definition sampleCandidate (student : LocalStudent.t) (soldier : LocalSoldier.t)
           (score : Z) (languageMatch : bool) (distanceScore : Q) (genderMatch : bool)
  : MatchCandidate :=
  {| student := student; soldier := soldier; score := score;
     criteria := {| language_match := languageMatch;
                    distance_score := distanceScore;
                    gender_pref_match := genderMatch;
                    region_match := true |} |}.

(** A candidate map in which the soldiers X and Y know student A only, and
    the soldier Z knows B and A; the scores are those of [sampleDistance]. *)
Definition sampleScarceMap : JSMap.t (list MatchCandidate) :=
  [ ("X", [sampleCandidate studentA soldierX 100 true 100 true]);
    ("Y", [sampleCandidate studentA soldierY 1 false 40 true]);
    ("Z", [sampleCandidate studentB soldierZ 40 true 40 true;
           sampleCandidate studentA soldierZ 60 false 100 true]) ].

(** A candidate map in which three soldiers know student A only and two
    soldiers know B and A; none knows the students U, V and W. *)
Definition sampleOverloadMap : JSMap.t (list MatchCandidate) :=
  let only_A name :=
    (name, [sampleCandidate studentA (sampleSoldier name None None None) 10 false 50 true]) in
  let B_then_A name :=
    (name, [sampleCandidate studentB (sampleSoldier name None None None) 10 false 50 true;
            sampleCandidate studentA (sampleSoldier name None None None) 10 false 50 true]) in
  [only_A "X1"; only_A "X2"; only_A "X3"; B_then_A "Z1"; B_then_A "Z2"].

(** A student like A, in another city. *)
Definition studentC : LocalStudent.t :=
  sampleStudent "C" (Some "נקבה") (Some "Haifa") (Some "HE").

(** Two assignments of the soldier X, as the panel holds them. *)
Definition sampleMatch1 : EnrichedMatch :=
  {| id := "m1"; student_external_id := "A"; soldier_external_id := "X";
     confidence_score := 100; match_rank := 1;
     match_criteria := criteria (sampleCandidate studentA soldierX 100 true 100 true);
     status := suggested; em_student := Some studentA; em_soldier := Some soldierX |}.

Definition sampleMatch2 : EnrichedMatch :=
  {| id := "m2"; student_external_id := "C"; soldier_external_id := "X";
     confidence_score := 40; match_rank := 2;
     match_criteria := criteria (sampleCandidate studentC soldierX 40 true 40 true);
     status := suggested; em_student := Some studentC; em_soldier := Some soldierX |}.

Definition sampleMatches : list EnrichedMatch := [sampleMatch1; sampleMatch2].

Definition studentV : LocalStudent.t := sampleStudent "V" None None None.
Definition studentW : LocalStudent.t := sampleStudent "W" None None None.

Section Matching.

(** [getCityDistance] of [cityDistance.ts]: the distance in kilometres, or
    [None] when one of the cities is not in the gazetteer. *)
Variable getCityDistance : string -> string -> option float.

Definition getDistanceScore (city1 city2 : string) : Q :=
  match getCityDistance city1 city2 with
  | None => 50
  | Some distance =>
      if (150 <? distance)%float then 0
      else if (distance <=? 10)%float then 100
      else if (distance <=? 30)%float then 90
      else if (distance <=? 50)%float then 80
      else if (distance <=? 75)%float then 60
      else if (distance <=? 100)%float then 40
      else if (distance <=? 150)%float then 20
      else 0
  end%Q.

(** [isDistanceAcceptable] of [cityDistance.ts]; callers that leave
    [maxDistance] out get 150. *)
Definition isDistanceAcceptable (city1 city2 : string) (maxDistance : float) : bool :=
  match getCityDistance city1 city2 with
  | None => true
  | Some distance => (distance <=? maxDistance)%float
  end.

Definition defaultMaxDistance : float := 150%float.

Definition calculateSecureMatch (student : LocalStudent.t) (soldier : LocalSoldier.t)
  : option MatchCandidate :=
  let genderMatch :=
    checkGenderMatch (LocalStudent.gender student)
                     (LocalSoldier.volunteer_gender_preference soldier) in
  let languageMatch :=
    checkLanguageMatch (LocalStudent.mother_tongue_code student)
                       (LocalSoldier.mother_tongue_code soldier) in
  let distanceScore :=
    getDistanceScore (or_empty (LocalStudent.city student))
                     (or_empty (LocalSoldier.city soldier)) in
  let finalScore := tableScore genderMatch languageMatch distanceScore in
  let finalScore := Z.max 1 (Math_round finalScore) in
  let criteria :=
    {| language_match := languageMatch;
       distance_score := distanceScore;
       gender_pref_match := genderMatch;
       region_match := opt_string_eqb (LocalStudent.region student)
                                      (LocalSoldier.region soldier) |} in
  Some {| student := student; soldier := soldier;
          score := finalScore; criteria := criteria |}.

(** *** Candidate generation *)

(** The comparator [(a, b) => b.score - a.score]. *)
Definition byScoreDesc (a b : MatchCandidate) : Z := score b - score a.

(** The inner loop of [findAllSecureMatches]: the candidates of one soldier,
    in the order of [students]. *)
Definition scoreAll (students : list LocalStudent.t) (soldier : LocalSoldier.t)
  : list MatchCandidate :=
  foldr (fun student candidates =>
           match calculateSecureMatch student soldier with
           | Some m => if 0 <? score m then m :: candidates else candidates
           | None => candidates
           end) [] students.

Definition findAllSecureMatches (students : list LocalStudent.t)
           (soldiers : list LocalSoldier.t) : JSMap.t (list MatchCandidate) :=
  fold_left (fun matchesBySoldier soldier =>
               let candidates := sort_by byScoreDesc (scoreAll students soldier) in
               JSMap.set (LocalSoldier.contact_id soldier) candidates matchesBySoldier)
            soldiers JSMap.empty.

(** *** Allocation *)

Variable randomUUID : nat -> string.

(** The allocator's run-scoped state: the assignment list, the live
    per-student counters, and how many identifiers were drawn so far. *)
Record AllocState := mkAlloc {
  result : list EnrichedMatch;
  studentAssignments : gmap string Z;
  drawn : nat
}.

(** The comparator of the load-balancing re-sort. *)
Definition byLoadThenScore (studentAssignments : gmap string Z)
           (a b : MatchCandidate) : Z :=
  let aAssigned := count_of studentAssignments (LocalStudent.contact_id (student a)) in
  let bAssigned := count_of studentAssignments (LocalStudent.contact_id (student b)) in
  if negb (aAssigned =? bAssigned) then aAssigned - bAssigned
  else score b - score a.

(** [assignedForSoldier.some(m => m.student_external_id === studentId)] *)
Definition alreadyAssigned (assignedForSoldier : list EnrichedMatch)
           (studentId : string) : bool :=
  existsb (fun m => String.eqb (student_external_id m) studentId) assignedForSoldier.

Definition matchOfCandidate (uuid : string) (candidate : MatchCandidate) (rank : Z)
  : EnrichedMatch :=
  {| id := uuid;
     student_external_id := LocalStudent.contact_id (student candidate);
     soldier_external_id := LocalSoldier.contact_id (soldier candidate);
     confidence_score := score candidate;
     match_rank := rank;
     match_criteria := criteria candidate;
     status := suggested;
     em_student := Some (student candidate);
     em_soldier := Some (soldier candidate) |}.

(** The loop "assign 2 matches from the balanced list" for one soldier. *)
Fixpoint assignFromSorted (sortedCandidates : list MatchCandidate)
         (assignedForSoldier : list EnrichedMatch)
         (studentAssignments : gmap string Z) (drawn : nat)
  : list EnrichedMatch * gmap string Z * nat :=
  match sortedCandidates with
  | [] => (assignedForSoldier, studentAssignments, drawn)
  | candidate :: rest =>
      if 2 <=? len assignedForSoldier
      then (assignedForSoldier, studentAssignments, drawn)
      else
        let studentId := LocalStudent.contact_id (student candidate) in
        if alreadyAssigned assignedForSoldier studentId
        then assignFromSorted rest assignedForSoldier studentAssignments drawn
        else
          let rank := len assignedForSoldier + 1 in
          let m := matchOfCandidate (randomUUID drawn) candidate rank in
          let studentAssignments' :=
            if rank =? 1
            then <[studentId := count_of studentAssignments studentId + 1]> studentAssignments
            else studentAssignments in
          assignFromSorted rest (assignedForSoldier ++ [m]) studentAssignments' (S drawn)
  end.

(** The body of the loop over [soldiersWithOptions]. *)
Definition assignSoldier (st : AllocState) (candidates : list MatchCandidate)
  : AllocState :=
  if len candidates =? 0 then st
  else
    let sortedCandidates :=
      sort_by (byLoadThenScore (studentAssignments st)) candidates in
    let '(assignedForSoldier, counts, n) :=
      assignFromSorted sortedCandidates [] (studentAssignments st) (drawn st) in
    {| result := result st ++ assignedForSoldier;
       studentAssignments := counts;
       drawn := n |}.

(** [soldiersWithOptions]: the entries, fewest candidates first. *)
Definition soldiersWithOptions (matchesBySoldier : JSMap.t (list MatchCandidate))
  : list (string * list MatchCandidate) :=
  sort_by (fun a b => len (snd a) - len (snd b)) (JSMap.entries matchesBySoldier).

Definition initialCounts (students : list LocalStudent.t) : gmap string Z :=
  fold_left (fun counts student => <[LocalStudent.contact_id student := 0]> counts)
            students ∅.

(** Everything of [optimizeSecureMatches] before the final pass. *)
Definition greedyPass (matchesBySoldier : JSMap.t (list MatchCandidate))
           (students : list LocalStudent.t) : AllocState :=
  fold_left (fun st entry => assignSoldier st (snd entry))
            (soldiersWithOptions matchesBySoldier)
            {| result := []; studentAssignments := initialCounts students; drawn := 0 |}.

(** *** The final pass: swapping unused students into rank-2 slots *)

(** The scan of [result] for [bestSwapIdx] and [bestOverload], from index
    [i] on. *)
Fixpoint scanSwap (studentAssignments : gmap string Z) (i : Z)
         (rest : list EnrichedMatch) (bestSwapIdx bestOverload : Z) : Z * Z :=
  match rest with
  | [] => (bestSwapIdx, bestOverload)
  | m :: rest' =>
      if negb (match_rank m =? 2)
      then scanSwap studentAssignments (i + 1) rest' bestSwapIdx bestOverload
      else
        let assignedCount := count_of studentAssignments (student_external_id m) in
        if bestOverload <? assignedCount
        then scanSwap studentAssignments (i + 1) rest' i assignedCount
        else scanSwap studentAssignments (i + 1) rest' bestSwapIdx bestOverload
  end.

(** The soldier object rebuilt from [oldMatch] for the new score. *)
Definition soldierOfSlot (oldMatch : EnrichedMatch) (soldier : LocalSoldier.t)
  : LocalSoldier.t :=
  {| LocalSoldier.contact_id := soldier_external_id oldMatch;
     LocalSoldier.full_name := None;
     LocalSoldier.phone := None;
     LocalSoldier.email := None;
     LocalSoldier.full_address := None;
     LocalSoldier.coordinator := None;
     LocalSoldier.notes := None;
     LocalSoldier.special_requests := None;
     LocalSoldier.gender := LocalSoldier.gender soldier;
     LocalSoldier.city := LocalSoldier.city soldier;
     LocalSoldier.city_code := LocalSoldier.city_code soldier;
     LocalSoldier.region := LocalSoldier.region soldier;
     LocalSoldier.origin_country := LocalSoldier.origin_country soldier;
     LocalSoldier.mother_tongue := LocalSoldier.mother_tongue soldier;
     LocalSoldier.mother_tongue_code := LocalSoldier.mother_tongue_code soldier;
     LocalSoldier.language_preference := LocalSoldier.language_preference soldier;
     LocalSoldier.volunteer_gender_preference :=
       LocalSoldier.volunteer_gender_preference soldier;
     LocalSoldier.soldier_status := LocalSoldier.soldier_status soldier;
     LocalSoldier.has_special_requests := LocalSoldier.has_special_requests soldier |}.

(** The body of the loop over [unusedStudents]. [None] is the [TypeError]
    of reading [oldMatch.soldier] or a field of it when it is undefined. *)
Definition swapIn (st : AllocState) (unusedStudent : LocalStudent.t)
  : option AllocState :=
  let '(bestSwapIdx, bestOverload) :=
    scanSwap (studentAssignments st) 0 (result st) (-1) 0 in
  if (0 <=? bestSwapIdx) && (1 <? bestOverload) then
    match result st !! Z.to_nat bestSwapIdx with
    | None => None
    | Some oldMatch =>
        match em_soldier oldMatch with
        | None => None
        | Some soldier =>
            match calculateSecureMatch unusedStudent (soldierOfSlot oldMatch soldier) with
            | Some newCandidate =>
                let newMatch :=
                  {| id := randomUUID (drawn st);
                     student_external_id := LocalStudent.contact_id unusedStudent;
                     soldier_external_id := soldier_external_id oldMatch;
                     confidence_score := score newCandidate;
                     match_rank := 2;
                     match_criteria := criteria newCandidate;
                     status := suggested;
                     em_student := Some unusedStudent;
                     em_soldier := Some soldier |} in
                let studentId := LocalStudent.contact_id unusedStudent in
                Some {| result := <[Z.to_nat bestSwapIdx := newMatch]> (result st);
                        studentAssignments :=
                          <[studentId := count_of (studentAssignments st) studentId + 1]>
                            (studentAssignments st);
                        drawn := S (drawn st) |}
            | None => Some st
            end
        end
    end
  else Some st.

Fixpoint forEachUnused (unusedStudents : list LocalStudent.t) (st : AllocState)
  : option AllocState :=
  match unusedStudents with
  | [] => Some st
  | unusedStudent :: rest =>
      match swapIn st unusedStudent with
      | Some st' => forEachUnused rest st'
      | None => None
      end
  end.

Definition usedStudentIdsOf (result : list EnrichedMatch) : gset string :=
  list_to_set (map student_external_id result).

Definition unusedStudentsOf (result : list EnrichedMatch)
           (students : list LocalStudent.t) : list LocalStudent.t :=
  List.filter (fun s => negb (bool_decide
                 (LocalStudent.contact_id s ∈ usedStudentIdsOf result))) students.

Definition finalPass (st : AllocState) (students : list LocalStudent.t)
  : option AllocState :=
  let unusedStudents := unusedStudentsOf (result st) students in
  if 0 <? len unusedStudents then forEachUnused unusedStudents st else Some st.

Definition optimizeSecureMatches (matchesBySoldier : JSMap.t (list MatchCandidate))
           (students : list LocalStudent.t) : option (list EnrichedMatch) :=
  result <$> finalPass (greedyPass matchesBySoldier students) students.

(** *** The entry point and its summary *)

Definition byConfidenceDesc (a b : EnrichedMatch) : Z :=
  confidence_score b - confidence_score a.

(** The loop that fills [matchesBySoldierId] and [usedStudentIds]. *)
Definition tally (optimizedMatches : list EnrichedMatch) : gmap string Z * gset string :=
  fold_left (fun acc m =>
               (<[soldier_external_id m := count_of (fst acc) (soldier_external_id m) + 1]>
                  (fst acc),
                snd acc ∪ {[student_external_id m]}))
            optimizedMatches (∅, ∅).

(** [Array.from(counts.values())] *)
Definition valuesOf (counts : gmap string Z) : list Z := map snd (map_to_list counts).

Definition countWhere {A} (p : A -> bool) (l : list A) : Z := len (List.filter p l).

Definition summarize (students : list LocalStudent.t) (soldiers : list LocalSoldier.t)
           (optimizedMatches : list EnrichedMatch) : MatchingSummary :=
  let '(matchesBySoldierId, usedStudentIds) := tally optimizedMatches in
  let soldiersWithTwo := countWhere (fun c => 2 <=? c) (valuesOf matchesBySoldierId) in
  let soldiersWithOne := countWhere (fun c => c =? 1) (valuesOf matchesBySoldierId) in
  let soldiersWithNone := len soldiers - Z.of_nat (size matchesBySoldierId) in
  let totalScore := fold_left (fun s m => s + confidence_score m) optimizedMatches 0 in
  {| totalStudents := len students;
     totalSoldiers := len soldiers;
     totalMatches := len optimizedMatches;
     soldiersWithTwoMatches := soldiersWithTwo;
     soldiersWithOneMatch := soldiersWithOne;
     soldiersWithNoMatch := soldiersWithNone;
     studentsUsed := Z.of_nat (size usedStudentIds);
     studentsNotUsed := len students - Z.of_nat (size usedStudentIds);
     avgScore :=
       if 0 <? len optimizedMatches
       then Math_round (inject_Z totalScore / inject_Z (len optimizedMatches))
       else 0;
     highScoreMatches := countWhere (fun m => 70 <=? confidence_score m) optimizedMatches;
     mediumScoreMatches :=
       countWhere (fun m => (30 <=? confidence_score m) && (confidence_score m <? 70))
                  optimizedMatches;
     lowScoreMatches := countWhere (fun m => confidence_score m <? 30) optimizedMatches |}.

Definition runSecureMatchingAlgorithm (students : list LocalStudent.t)
           (soldiers : list LocalSoldier.t)
  : option (list EnrichedMatch * MatchingSummary) :=
  let allMatches := findAllSecureMatches students soldiers in
  match optimizeSecureMatches allMatches students with
  | None => None
  | Some optimizedMatches =>
      let optimizedMatches := sort_by byConfidenceDesc optimizedMatches in
      Some (optimizedMatches, summarize students soldiers optimizedMatches)
  end.

(** *** The capacity-enforcing variant

    The file holds a second copy of the generator and of the allocator
    (lines 130-253): the generator breaks score ties by the student's current
    load and keeps the first ten candidates; the allocator honours the
    student's capacity in a first pass, force-assigns in a second one, and has
    no final pass. They are embedded under the suffix [_capacity]. *)

Definition byScoreThenLoad (a b : MatchCandidate) : Z :=
  if negb (score b =? score a) then score b - score a
  else LocalStudent.current_soldiers_count (student a)
       - LocalStudent.current_soldiers_count (student b).

Definition findAllSecureMatches_capacity (students : list LocalStudent.t)
           (soldiers : list LocalSoldier.t) : JSMap.t (list MatchCandidate) :=
  fold_left (fun matchesBySoldier soldier =>
               let candidates := sort_by byScoreThenLoad (scoreAll students soldier) in
               JSMap.set (LocalSoldier.contact_id soldier) (take 10 candidates)
                         matchesBySoldier)
            soldiers JSMap.empty.

(** First pass for one soldier: assign while the student has capacity left. *)
Fixpoint assignRespectingCapacity (candidates : list MatchCandidate)
         (assignedForSoldier : list EnrichedMatch)
         (studentAssignments : gmap string Z) (drawn : nat)
  : list EnrichedMatch * gmap string Z * nat :=
  match candidates with
  | [] => (assignedForSoldier, studentAssignments, drawn)
  | candidate :: rest =>
      if 2 <=? len assignedForSoldier
      then (assignedForSoldier, studentAssignments, drawn)
      else
        let studentId := LocalStudent.contact_id (student candidate) in
        let currentCount := count_of studentAssignments studentId in
        let maxCount :=
          if LocalStudent.is_scholarship_active (student candidate) then 2 else 4 in
        if alreadyAssigned assignedForSoldier studentId
        then assignRespectingCapacity rest assignedForSoldier studentAssignments drawn
        else if currentCount <? maxCount then
          let rank := len assignedForSoldier + 1 in
          let m := matchOfCandidate (randomUUID drawn) candidate rank in
          let studentAssignments' :=
            if rank =? 1
            then <[studentId := currentCount + 1]> studentAssignments
            else studentAssignments in
          assignRespectingCapacity rest (assignedForSoldier ++ [m])
                                   studentAssignments' (S drawn)
        else assignRespectingCapacity rest assignedForSoldier studentAssignments drawn
  end.

Definition assignSoldier_capacity (st : AllocState) (candidates : list MatchCandidate)
  : AllocState :=
  if len candidates =? 0 then st
  else
    let '(assignedForSoldier, counts, n) :=
      assignRespectingCapacity candidates [] (studentAssignments st) (drawn st) in
    let '(assignedForSoldier, counts, n) :=
      if len assignedForSoldier <? 2
      then assignFromSorted candidates assignedForSoldier counts n
      else (assignedForSoldier, counts, n) in
    {| result := result st ++ assignedForSoldier;
       studentAssignments := counts;
       drawn := n |}.

Definition initialCounts_capacity (students : list LocalStudent.t) : gmap string Z :=
  fold_left (fun counts student =>
               <[LocalStudent.contact_id student :=
                   LocalStudent.current_soldiers_count student]> counts)
            students ∅.

Definition optimizeSecureMatches_capacity
           (matchesBySoldier : JSMap.t (list MatchCandidate))
           (students : list LocalStudent.t) : list EnrichedMatch :=
  result (fold_left (fun st entry => assignSoldier_capacity st (snd entry))
                    (soldiersWithOptions matchesBySoldier)
                    {| result := [];
                       studentAssignments := initialCounts_capacity students;
                       drawn := 0 |}).

(** *** The matches panel ([MatchesPanel.tsx]) *)

(** [{ ...m, status }] *)
Definition withStatus (m : EnrichedMatch) (newStatus : MatchStatus) : EnrichedMatch :=
  {| id := id m;
     student_external_id := student_external_id m;
     soldier_external_id := soldier_external_id m;
     confidence_score := confidence_score m;
     match_rank := match_rank m;
     match_criteria := match_criteria m;
     status := newStatus;
     em_student := em_student m;
     em_soldier := em_soldier m |}.

(** The list handed to [setMatches] by [updateMatchStatus]. *)
Definition updateMatchStatus (matches : list EnrichedMatch) (matchId : string)
           (newStatus : MatchStatus) : list EnrichedMatch :=
  map (fun m => if String.eqb (id m) matchId then withStatus m newStatus else m) matches.

Definition isStatus (s : MatchStatus) (m : EnrichedMatch) : bool :=
  match s, status m with
  | suggested, suggested | approved, approved | rejected, rejected => true
  | _, _ => false
  end.

Definition stats (matches : list EnrichedMatch) : PanelStats.t :=
  {| PanelStats.total := len matches;
     PanelStats.approved := countWhere (isStatus approved) matches;
     PanelStats.rejected := countWhere (isStatus rejected) matches;
     PanelStats.pending := countWhere (isStatus suggested) matches;
     PanelStats.primary := countWhere (fun m => match_rank m =? 1) matches;
     PanelStats.secondary := countWhere (fun m => match_rank m =? 2) matches;
     PanelStats.avgScore :=
       if 0 <? len matches
       then Math_round (inject_Z (fold_left (fun sum m => sum + confidence_score m) matches 0)
                        / inject_Z (len matches))
       else 0 |}.

Inductive SortField :=
| by_confidence_score | by_match_rank | by_student_city | by_soldier_city | by_language.

Inductive SortOrder := asc | desc.

(** The text of a status, as the status filter compares it. *)
Definition statusText (s : MatchStatus) : string :=
  match s with
  | suggested => "suggested"
  | approved => "approved"
  | rejected => "rejected"
  end.

(** [a < b] on two strings, and [parseInt] with [None] for [NaN]. *)
Section Panel.
Variable stringLess : string -> string -> bool.
Variable parseInt : string -> option Z.

(** [aVal < bVal] for the values the sort switch picks. *)
Definition sortValueLess (sortField : SortField) (a b : EnrichedMatch) : bool :=
  match sortField with
  | by_confidence_score => confidence_score a <? confidence_score b
  | by_match_rank => match_rank a <? match_rank b
  | by_student_city =>
      stringLess (or_empty (em_student a ≫= LocalStudent.city))
                 (or_empty (em_student b ≫= LocalStudent.city))
  | by_soldier_city =>
      stringLess (or_empty (em_soldier a ≫= LocalSoldier.city))
                 (or_empty (em_soldier b ≫= LocalSoldier.city))
  | by_language =>
      stringLess (or_empty (em_student a ≫= LocalStudent.mother_tongue))
                 (or_empty (em_student b ≫= LocalStudent.mother_tongue))
  end.

Definition panelCompare (sortField : SortField) (sortOrder : SortOrder)
           (a b : EnrichedMatch) : Z :=
  if sortValueLess sortField a b then match sortOrder with asc => -1 | desc => 1 end
  else if sortValueLess sortField b a then match sortOrder with asc => 1 | desc => -1 end
  else 0.

Definition filteredMatches (matches : list EnrichedMatch)
           (filterStatus filterRank : string) (minScore : Z)
           (sortField : SortField) (sortOrder : SortOrder) : list EnrichedMatch :=
  let result := matches in
  let result :=
    if negb (String.eqb filterStatus "")
    then List.filter (fun m => String.eqb (statusText (status m)) filterStatus) result
    else result in
  let result :=
    if negb (String.eqb filterRank "")
    then List.filter (fun m => match parseInt filterRank with
                               | Some rank => match_rank m =? rank
                               | None => false
                               end) result
    else result in
  let result :=
    if 0 <? minScore
    then List.filter (fun m => minScore <=? confidence_score m) result
    else result in
  sort_by (panelCompare sortField sortOrder) result.

(** What a match has to pass to be shown. *)
Definition passesFilters (filterStatus filterRank : string) (minScore : Z)
           (m : EnrichedMatch) : bool :=
  (String.eqb filterStatus "" || String.eqb (statusText (status m)) filterStatus)
  && (String.eqb filterRank ""
      || match parseInt filterRank with
         | Some rank => match_rank m =? rank
         | None => false
         end)
  && (negb (0 <? minScore) || (minScore <=? confidence_score m)).
End Panel.

(** ** Vocabulary of the allocator's properties *)

Definition studentIdOf (c : MatchCandidate) : string :=
  LocalStudent.contact_id (student c).

(** The number of distinct students in a candidate list. *)
Definition distinctStudents (candidates : list MatchCandidate) : nat :=
  size (list_to_set (map studentIdOf candidates) : gset string).

(** The assignments of the soldier [k], in the order of the list. *)
Definition assignmentsOf (k : string) (assignments : list EnrichedMatch)
  : list EnrichedMatch :=
  List.filter (fun m => String.eqb (soldier_external_id m) k) assignments.

(** What [Map<string, MatchCandidate[]>] means for the allocator: keys are not
    repeated, and an entry holds candidates of the soldier it is filed under. *)
Definition wellFormed (matchesBySoldier : JSMap.t (list MatchCandidate)) : Prop :=
  NoDup (JSMap.keys matchesBySoldier)
  /\ forall k candidates c,
      (k, candidates) ∈ matchesBySoldier -> c ∈ candidates ->
      LocalSoldier.contact_id (soldier c) = k.

Definition pairOf (m : EnrichedMatch) : string * string :=
  (student_external_id m, soldier_external_id m).

Definition slotOf (m : EnrichedMatch) : string * Z :=
  (soldier_external_id m, match_rank m).

(** How many rank-1 assignments the student [x] holds. *)
Definition rank1Count (x : string) (assignments : list EnrichedMatch) : Z :=
  countWhere (fun m => (match_rank m =? 1) && String.eqb (student_external_id m) x)
             assignments.

(** The ranks 1, 2, ... of a soldier with [n] assignments. *)
Definition ranksUpTo (n : nat) : list Z := map Z.of_nat (seq 1 n).

(** The assignments of one soldier, while and after they are chosen from
    [candidates]. *)
Definition blockOf (candidates : list MatchCandidate) (assigned : list EnrichedMatch)
  : Prop :=
  NoDup (map student_external_id assigned)
  /\ map match_rank assigned = ranksUpTo (length assigned)
  /\ (length assigned <= 2)%nat
  /\ Forall (fun m => exists c, c ∈ candidates
                       /\ student_external_id m = studentIdOf c
                       /\ soldier_external_id m = LocalSoldier.contact_id (soldier c)
                       /\ em_soldier m = Some (soldier c)) assigned.

(** What the goal invariant of the allocator asks of an assignment list, for
    every entry of the candidate map: ranks 1 and 2 when the entry has two
    distinct students or more, rank 1 alone when it has one, nothing when the
    entry is empty. *)
Definition eachSoldierServed (matchesBySoldier : JSMap.t (list MatchCandidate))
           (assignments : list EnrichedMatch) : Prop :=
  forall k candidates,
    (k, candidates) ∈ matchesBySoldier ->
    ((2 <= distinctStudents candidates)%nat ->
     map match_rank (assignmentsOf k assignments) = [1; 2])
    /\ (distinctStudents candidates = 1%nat ->
        map match_rank (assignmentsOf k assignments) = [1])
    /\ (candidates = [] -> assignmentsOf k assignments = []).

(** The summary of a run that matched nobody. *)
Definition emptySummary (students soldiers : Z) : MatchingSummary :=
  {| totalStudents := students;
     totalSoldiers := soldiers;
     totalMatches := 0;
     soldiersWithTwoMatches := 0;
     soldiersWithOneMatch := 0;
     soldiersWithNoMatch := soldiers;
     studentsUsed := 0;
     studentsNotUsed := students;
     avgScore := 0;
     highScoreMatches := 0;
     mediumScoreMatches := 0;
     lowScoreMatches := 0 |}.

(** As the specification words it: every count field of the summary is 0. *)
Definition allCountsZero (s : MatchingSummary) : Prop :=
  totalStudents s = 0 /\ totalSoldiers s = 0 /\ totalMatches s = 0
  /\ soldiersWithTwoMatches s = 0 /\ soldiersWithOneMatch s = 0
  /\ soldiersWithNoMatch s = 0 /\ studentsUsed s = 0 /\ studentsNotUsed s = 0
  /\ highScoreMatches s = 0 /\ mediumScoreMatches s = 0 /\ lowScoreMatches s = 0.

(** The match with its identifier blanked. *)
Definition eraseId (m : EnrichedMatch) : EnrichedMatch :=
  {| id := "";
     student_external_id := student_external_id m;
     soldier_external_id := soldier_external_id m;
     confidence_score := confidence_score m;
     match_rank := match_rank m;
     match_criteria := match_criteria m;
     status := status m;
     em_student := em_student m;
     em_soldier := em_soldier m |}.

(** ** Vocabulary of the proofs *)

(** What one iteration of the loop over the soldiers does to the state. *)
Definition extendsWith (st st' : AllocState) (candidates : list MatchCandidate)
           (block : list EnrichedMatch) : Prop :=
  result st' = result st ++ block
  /\ blockOf candidates block
  /\ length block = Nat.min 2 (distinctStudents candidates)
  /\ forall x, count_of (studentAssignments st') x
               = count_of (studentAssignments st) x + rank1Count x block.

(** The state after the soldiers of [done] were processed, the counters having
    started from [start]. *)
Record greedyInv (start : string -> Z) (done : list (string * list MatchCandidate))
       (st : AllocState) : Prop := {
  gi_ranks : forall k candidates,
    (k, candidates) ∈ done ->
    map match_rank (assignmentsOf k (result st))
    = ranksUpTo (Nat.min 2 (distinctStudents candidates));
  gi_keys : forall m, m ∈ result st -> soldier_external_id m ∈ map fst done;
  gi_pairs : NoDup (map pairOf (result st));
  gi_slots : NoDup (map slotOf (result st));
  gi_counts : forall x,
    count_of (studentAssignments st) x = start x + rank1Count x (result st);
  gi_soldier : Forall (fun m => is_Some (em_soldier m)) (result st);
  gi_rank12 : Forall (fun m => match_rank m = 1 \/ match_rank m = 2) (result st)
}.

(** One successful swap: the unused student [u] takes the rank-2 slot [i],
    whose holder [old] has a counter above 1 that no other rank-2 holder
    exceeds; nothing but that slot and the counter of [u] changes. *)
Definition swapsSlot (st : AllocState) (u : LocalStudent.t) (st' : AllocState)
           (i : nat) (old new : EnrichedMatch) : Prop :=
  result st !! i = Some old
  /\ match_rank old = 2
  /\ 1 < count_of (studentAssignments st) (student_external_id old)
  /\ (forall j m, result st !! j = Some m -> match_rank m = 2 ->
                  count_of (studentAssignments st) (student_external_id m)
                  <= count_of (studentAssignments st) (student_external_id old))
  /\ result st' = <[i := new]> (result st)
  /\ student_external_id new = LocalStudent.contact_id u
  /\ soldier_external_id new = soldier_external_id old
  /\ match_rank new = 2
  /\ em_soldier new = em_soldier old
  /\ studentAssignments st'
     = <[LocalStudent.contact_id u :=
           count_of (studentAssignments st) (LocalStudent.contact_id u) + 1]>
         (studentAssignments st).

(** A slot of the list during the final pass, against the same slot [m0]
    before the pass: it is untouched, or it is a rank-2 slot of the same
    soldier now held by a student that was unused before the pass, and its
    holder before the pass had a counter above 1. *)
Definition slotKept (used0 : gset string) (counts0 : gmap string Z)
           (m0 m : EnrichedMatch) : Prop :=
  m = m0
  \/ (match_rank m0 = 2
      /\ match_rank m = 2
      /\ soldier_external_id m = soldier_external_id m0
      /\ em_soldier m = em_soldier m0
      /\ (student_external_id m ∉ used0)
      /\ 1 < count_of counts0 (student_external_id m0)).

Definition finalInv (st0 st : AllocState) : Prop :=
  Forall2 (slotKept (usedStudentIdsOf (result st0)) (studentAssignments st0))
          (result st0) (result st)
  /\ forall x, x ∈ usedStudentIdsOf (result st0) ->
               count_of (studentAssignments st) x = count_of (studentAssignments st0) x.

(** A swap performed by the final pass: the states around it, the unused
    student, the slot, the match that was evicted and the one put in. *)
Record SwapEvent := mkSwap {
  before : AllocState;
  swappedIn : LocalStudent.t;
  after : AllocState;
  slot : nat;
  evicted : EnrichedMatch;
  placed : EnrichedMatch
}.

(** The final pass as a run: the unused students are visited once each, in
    order; a visit leaves the state as it is or swaps one slot. *)
Inductive passRun : AllocState -> list LocalStudent.t -> list SwapEvent -> AllocState -> Prop :=
| passRun_done (st : AllocState) : passRun st [] [] st
| passRun_skip (st : AllocState) (u : LocalStudent.t) (rest : list LocalStudent.t)
               (events : list SwapEvent) (st' : AllocState) :
    swapIn st u = Some st ->
    passRun st rest events st' ->
    passRun st (u :: rest) events st'
| passRun_swap (st : AllocState) (u : LocalStudent.t) (st1 : AllocState) (i : nat)
               (old new : EnrichedMatch) (rest : list LocalStudent.t)
               (events : list SwapEvent) (st' : AllocState) :
    swapIn st u = Some st1 ->
    swapsSlot st u st1 i old new ->
    passRun st1 rest events st' ->
    passRun st (u :: rest) (mkSwap st u st1 i old new :: events) st'.

(** A swap of the pass that started in [st0]. *)
Definition swapOfPass (st0 : AllocState) (e : SwapEvent) : Prop :=
  swapsSlot (before e) (swappedIn e) (after e) (slot e) (evicted e) (placed e)
  /\ finalInv st0 (before e)
  /\ finalInv st0 (after e)
  /\ LocalStudent.contact_id (swappedIn e) ∉ usedStudentIdsOf (result st0).

Definition greedyLight (start : string -> Z) (st : AllocState) : Prop :=
  Forall (fun m => is_Some (em_soldier m)) (result st)
  /\ forall x, count_of (studentAssignments st) x = start x + rank1Count x (result st).



(** The identifier source that returns the blank identifier at every draw. *)
Definition blankUUID (n : nat) : string := "".

Definition eraseIds (st : AllocState) : AllocState :=
  {| result := map eraseId (result st);
     studentAssignments := studentAssignments st;
     drawn := drawn st |}.

(** The check of [wellFormed] on a given map. *)
Definition wellFormedb (matchesBySoldier : JSMap.t (list MatchCandidate)) : bool :=
  bool_decide (NoDup (JSMap.keys matchesBySoldier))
  && forallb (fun entry =>
                forallb (fun c => String.eqb (LocalSoldier.contact_id (soldier c))
                                             (fst entry))
                        (snd entry))
             matchesBySoldier.

(** A short view of an assignment: identifier, student, soldier, score, rank. *)
Definition brief (m : EnrichedMatch) : string * string * string * Z * Z :=
  (id m, student_external_id m, soldier_external_id m, confidence_score m, match_rank m).

(** What the table takes off the distance score. *)
Definition tablePenalty (genderMatch languageMatch : bool) : Z :=
  match genderMatch, languageMatch with
  | true, true => 0
  | false, true => 30
  | true, false => 40
  | false, false => 70
  end.

(** The counters of the students of [S] are within 1 of each other. *)
Definition balanced (S : gset string) (counts : gmap string Z) : Prop :=
  forall x y, x ∈ S -> y ∈ S -> count_of counts x <= count_of counts y + 1.

(** Every entry that has candidates lists exactly the students of [S]. *)
Definition uniformMap (S : gset string) (matchesBySoldier : JSMap.t (list MatchCandidate))
  : Prop :=
  forall k candidates,
    (k, candidates) ∈ matchesBySoldier -> candidates <> [] ->
    forall x, x ∈ S <-> x ∈ map studentIdOf candidates.

(** An assignment built from a candidate of the map. *)
Definition fromCandidateOf (matchesBySoldier : JSMap.t (list MatchCandidate))
           (m : EnrichedMatch) : Prop :=
  exists k candidates c,
    (k, candidates) ∈ matchesBySoldier /\ c ∈ candidates
    /\ m = matchOfCandidate (id m) c (match_rank m).

(** The identifiers of the list are those of the draws [draws], each below
    [n] and none used twice. *)
Definition drawnFrom (draws : list nat) (n : nat) (assignments : list EnrichedMatch)
  : Prop :=
  map id assignments = map randomUUID draws
  /\ NoDup draws
  /\ forall j, j ∈ draws -> (j < n)%nat.

(** [xs.reduce((s, x) => s + x, 0)] *)
Definition sumZ (l : list Z) : Z := foldr Z.add 0 l.

(** [currentCount < maxCount] of the capacity-enforcing allocator. *)
Definition hasCapacity (studentAssignments : gmap string Z) (candidate : MatchCandidate)
  : bool :=
  count_of studentAssignments (LocalStudent.contact_id (student candidate))
  <? (if LocalStudent.is_scholarship_active (student candidate) then 2 else 4).

(** ** Properties of the scoring function *)

Lemma Math_round_nearest (x : Q) : nearest_integer (Math_round x) x.
Proof.
  unfold nearest_integer, Math_round.
  pose proof (Qfloor_le (x + (1 # 2))) as Hle.
  pose proof (Qlt_floor (x + (1 # 2))) as Hlt.
  split; [|exact Hle].
  rewrite inject_Z_plus in Hlt.
  apply Qlt_le_weak.
  apply (Qplus_lt_l _ _ 1%Q).
  eapply Qle_lt_trans; [|exact Hlt].
  ring_simplify. apply Qle_refl.
Qed.

Lemma Math_round_mono (x y : Q) : (x <= y)%Q -> Math_round x <= Math_round y.
Proof.
  intros H. unfold Math_round. apply Qfloor_resp_le.
  apply Qplus_le_compat; [exact H | apply Qle_refl].
Qed.

Lemma tableScore_spec (g l : bool) (d : Q) : tableScore g l d = decision_table_spec g l d.
Proof. destruct g, l; reflexivity. Qed.

Lemma tableScore_le (g l : bool) (d : Q) : (tableScore g l d <= d)%Q.
Proof.
  rewrite tableScore_spec.
  destruct g, l; simpl; try apply Qle_refl;
    apply (Qplus_le_l _ _ (100 - d)%Q); ring_simplify;
    apply Qle_minus_iff; ring_simplify; discriminate.
Qed.

Lemma getDistanceScore_range (city1 city2 : string) :
  (0 <= getDistanceScore city1 city2 <= 100)%Q.
Proof.
  unfold getDistanceScore.
  destruct (getCityDistance city1 city2) as [distance|]; [|split; discriminate].
  repeat match goal with
         | |- context [if ?b then _ else _] => destruct b
         end; split; discriminate.
Qed.

(** C2: the score of a pair is the entry of the decision table over (gender
    match, language match) at the pair's distance score, rounded to the
    nearest integer and then raised to 1 when it is below. *)
Theorem calculateSecureMatch_decision_table
        (student : LocalStudent.t) (soldier : LocalSoldier.t) :
  let g := checkGenderMatch (LocalStudent.gender student)
                            (LocalSoldier.volunteer_gender_preference soldier) in
  let l := checkLanguageMatch (LocalStudent.mother_tongue_code student)
                              (LocalSoldier.mother_tongue_code soldier) in
  let d := getDistanceScore (or_empty (LocalStudent.city student))
                            (or_empty (LocalSoldier.city soldier)) in
  exists (c : MatchCandidate) (rounded : Z),
    calculateSecureMatch student soldier = Some c
    /\ nearest_integer rounded (decision_table_spec g l d)
    /\ rounded = Math_round (decision_table_spec g l d)
    /\ score c = Z.max 1 rounded
    /\ distance_score (criteria c) = d
    /\ gender_pref_match (criteria c) = g
    /\ language_match (criteria c) = l.
Proof.
  intros g l d.
  eexists. exists (Math_round (decision_table_spec g l d)).
  split; [reflexivity|].
  split; [apply Math_round_nearest|].
  split; [reflexivity|].
  simpl. rewrite tableScore_spec. repeat split; reflexivity.
Qed.

(** C3: when the distance score of the pair lies in [0, 100], the score of the
    pair lies in [1, 100]. *)
Theorem calculateSecureMatch_score_range
        (student : LocalStudent.t) (soldier : LocalSoldier.t) :
  (0 <= getDistanceScore (or_empty (LocalStudent.city student))
                         (or_empty (LocalSoldier.city soldier)) <= 100)%Q ->
  exists c : MatchCandidate,
    calculateSecureMatch student soldier = Some c /\ 1 <= score c <= 100.
Proof.
  intros [_ Hhi]. eexists. split; [reflexivity|]. simpl.
  split; [lia|].
  apply Z.max_lub; [lia|].
  change 100 with (Math_round 100).
  apply Math_round_mono.
  eapply Qle_trans; [apply tableScore_le | exact Hhi].
Qed.

Lemma calculateSecureMatch_some (stu : LocalStudent.t) (sol : LocalSoldier.t) :
  exists c : MatchCandidate,
    calculateSecureMatch stu sol = Some c
    /\ 0 < score c /\ student c = stu /\ soldier c = sol.
Proof. eexists. split; [reflexivity|]. simpl. repeat split. lia. Qed.

(** ** The stable sort *)

Lemma insert_sorted_perm {A} (cmp : A -> A -> Z) (x : A) (l : list A) :
  insert_sorted cmp x l ≡ₚ x :: l.
Proof.
  induction l as [|y l IH]; simpl; [done|].
  destruct (cmp x y <=? 0); [done|].
  rewrite IH. apply Permutation_swap.
Qed.

Lemma sort_by_perm {A} (cmp : A -> A -> Z) (l : list A) : sort_by cmp l ≡ₚ l.
Proof.
  induction l as [|x l IH]; simpl; [done|].
  rewrite insert_sorted_perm. by rewrite IH.
Qed.

Lemma sort_by_length {A} (cmp : A -> A -> Z) (l : list A) :
  length (sort_by cmp l) = length l.
Proof. apply Permutation_length, sort_by_perm. Qed.

Lemma elem_of_sort_by {A} (cmp : A -> A -> Z) (l : list A) (x : A) :
  x ∈ sort_by cmp l <-> x ∈ l.
Proof. by rewrite sort_by_perm. Qed.

Lemma insert_sorted_map {A B} (f : A -> B) (cmp : A -> A -> Z) (cmp' : B -> B -> Z)
      (x : A) (l : list A) :
  (forall a b, cmp a b = cmp' (f a) (f b)) ->
  map f (insert_sorted cmp x l) = insert_sorted cmp' (f x) (map f l).
Proof.
  intros H. induction l as [|y l IH]; simpl; [done|].
  rewrite <- H. destruct (cmp x y <=? 0); simpl; [done|]. by rewrite IH.
Qed.

Lemma sort_by_map {A B} (f : A -> B) (cmp : A -> A -> Z) (cmp' : B -> B -> Z)
      (l : list A) :
  (forall a b, cmp a b = cmp' (f a) (f b)) ->
  map f (sort_by cmp l) = sort_by cmp' (map f l).
Proof.
  intros H. induction l as [|x l IH]; simpl; [done|].
  unfold sort_by in *. simpl. rewrite <- IH. by apply insert_sorted_map.
Qed.

Lemma StronglySorted_weaken {A} (R R' : A -> A -> Prop) (l : list A) :
  (forall a b, R a b -> R' a b) -> StronglySorted R l -> StronglySorted R' l.
Proof.
  intros HR. induction 1 as [|x l Hl IH Hx]; constructor; [done|].
  eapply Forall_impl; [exact Hx|]. intros y. apply HR.
Qed.

Section SortOrder.
Context {A : Type} (cmp : A -> A -> Z).
Hypothesis cmp_total : forall x y, 0 < cmp x y -> cmp y x <= 0.
Hypothesis cmp_trans : forall x y z, cmp x y <= 0 -> cmp y z <= 0 -> cmp x z <= 0.

Lemma insert_sorted_sorted (x : A) (l : list A) :
  StronglySorted (fun a b => cmp a b <= 0) l ->
  StronglySorted (fun a b => cmp a b <= 0) (insert_sorted cmp x l).
Proof.
  induction 1 as [|y l Hl IH Hy]; simpl.
  - repeat constructor.
  - destruct (Z.leb_spec (cmp x y) 0) as [Hle|Hgt].
    + constructor; [by constructor|].
      constructor; [done|].
      eapply Forall_impl; [exact Hy|]. intros z Hz. by eapply cmp_trans.
    + constructor; [done|].
      rewrite insert_sorted_perm. constructor; [by apply cmp_total | done].
Qed.

Lemma sort_by_sorted (l : list A) :
  StronglySorted (fun a b => cmp a b <= 0) (sort_by cmp l).
Proof.
  induction l as [|x l IH]; simpl; [constructor|].
  by apply insert_sorted_sorted.
Qed.
End SortOrder.

(** ** The insertion-ordered map *)

Lemma JSMap_get_set_eq {V} (k : string) (v : V) (m : JSMap.t V) :
  JSMap.get k (JSMap.set k v m) = Some v.
Proof.
  induction m as [|[k' v'] m IH]; simpl.
  - by rewrite String.eqb_refl.
  - destruct (String.eqb_spec k' k) as [->|Hne]; simpl.
    + by rewrite String.eqb_refl.
    + by destruct (String.eqb_spec k' k).
Qed.

Lemma JSMap_get_set_ne {V} (k k' : string) (v : V) (m : JSMap.t V) :
  k <> k' -> JSMap.get k' (JSMap.set k v m) = JSMap.get k' m.
Proof.
  intros Hne. induction m as [|[k1 v1] m IH]; simpl.
  - by destruct (String.eqb_spec k k').
  - destruct (String.eqb_spec k1 k) as [->|Hk]; simpl.
    + by destruct (String.eqb_spec k k').
    + by rewrite IH.
Qed.

Lemma JSMap_keys_set {V} (k : string) (v : V) (m : JSMap.t V) :
  JSMap.keys (JSMap.set k v m)
  = if bool_decide (k ∈ JSMap.keys m) then JSMap.keys m else JSMap.keys m ++ [k].
Proof.
  induction m as [|[k1 v1] m IH]; simpl; [done|].
  destruct (String.eqb_spec k1 k) as [->|Hk]; simpl.
  - rewrite bool_decide_eq_true_2; [done | by left].
  - unfold JSMap.keys in *. rewrite IH.
    destruct (decide (k ∈ map fst m)) as [Hin|Hin].
    + rewrite !bool_decide_eq_true_2; [done | by right | done].
    + rewrite !bool_decide_eq_false_2; [done | | done].
      intros [?|?]%elem_of_cons; by simplify_eq.
Qed.

Lemma JSMap_set_NoDup {V} (k : string) (v : V) (m : JSMap.t V) :
  NoDup (JSMap.keys m) -> NoDup (JSMap.keys (JSMap.set k v m)).
Proof.
  intros Hnd. rewrite JSMap_keys_set. case_bool_decide; [done|].
  apply NoDup_app. split; [done|]. split; [|apply NoDup_singleton].
  intros x Hx ->%list_elem_of_singleton. done.
Qed.

Lemma JSMap_elem_of_set {V} (k k' : string) (v v' : V) (m : JSMap.t V) :
  (k', v') ∈ JSMap.set k v m -> (k' = k /\ v' = v) \/ (k', v') ∈ m.
Proof.
  induction m as [|[k1 v1] m IH]; simpl.
  - intros ?%list_elem_of_singleton. simplify_eq. by left.
  - destruct (String.eqb_spec k1 k) as [->|Hk].
    + intros [?|?]%elem_of_cons; simplify_eq; [by left|]. right. by right.
    + intros [?|?]%elem_of_cons; simplify_eq; [right; by left|].
      destruct IH as [?|?]; [done|by left|]. right. by right.
Qed.

Lemma JSMap_get_elem_of {V} (k : string) (v : V) (m : JSMap.t V) :
  JSMap.get k m = Some v -> (k, v) ∈ m.
Proof.
  induction m as [|[k1 v1] m IH]; simpl; [done|].
  destruct (String.eqb_spec k1 k) as [->|Hk].
  - intros [= ->]. by left.
  - intros H. right. by apply IH.
Qed.

(** ** Candidate generation *)

Lemma scoreAll_cons (stu : LocalStudent.t) (l : list LocalStudent.t) (sol : LocalSoldier.t) :
  exists c : MatchCandidate,
    calculateSecureMatch stu sol = Some c
    /\ 0 < score c /\ student c = stu /\ soldier c = sol
    /\ scoreAll (stu :: l) sol = c :: scoreAll l sol.
Proof.
  destruct (calculateSecureMatch_some stu sol) as (c & Hc & Hpos & Hs & Hd).
  exists c. repeat split; try done.
  change (scoreAll (stu :: l) sol)
    with (match calculateSecureMatch stu sol with
          | Some m => if 0 <? score m then m :: scoreAll l sol else scoreAll l sol
          | None => scoreAll l sol
          end).
  rewrite Hc. by apply Z.ltb_lt in Hpos as ->.
Qed.

Lemma scoreAll_students (students : list LocalStudent.t) (sol : LocalSoldier.t) :
  map student (scoreAll students sol) = students.
Proof.
  induction students as [|stu l IH]; [done|].
  destruct (scoreAll_cons stu l sol) as (c & _ & _ & Hs & _ & ->).
  simpl. by rewrite IH, Hs.
Qed.

Lemma scoreAll_Forall (students : list LocalStudent.t) (sol : LocalSoldier.t) :
  Forall (fun c => calculateSecureMatch (student c) sol = Some c
                   /\ 0 < score c /\ soldier c = sol)
         (scoreAll students sol).
Proof.
  induction students as [|stu l IH]; [constructor|].
  destruct (scoreAll_cons stu l sol) as (c & Hc & Hpos & Hs & Hd & ->).
  constructor; [|exact IH]. by rewrite Hs.
Qed.

Lemma byScoreDesc_total (x y : MatchCandidate) :
  0 < byScoreDesc x y -> byScoreDesc y x <= 0.
Proof. unfold byScoreDesc. lia. Qed.

Lemma byScoreDesc_trans (x y z : MatchCandidate) :
  byScoreDesc x y <= 0 -> byScoreDesc y z <= 0 -> byScoreDesc x z <= 0.
Proof. unfold byScoreDesc. lia. Qed.

Lemma byScoreThenLoad_total (x y : MatchCandidate) :
  0 < byScoreThenLoad x y -> byScoreThenLoad y x <= 0.
Proof.
  unfold byScoreThenLoad.
  destruct (Z.eqb_spec (score y) (score x)), (Z.eqb_spec (score x) (score y));
    simpl; lia.
Qed.

Lemma byScoreThenLoad_trans (x y z : MatchCandidate) :
  byScoreThenLoad x y <= 0 -> byScoreThenLoad y z <= 0 -> byScoreThenLoad x z <= 0.
Proof.
  unfold byScoreThenLoad.
  destruct (Z.eqb_spec (score y) (score x)), (Z.eqb_spec (score z) (score y)),
    (Z.eqb_spec (score z) (score x)); simpl; lia.
Qed.

Lemma byScoreThenLoad_score (x y : MatchCandidate) :
  byScoreThenLoad x y <= 0 -> score y <= score x.
Proof.
  unfold byScoreThenLoad. destruct (Z.eqb_spec (score y) (score x)); simpl; lia.
Qed.

(** What a loop of [set] calls leaves under the key of a soldier: the value
    computed for the last soldier that carries this key. *)
Lemma JSMap_get_fold_set {V} (f : LocalSoldier.t -> V) (soldiers : list LocalSoldier.t)
      (m0 : JSMap.t V) (s : LocalSoldier.t) :
  s ∈ soldiers ->
  exists s', s' ∈ soldiers
    /\ LocalSoldier.contact_id s' = LocalSoldier.contact_id s
    /\ JSMap.get (LocalSoldier.contact_id s)
                 (fold_left (fun m x => JSMap.set (LocalSoldier.contact_id x) (f x) m)
                            soldiers m0) = Some (f s')
    /\ (NoDup (map LocalSoldier.contact_id soldiers) -> s' = s).
Proof.
  revert m0. induction soldiers as [|x l IH] using rev_ind; intros m0 Hin.
  { by apply elem_of_nil in Hin. }
  rewrite fold_left_app. simpl.
  destruct (decide (LocalSoldier.contact_id x = LocalSoldier.contact_id s)) as [Heq|Hne].
  - exists x. split; [apply elem_of_app; right; by left|]. split; [done|].
    rewrite <- Heq. split; [apply JSMap_get_set_eq|].
    intros Hnd. apply elem_of_app in Hin as [Hin|Hin%list_elem_of_singleton]; [|done].
    rewrite map_app in Hnd. apply NoDup_app in Hnd as (_ & Hdisj & _).
    exfalso. apply (Hdisj (LocalSoldier.contact_id s)).
    + apply list_elem_of_fmap. by exists s.
    + simpl. rewrite Heq. by left.
  - apply elem_of_app in Hin as [Hin|Hin%list_elem_of_singleton]; [|by subst].
    destruct (IH m0 Hin) as (s' & Hs' & Hid & Hget & Huniq).
    exists s'. split; [apply elem_of_app; by left|]. split; [done|].
    split; [by rewrite JSMap_get_set_ne|].
    intros Hnd. apply Huniq. rewrite map_app in Hnd. by apply NoDup_app in Hnd as (? & _).
Qed.

(** The generator that keeps every candidate. *)
Lemma findAllSecureMatches_entry
      (students : list LocalStudent.t) (soldiers : list LocalSoldier.t)
      (s : LocalSoldier.t) :
  s ∈ soldiers ->
  exists (owner : LocalSoldier.t) (candidates : list MatchCandidate),
    JSMap.get (LocalSoldier.contact_id s) (findAllSecureMatches students soldiers)
    = Some candidates
    /\ owner ∈ soldiers
    /\ LocalSoldier.contact_id owner = LocalSoldier.contact_id s
    /\ (NoDup (map LocalSoldier.contact_id soldiers) -> owner = s)
    /\ map student candidates ≡ₚ students
    /\ length candidates = length students
    /\ Forall (fun c => calculateSecureMatch (student c) owner = Some c
                        /\ 0 < score c /\ soldier c = owner) candidates
    /\ StronglySorted (fun a b => score b <= score a) candidates.
Proof.
  intros Hin. unfold findAllSecureMatches.
  destruct (JSMap_get_fold_set
              (fun x => sort_by byScoreDesc (scoreAll students x))
              soldiers JSMap.empty s Hin) as (owner & Hown & Hid & Hget & Huniq).
  exists owner, (sort_by byScoreDesc (scoreAll students owner)).
  split; [exact Hget|]. split; [done|]. split; [done|]. split; [done|].
  split; [by rewrite sort_by_perm, scoreAll_students|].
  split.
  { rewrite sort_by_length. rewrite <- (scoreAll_students students owner) at 2.
    by rewrite length_map. }
  split.
  { rewrite sort_by_perm. apply scoreAll_Forall. }
  eapply StronglySorted_weaken; cycle 1.
  - apply sort_by_sorted; [apply byScoreDesc_total | apply byScoreDesc_trans].
  - intros a b. unfold byScoreDesc. simpl. lia.
Qed.

(** The generator of the capacity-enforcing variant: the first ten of the
    same candidates, ordered by score and then by the student's load. *)
Lemma findAllSecureMatches_capacity_entry
      (students : list LocalStudent.t) (soldiers : list LocalSoldier.t)
      (s : LocalSoldier.t) :
  s ∈ soldiers ->
  exists (owner : LocalSoldier.t) (ranked : list MatchCandidate),
    JSMap.get (LocalSoldier.contact_id s)
              (findAllSecureMatches_capacity students soldiers)
    = Some (take 10 ranked)
    /\ owner ∈ soldiers
    /\ LocalSoldier.contact_id owner = LocalSoldier.contact_id s
    /\ (NoDup (map LocalSoldier.contact_id soldiers) -> owner = s)
    /\ map student ranked ≡ₚ students
    /\ length (take 10 ranked) = Nat.min 10 (length students)
    /\ Forall (fun c => calculateSecureMatch (student c) owner = Some c
                        /\ 0 < score c /\ soldier c = owner) ranked
    /\ StronglySorted (fun a b => score b <= score a) ranked
    /\ StronglySorted (fun a b => byScoreThenLoad a b <= 0) ranked.
Proof.
  intros Hin. unfold findAllSecureMatches_capacity.
  destruct (JSMap_get_fold_set
              (fun x => take 10 (sort_by byScoreThenLoad (scoreAll students x)))
              soldiers JSMap.empty s Hin) as (owner & Hown & Hid & Hget & Huniq).
  exists owner, (sort_by byScoreThenLoad (scoreAll students owner)).
  split; [exact Hget|]. split; [done|]. split; [done|]. split; [done|].
  split; [by rewrite sort_by_perm, scoreAll_students|].
  split.
  { rewrite length_take, sort_by_length.
    rewrite <- (scoreAll_students students owner) at 2. by rewrite length_map. }
  split.
  { rewrite sort_by_perm. apply scoreAll_Forall. }
  assert (StronglySorted (fun a b => byScoreThenLoad a b <= 0)
                         (sort_by byScoreThenLoad (scoreAll students owner))) as Hs.
  { apply sort_by_sorted; [apply byScoreThenLoad_total | apply byScoreThenLoad_trans]. }
  split; [|exact Hs].
  eapply StronglySorted_weaken; [|exact Hs].
  intros a b. apply byScoreThenLoad_score.
Qed.

(** C4, as the code has it: the generator that feeds the load-balancing
    allocator files, under the identifier of every soldier, all the students
    (none dropped, none added), each with its score for the soldier that owns
    the entry, in descending order of score; the owner is the soldier itself
    when soldier identifiers are not repeated. The generator of the
    capacity-enforcing variant files the first ten candidates of that list
    ordered by descending score and, among equal scores, by fewer current
    soldiers. *)
Theorem findAllSecureMatches_all_sorted
        (students : list LocalStudent.t) (soldiers : list LocalSoldier.t)
        (s : LocalSoldier.t) :
  s ∈ soldiers ->
  (exists (owner : LocalSoldier.t) (candidates : list MatchCandidate),
      JSMap.get (LocalSoldier.contact_id s) (findAllSecureMatches students soldiers)
      = Some candidates
      /\ owner ∈ soldiers
      /\ LocalSoldier.contact_id owner = LocalSoldier.contact_id s
      /\ (NoDup (map LocalSoldier.contact_id soldiers) -> owner = s)
      /\ map student candidates ≡ₚ students
      /\ length candidates = length students
      /\ Forall (fun c => calculateSecureMatch (student c) owner = Some c
                          /\ 0 < score c /\ soldier c = owner) candidates
      /\ StronglySorted (fun a b => score b <= score a) candidates)
  /\ (exists (owner : LocalSoldier.t) (ranked : list MatchCandidate),
        JSMap.get (LocalSoldier.contact_id s)
                  (findAllSecureMatches_capacity students soldiers)
        = Some (take 10 ranked)
        /\ owner ∈ soldiers
        /\ LocalSoldier.contact_id owner = LocalSoldier.contact_id s
        /\ (NoDup (map LocalSoldier.contact_id soldiers) -> owner = s)
        /\ map student ranked ≡ₚ students
        /\ length (take 10 ranked) = Nat.min 10 (length students)
        /\ Forall (fun c => calculateSecureMatch (student c) owner = Some c
                            /\ 0 < score c /\ soldier c = owner) ranked
        /\ StronglySorted (fun a b => score b <= score a) ranked
        /\ StronglySorted (fun a b => byScoreThenLoad a b <= 0) ranked).
Proof.
  intros Hin. split.
  - by apply findAllSecureMatches_entry.
  - by apply findAllSecureMatches_capacity_entry.
Qed.

(** ** The per-soldier loops *)

Lemma alreadyAssigned_iff (assigned : list EnrichedMatch) (studentId : string) :
  alreadyAssigned assigned studentId = true
  <-> studentId ∈ map student_external_id assigned.
Proof.
  unfold alreadyAssigned. induction assigned as [|m l IH]; simpl.
  - split; [done|]. by intros ?%elem_of_nil.
  - rewrite orb_true_iff, IH, elem_of_cons.
    destruct (String.eqb_spec (student_external_id m) studentId) as [Heq|Hne].
    + split; intros _; by left.
    + split; (intros [?|?]; [done | by right]).
Qed.

Lemma len_app {A} (l1 l2 : list A) : len (l1 ++ l2) = len l1 + len l2.
Proof. unfold len. rewrite length_app. lia. Qed.

Lemma ranksUpTo_S (n : nat) : ranksUpTo (S n) = ranksUpTo n ++ [Z.of_nat n + 1].
Proof.
  unfold ranksUpTo. rewrite seq_S, map_app. simpl. do 2 f_equal. lia.
Qed.

Lemma blockOf_nil (candidates : list MatchCandidate) : blockOf candidates [].
Proof. repeat split; simpl; [constructor | lia | constructor]. Qed.

Lemma blockOf_snoc (candidates : list MatchCandidate) (assigned : list EnrichedMatch)
      (uuid : string) (c : MatchCandidate) :
  blockOf candidates assigned ->
  c ∈ candidates ->
  (length assigned < 2)%nat ->
  alreadyAssigned assigned (studentIdOf c) = false ->
  blockOf candidates (assigned ++ [matchOfCandidate uuid c (len assigned + 1)]).
Proof.
  intros (Hnd & Hranks & Hlen & Hall) Hc Hlt Hnew.
  repeat split.
  - rewrite map_app. apply NoDup_app. split; [done|]. split; [|apply NoDup_singleton].
    intros x Hx ->%list_elem_of_singleton.
    apply alreadyAssigned_iff in Hx. simpl in Hx. unfold studentIdOf in Hnew. congruence.
  - rewrite map_app, length_app, Hranks. simpl.
    replace (length assigned + 1)%nat with (S (length assigned)) by lia.
    by rewrite ranksUpTo_S.
  - rewrite length_app. simpl. lia.
  - apply Forall_app. split; [done|]. constructor; [|constructor].
    exists c. by repeat split.
Qed.

Lemma assignFromSorted_blockOf (candidates0 candidates : list MatchCandidate)
      (assigned : list EnrichedMatch) (counts : gmap string Z) (n : nat) :
  (forall c, c ∈ candidates -> c ∈ candidates0) ->
  blockOf candidates0 assigned ->
  blockOf candidates0 (assignFromSorted candidates assigned counts n).1.1.
Proof.
  revert assigned counts n.
  induction candidates as [|c rest IH]; intros assigned counts n Hsub Hblock; [done|].
  simpl. destruct (Z.leb_spec 2 (len assigned)) as [Hfull|Hroom]; [done|].
  fold (studentIdOf c).
  destruct (alreadyAssigned assigned (studentIdOf c)) eqn:Hdup.
  - apply IH; [|done]. intros c' Hc'. apply Hsub. by right.
  - apply IH; [intros c' Hc'; apply Hsub; by right|].
    apply blockOf_snoc; [done | apply Hsub; by left | unfold len in Hroom; lia | done].
Qed.

Lemma assignRespectingCapacity_blockOf (candidates0 candidates : list MatchCandidate)
      (assigned : list EnrichedMatch) (counts : gmap string Z) (n : nat) :
  (forall c, c ∈ candidates -> c ∈ candidates0) ->
  blockOf candidates0 assigned ->
  blockOf candidates0 (assignRespectingCapacity candidates assigned counts n).1.1.
Proof.
  revert assigned counts n.
  induction candidates as [|c rest IH]; intros assigned counts n Hsub Hblock; [done|].
  simpl. destruct (Z.leb_spec 2 (len assigned)) as [Hfull|Hroom]; [done|].
  fold (studentIdOf c).
  assert (forall c', c' ∈ rest -> c' ∈ candidates0) as Hrest.
  { intros c' Hc'. apply Hsub. by right. }
  destruct (alreadyAssigned assigned (studentIdOf c)) eqn:Hdup; [by apply IH|].
  destruct (count_of counts (studentIdOf c) <? _); [|by apply IH].
  apply IH; [done|].
  apply blockOf_snoc; [done | apply Hsub; by left | unfold len in Hroom; lia | done].
Qed.

(** The unrestricted loop stops only with two assignments or when every
    student of the list is assigned. *)
Lemma assignFromSorted_length (candidates : list MatchCandidate)
      (assigned : list EnrichedMatch) (counts : gmap string Z) (n : nat) :
  NoDup (map student_external_id assigned) ->
  (length assigned <= 2)%nat ->
  length (assignFromSorted candidates assigned counts n).1.1
  = Nat.min 2 (size (list_to_set (map student_external_id assigned
                                  ++ map studentIdOf candidates) : gset string)).
Proof.
  revert assigned counts n.
  induction candidates as [|c rest IH]; intros assigned counts n Hnd Hlen.
  - cbn [assignFromSorted fst map]. rewrite app_nil_r, size_list_to_set, length_map by done. lia.
  - cbn [assignFromSorted fst map]. fold (studentIdOf c).
    destruct (Z.leb_spec 2 (len assigned)) as [Hfull|Hroom].
    + cbn [fst]. unfold len in Hfull.
      assert (length assigned
              <= size (list_to_set (map student_external_id assigned
                                    ++ studentIdOf c :: map studentIdOf rest)
                       : gset string))%nat; [|lia].
      rewrite <- (length_map student_external_id assigned).
      rewrite <- (size_list_to_set (C:=gset string) (map student_external_id assigned))
        by done.
      apply subseteq_size. rewrite list_to_set_app_L. set_solver.
    + destruct (alreadyAssigned assigned (studentIdOf c)) eqn:Hdup.
      * rewrite IH by done. f_equal. f_equal.
        apply alreadyAssigned_iff in Hdup.
        rewrite !list_to_set_app_L, list_to_set_cons.
        apply (elem_of_list_to_set (C:=gset string)) in Hdup. set_solver.
      * rewrite IH.
        -- f_equal. f_equal. rewrite map_app. simpl.
           rewrite !list_to_set_app_L, list_to_set_cons. simpl. set_solver.
        -- rewrite map_app. apply NoDup_app. split; [done|].
           split; [|apply NoDup_singleton].
           intros x Hx ->%list_elem_of_singleton.
           apply alreadyAssigned_iff in Hx. simpl in Hx. unfold studentIdOf in Hdup.
           congruence.
        -- rewrite length_app. simpl. unfold len in Hroom. lia.
Qed.

(** *** The live counters *)

Lemma count_of_insert (counts : gmap string Z) (k x : string) (v : Z) :
  count_of (<[k := v]> counts) x = if decide (k = x) then v else count_of counts x.
Proof.
  unfold count_of. destruct (decide (k = x)) as [->|Hne].
  - by rewrite lookup_insert_eq.
  - by rewrite lookup_insert_ne.
Qed.

Lemma countWhere_app {A} (p : A -> bool) (l1 l2 : list A) :
  countWhere p (l1 ++ l2) = countWhere p l1 + countWhere p l2.
Proof. unfold countWhere. by rewrite List.filter_app, len_app. Qed.

Lemma rank1Count_app (x : string) (l1 l2 : list EnrichedMatch) :
  rank1Count x (l1 ++ l2) = rank1Count x l1 + rank1Count x l2.
Proof. apply countWhere_app. Qed.

Lemma rank1Count_matchOfCandidate (x uuid : string) (c : MatchCandidate) (rank : Z) :
  rank1Count x [matchOfCandidate uuid c rank]
  = if (rank =? 1) && bool_decide (studentIdOf c = x) then 1 else 0.
Proof.
  unfold rank1Count, countWhere. simpl. fold (studentIdOf c).
  destruct (rank =? 1); simpl; [|done].
  destruct (String.eqb_spec (studentIdOf c) x).
  - by rewrite bool_decide_eq_true_2.
  - by rewrite bool_decide_eq_false_2.
Qed.

Lemma counts_after_assignment (counts : gmap string Z) (assigned : list EnrichedMatch)
      (uuid : string) (c : MatchCandidate) (rank : Z) (x : string) :
  count_of (if rank =? 1
            then <[studentIdOf c := count_of counts (studentIdOf c) + 1]> counts
            else counts) x
  - rank1Count x (assigned ++ [matchOfCandidate uuid c rank])
  = count_of counts x - rank1Count x assigned.
Proof.
  rewrite rank1Count_app, rank1Count_matchOfCandidate.
  destruct (rank =? 1); simpl; [|lia].
  rewrite count_of_insert.
  destruct (decide (studentIdOf c = x)) as [->|Hne].
  - rewrite bool_decide_eq_true_2 by done. lia.
  - rewrite bool_decide_eq_false_2 by done. lia.
Qed.

Lemma assignFromSorted_counts (candidates : list MatchCandidate)
      (assigned : list EnrichedMatch) (counts : gmap string Z) (n : nat) (x : string) :
  count_of (assignFromSorted candidates assigned counts n).1.2 x
  - rank1Count x (assignFromSorted candidates assigned counts n).1.1
  = count_of counts x - rank1Count x assigned.
Proof.
  revert assigned counts n.
  induction candidates as [|c rest IH]; intros assigned counts n; [done|].
  cbn [assignFromSorted]. fold (studentIdOf c).
  destruct (2 <=? len assigned); [done|].
  destruct (alreadyAssigned assigned (studentIdOf c)); [apply IH|].
  rewrite IH. apply counts_after_assignment.
Qed.

Lemma assignRespectingCapacity_counts (candidates : list MatchCandidate)
      (assigned : list EnrichedMatch) (counts : gmap string Z) (n : nat) (x : string) :
  count_of (assignRespectingCapacity candidates assigned counts n).1.2 x
  - rank1Count x (assignRespectingCapacity candidates assigned counts n).1.1
  = count_of counts x - rank1Count x assigned.
Proof.
  revert assigned counts n.
  induction candidates as [|c rest IH]; intros assigned counts n; [done|].
  cbn [assignRespectingCapacity]. fold (studentIdOf c).
  destruct (2 <=? len assigned); [done|].
  destruct (alreadyAssigned assigned (studentIdOf c)); [apply IH|].
  destruct (count_of counts (studentIdOf c) <? _); [|apply IH].
  rewrite IH. apply counts_after_assignment.
Qed.

(** *** One soldier *)

Lemma blockOf_students_subset (candidates : list MatchCandidate)
      (assigned : list EnrichedMatch) :
  blockOf candidates assigned ->
  (list_to_set (map student_external_id assigned ++ map studentIdOf candidates)
   : gset string)
  = list_to_set (map studentIdOf candidates).
Proof.
  intros (_ & _ & _ & Hall). rewrite list_to_set_app_L.
  assert ((list_to_set (map student_external_id assigned) : gset string)
          ⊆ list_to_set (map studentIdOf candidates)); [|set_solver].
  intros x. rewrite !elem_of_list_to_set.
  intros (m & -> & Hm)%list_elem_of_fmap.
  rewrite Forall_forall in Hall. destruct (Hall m Hm) as (c & Hc & -> & _).
  apply list_elem_of_fmap. by exists c.
Qed.

Lemma distinctStudents_sort_by (cmp : MatchCandidate -> MatchCandidate -> Z)
      (candidates : list MatchCandidate) :
  distinctStudents (sort_by cmp candidates) = distinctStudents candidates.
Proof.
  unfold distinctStudents. f_equal. apply set_eq. intros x.
  rewrite !elem_of_list_to_set, !list_elem_of_fmap.
  by setoid_rewrite elem_of_sort_by.
Qed.

Lemma blockOf_sort_by (cmp : MatchCandidate -> MatchCandidate -> Z)
      (candidates : list MatchCandidate) (assigned : list EnrichedMatch) :
  blockOf (sort_by cmp candidates) assigned -> blockOf candidates assigned.
Proof.
  intros (Hnd & Hranks & Hlen & Hall). repeat split; try done.
  eapply Forall_impl; [exact Hall|]. intros m (c & Hc & Hm).
  exists c. split; [by apply elem_of_sort_by in Hc | done].
Qed.

Lemma assignSoldier_extends (st : AllocState) (candidates : list MatchCandidate) :
  exists block, extendsWith st (assignSoldier st candidates) candidates block.
Proof.
  unfold assignSoldier. destruct (Z.eqb_spec (len candidates) 0) as [Hz|Hnz].
  { exists []. destruct candidates; [|done].
    split; [by rewrite app_nil_r|]. split; [apply blockOf_nil|].
    split; [done|]. intros x. unfold rank1Count, countWhere, len. simpl. lia. }
  set (sorted := sort_by (byLoadThenScore (studentAssignments st)) candidates).
  pose proof (assignFromSorted_blockOf sorted sorted [] (studentAssignments st) (drawn st)
                (fun c H => H) (blockOf_nil _)) as Hblock.
  pose proof (assignFromSorted_length sorted [] (studentAssignments st) (drawn st)
                (NoDup_nil_2) ltac:(simpl; lia)) as Hlen.
  pose proof (assignFromSorted_counts sorted [] (studentAssignments st) (drawn st))
    as Hcounts.
  destruct (assignFromSorted sorted [] (studentAssignments st) (drawn st))
    as [[block counts] n].
  exists block. unfold extendsWith. cbn [fst snd result studentAssignments drawn app] in *. split; [done|].
  split; [by apply blockOf_sort_by in Hblock|].
  split.
  - rewrite Hlen. cbn [map app].
    change (size (list_to_set (map studentIdOf sorted) : gset string))
      with (distinctStudents sorted).
    subst sorted. by rewrite distinctStudents_sort_by.
  - intros x. specialize (Hcounts x). unfold rank1Count at 2, countWhere, len in Hcounts.
    simpl in Hcounts. lia.
Qed.

Lemma assignSoldier_capacity_extends (st : AllocState)
      (candidates : list MatchCandidate) :
  exists block, extendsWith st (assignSoldier_capacity st candidates) candidates block.
Proof.
  unfold assignSoldier_capacity. destruct (Z.eqb_spec (len candidates) 0) as [Hz|Hnz].
  { exists []. destruct candidates; [|done].
    split; [by rewrite app_nil_r|]. split; [apply blockOf_nil|].
    split; [done|]. intros x. unfold rank1Count, countWhere, len. simpl. lia. }
  pose proof (assignRespectingCapacity_blockOf candidates candidates []
                (studentAssignments st) (drawn st) (fun c H => H) (blockOf_nil _))
    as Hblock1.
  pose proof (assignRespectingCapacity_counts candidates []
                (studentAssignments st) (drawn st)) as Hcounts1.
  destruct (assignRespectingCapacity candidates [] (studentAssignments st) (drawn st))
    as [[block1 counts1] n1].
  cbn [fst snd] in Hblock1, Hcounts1.
  assert (forall x, count_of counts1 x
                    = count_of (studentAssignments st) x + rank1Count x block1) as Hc1.
  { intros x. specialize (Hcounts1 x). unfold rank1Count at 2, countWhere, len in Hcounts1.
    simpl in Hcounts1. lia. }
  destruct (Z.ltb_spec (len block1) 2) as [Hlt|Hge].
  - pose proof (assignFromSorted_blockOf candidates candidates block1 counts1 n1
                  (fun c H => H) Hblock1) as Hblock.
    pose proof (blockOf_students_subset _ _ Hblock1) as Hsub.
    destruct Hblock1 as (Hnd1 & _ & Hlen1 & _).
    pose proof (assignFromSorted_length candidates block1 counts1 n1 Hnd1 Hlen1) as Hlen.
    pose proof (assignFromSorted_counts candidates block1 counts1 n1) as Hcounts.
    rewrite Hsub in Hlen.
    destruct (assignFromSorted candidates block1 counts1 n1) as [[block counts] n].
    exists block. unfold extendsWith. cbn [fst snd result studentAssignments drawn app] in *. split; [done|]. split; [done|]. split; [done|].
    intros x. specialize (Hcounts x). specialize (Hc1 x). lia.
  - exists block1. unfold extendsWith. cbn [fst snd result studentAssignments]. split; [done|]. split; [done|]. split; [|done].
    pose proof (blockOf_students_subset _ _ Hblock1) as Hsub.
    destruct Hblock1 as (Hnd1 & _ & Hlen1 & _).
    unfold len in Hge.
    assert (length block1 <= distinctStudents candidates)%nat; [|lia].
    unfold distinctStudents. rewrite <- Hsub.
    rewrite <- (length_map student_external_id block1).
    rewrite <- (size_list_to_set (C:=gset string) (map student_external_id block1))
      by done.
    apply subseteq_size. rewrite list_to_set_app_L. set_solver.
Qed.

(** *** The loop over the soldiers *)

Lemma assignmentsOf_app (k : string) (l1 l2 : list EnrichedMatch) :
  assignmentsOf k (l1 ++ l2) = assignmentsOf k l1 ++ assignmentsOf k l2.
Proof. apply List.filter_app. Qed.

Lemma assignmentsOf_all (k : string) (l : list EnrichedMatch) :
  Forall (fun m => soldier_external_id m = k) l -> assignmentsOf k l = l.
Proof.
  induction 1 as [|m l Hm Hl IH]; simpl; [done|].
  rewrite Hm, String.eqb_refl. f_equal. exact IH.
Qed.

Lemma assignmentsOf_none (k : string) (l : list EnrichedMatch) :
  Forall (fun m => soldier_external_id m <> k) l -> assignmentsOf k l = [].
Proof.
  induction 1 as [|m l Hm Hl IH]; simpl; [done|].
  destruct (String.eqb_spec (soldier_external_id m) k); [done | exact IH].
Qed.

Lemma blockOf_soldier (k : string) (candidates : list MatchCandidate)
      (block : list EnrichedMatch) :
  (forall c, c ∈ candidates -> LocalSoldier.contact_id (soldier c) = k) ->
  blockOf candidates block ->
  Forall (fun m => soldier_external_id m = k) block.
Proof.
  intros Hk (_ & _ & _ & Hall). eapply Forall_impl; [exact Hall|].
  intros m (c & Hc & _ & -> & _). by apply Hk.
Qed.

Lemma NoDup_ranksUpTo (n : nat) : NoDup (ranksUpTo n).
Proof.
  unfold ranksUpTo. apply (NoDup_fmap_2 Z.of_nat), NoDup_seq.
Qed.

Lemma ranksUpTo_1_or_2 (n : nat) (r : Z) :
  (n <= 2)%nat -> r ∈ ranksUpTo n -> r = 1 \/ r = 2.
Proof.
  intros Hn (i & -> & Hi)%list_elem_of_fmap.
  apply elem_of_seq in Hi. lia.
Qed.

Lemma greedyInv_extend (start : string -> Z) (done : list (string * list MatchCandidate))
      (st st' : AllocState) (k : string) (candidates : list MatchCandidate)
      (block : list EnrichedMatch) :
  k ∉ map fst done ->
  (forall c, c ∈ candidates -> LocalSoldier.contact_id (soldier c) = k) ->
  extendsWith st st' candidates block ->
  greedyInv start done st ->
  greedyInv start (done ++ [(k, candidates)]) st'.
Proof.
  intros Hfresh Hk (Hres & Hblock & Hlen & Hcounts) Hinv.
  pose proof (blockOf_soldier k _ _ Hk Hblock) as Hsol.
  assert (assignmentsOf k (result st) = []) as Hnone.
  { apply assignmentsOf_none, Forall_forall. intros m Hm <-.
    by apply Hfresh, (gi_keys _ _ _ Hinv). }
  destruct Hblock as (Hnd & Hranks & Hle & Hall).
  split; rewrite ?Hres.
  - intros k' candidates' [Hin|Hin%list_elem_of_singleton]%elem_of_app.
    + rewrite assignmentsOf_app, (assignmentsOf_none k' block), app_nil_r.
      { by apply (gi_ranks _ _ _ Hinv). }
      eapply Forall_impl; [exact Hsol|]. intros m Hm1 Hm2.
      apply Hfresh. rewrite <- Hm1, Hm2. apply list_elem_of_fmap.
      by exists (k', candidates').
    + injection Hin as -> ->. rewrite assignmentsOf_app, Hnone, assignmentsOf_all by done.
      simpl. by rewrite Hranks, Hlen.
  - intros m [Hm|Hm]%elem_of_app; rewrite map_app, elem_of_app.
    + left. by apply (gi_keys _ _ _ Hinv).
    + right. rewrite Forall_forall in Hsol. rewrite (Hsol m Hm). simpl. by left.
  - rewrite map_app. apply NoDup_app. split; [apply (gi_pairs _ _ _ Hinv)|]. split.
    + intros p (m1 & -> & Hm1)%list_elem_of_fmap (m2 & Heq & Hm2)%list_elem_of_fmap.
      apply Hfresh. rewrite Forall_forall in Hsol. rewrite <- (Hsol m2 Hm2).
      unfold pairOf in Heq. simplify_eq. rewrite <- H0. by apply (gi_keys _ _ _ Hinv).
    + apply (NoDup_fmap_1 fst). by rewrite <- list_fmap_compose.
  - rewrite map_app. apply NoDup_app. split; [apply (gi_slots _ _ _ Hinv)|]. split.
    + intros p (m1 & -> & Hm1)%list_elem_of_fmap (m2 & Heq & Hm2)%list_elem_of_fmap.
      apply Hfresh. rewrite Forall_forall in Hsol. rewrite <- (Hsol m2 Hm2).
      unfold slotOf in Heq. simplify_eq. rewrite <- H. by apply (gi_keys _ _ _ Hinv).
    + apply (NoDup_fmap_1 snd). rewrite <- list_fmap_compose.
      change (NoDup (map match_rank block)). rewrite Hranks. apply NoDup_ranksUpTo.
  - intros x. rewrite Hcounts, (gi_counts _ _ _ Hinv), rank1Count_app. lia.
  - apply Forall_app. split; [apply (gi_soldier _ _ _ Hinv)|].
    eapply Forall_impl; [exact Hall|]. intros m (c & _ & _ & _ & ->). by eexists.
  - apply Forall_app. split; [apply (gi_rank12 _ _ _ Hinv)|].
    apply Forall_forall. intros m Hm. apply (ranksUpTo_1_or_2 (length block)); [done|].
    rewrite <- Hranks. apply list_elem_of_fmap. by exists m.
Qed.

Lemma greedyInv_fold (step : AllocState -> list MatchCandidate -> AllocState)
      (start : string -> Z) (entries : list (string * list MatchCandidate)) :
  (forall st candidates,
      exists block, extendsWith st (step st candidates) candidates block) ->
  forall (done : list (string * list MatchCandidate)) (st : AllocState),
    NoDup (map fst (done ++ entries)) ->
    (forall k candidates c,
        (k, candidates) ∈ entries -> c ∈ candidates ->
        LocalSoldier.contact_id (soldier c) = k) ->
    greedyInv start done st ->
    greedyInv start (done ++ entries)
              (fold_left (fun st entry => step st (snd entry)) entries st).
Proof.
  intros Hstep. induction entries as [|[k candidates] rest IH]; intros done st Hnd Hk Hinv.
  - by rewrite app_nil_r.
  - simpl. rewrite cons_middle, app_assoc in Hnd |- *.
    destruct (Hstep st candidates) as (block & Hext).
    apply IH; [done | |].
    + intros k' candidates' c Hin. apply Hk. by right.
    + eapply greedyInv_extend; [ | | exact Hext | exact Hinv].
      * rewrite !map_app in Hnd. apply NoDup_app in Hnd as (Hnd & _ & _).
        apply NoDup_app in Hnd as (_ & Hdisj & _).
        intros Hin. apply (Hdisj k Hin). simpl. by left.
      * intros c. apply Hk. by left.
Qed.

Lemma greedyInv_start (start : gmap string Z) :
  greedyInv (count_of start) []
            {| result := []; studentAssignments := start; drawn := 0 |}.
Proof.
  split; simpl; try constructor.
  - intros k candidates Hin. by apply elem_of_nil in Hin.
  - intros m Hin. by apply elem_of_nil in Hin.
  - intros x. unfold rank1Count, countWhere, len. simpl. lia.
Qed.

Lemma count_of_initialCounts (students : list LocalStudent.t) (x : string) :
  count_of (initialCounts students) x = 0.
Proof.
  unfold initialCounts.
  assert (forall counts : gmap string Z,
             count_of counts x = 0 ->
             count_of (fold_left (fun counts student =>
                                    <[LocalStudent.contact_id student := 0]> counts)
                                 students counts) x = 0) as Hgen.
  { induction students as [|s l IH]; intros counts Hc; [done|].
    simpl. apply IH. rewrite count_of_insert. by case_decide. }
  by apply Hgen.
Qed.

Lemma wellFormed_soldiersWithOptions (matchesBySoldier : JSMap.t (list MatchCandidate)) :
  wellFormed matchesBySoldier ->
  NoDup (map fst (soldiersWithOptions matchesBySoldier))
  /\ forall k candidates c,
      (k, candidates) ∈ soldiersWithOptions matchesBySoldier -> c ∈ candidates ->
      LocalSoldier.contact_id (soldier c) = k.
Proof.
  intros [Hnd Hk]. unfold soldiersWithOptions, JSMap.entries. split.
  - by rewrite sort_by_perm.
  - intros k candidates c Hin. apply (Hk k candidates c). by apply elem_of_sort_by in Hin.
Qed.

Lemma elem_of_soldiersWithOptions (matchesBySoldier : JSMap.t (list MatchCandidate))
      (entry : string * list MatchCandidate) :
  entry ∈ soldiersWithOptions matchesBySoldier <-> entry ∈ matchesBySoldier.
Proof. apply elem_of_sort_by. Qed.

(** The state between the loop over the soldiers and the final pass. *)
Lemma greedyPass_inv (matchesBySoldier : JSMap.t (list MatchCandidate))
      (students : list LocalStudent.t) :
  wellFormed matchesBySoldier ->
  greedyInv (fun _ => 0) (soldiersWithOptions matchesBySoldier)
            (greedyPass matchesBySoldier students).
Proof.
  intros [Hnd Hk]%wellFormed_soldiersWithOptions. unfold greedyPass.
  apply (greedyInv_fold assignSoldier (fun _ => 0)
           (soldiersWithOptions matchesBySoldier) assignSoldier_extends []);
    [done | done |].
  pose proof (greedyInv_start (initialCounts students)) as Hstart.
  destruct Hstart. split; try done.
  intros x. rewrite gi_counts0. by rewrite count_of_initialCounts.
Qed.

Lemma optimizeSecureMatches_capacity_inv
      (matchesBySoldier : JSMap.t (list MatchCandidate))
      (students : list LocalStudent.t) :
  wellFormed matchesBySoldier ->
  exists st, optimizeSecureMatches_capacity matchesBySoldier students = result st
    /\ greedyInv (count_of (initialCounts_capacity students))
                 (soldiersWithOptions matchesBySoldier) st.
Proof.
  intros [Hnd Hk]%wellFormed_soldiersWithOptions. eexists. split; [reflexivity|].
  apply (greedyInv_fold assignSoldier_capacity _
           (soldiersWithOptions matchesBySoldier) assignSoldier_capacity_extends []);
    [done | done |].
  apply greedyInv_start.
Qed.

(** ** The final pass *)

(** The scan returns the first rank-2 slot whose holder has the largest
    counter, provided that counter exceeds the initial [bestOverload]. *)
Lemma scanSwap_spec (counts : gmap string Z) (rest : list EnrichedMatch) :
  forall (i bestSwapIdx bestOverload idx overload : Z),
    scanSwap counts i rest bestSwapIdx bestOverload = (idx, overload) ->
    bestOverload <= overload
    /\ (forall j m, rest !! j = Some m -> match_rank m = 2 ->
                    count_of counts (student_external_id m) <= overload)
    /\ ((idx = bestSwapIdx /\ overload = bestOverload)
        \/ exists j m, rest !! j = Some m
             /\ idx = i + Z.of_nat j
             /\ match_rank m = 2
             /\ count_of counts (student_external_id m) = overload
             /\ bestOverload < overload).
Proof.
  induction rest as [|m rest IH]; intros i b o idx overload Hscan.
  { simpl in Hscan. injection Hscan as <- <-. split; [lia|]. split; [|by left].
    intros j m Hj. by rewrite lookup_nil in Hj. }
  simpl in Hscan. destruct (Z.eqb_spec (match_rank m) 2) as [Hr|Hr]; simpl in Hscan.
  - destruct (Z.ltb_spec o (count_of counts (student_external_id m))) as [Hlt|Hge].
    + destruct (IH _ _ _ _ _ Hscan) as (Hle & Hmax & Hcase).
      split; [lia|]. split.
      * intros [|j] m' Hj Hr'; simpl in Hj; [injection Hj as <-; lia|]. by eapply Hmax.
      * right. destruct Hcase as [[-> ->]|(j & m' & Hj & -> & Hr' & Hc & Hlt')].
        -- exists 0%nat, m. repeat split; try done. lia.
        -- exists (S j), m'. repeat split; try done; lia.
    + destruct (IH _ _ _ _ _ Hscan) as (Hle & Hmax & Hcase).
      split; [lia|]. split.
      * intros [|j] m' Hj Hr'; simpl in Hj; [injection Hj as <-; lia|]. by eapply Hmax.
      * destruct Hcase as [[-> ->]|(j & m' & Hj & -> & Hr' & Hc & Hlt')]; [by left|].
        right. exists (S j), m'. repeat split; try done; lia.
  - destruct (IH _ _ _ _ _ Hscan) as (Hle & Hmax & Hcase).
    split; [lia|]. split.
    + intros [|j] m' Hj Hr'; simpl in Hj; [by injection Hj as <-|]. by eapply Hmax.
    + destruct Hcase as [[-> ->]|(j & m' & Hj & -> & Hr' & Hc & Hlt')]; [by left|].
      right. exists (S j), m'. repeat split; try done; lia.
Qed.

Lemma swapIn_spec (st : AllocState) (u : LocalStudent.t) :
  Forall (fun m => is_Some (em_soldier m)) (result st) ->
  exists st', swapIn st u = Some st'
    /\ (st' = st \/ exists i old new, swapsSlot st u st' i old new).
Proof.
  intros Hsol. unfold swapIn.
  destruct (scanSwap (studentAssignments st) 0 (result st) (-1) 0)
    as [idx overload] eqn:Hscan.
  destruct (scanSwap_spec _ _ _ _ _ _ _ Hscan) as (Hle & Hmax & Hcase).
  destruct (andb (0 <=? idx) (1 <? overload)) eqn:Hguard; [|eexists; split; [done|by left]].
  apply andb_true_iff in Hguard as [Hidx%Z.leb_le Hover%Z.ltb_lt].
  destruct Hcase as [[-> ->]|(j & old & Hj & -> & Hr & Hc & Hlt)]; [lia|].
  replace (Z.to_nat (0 + Z.of_nat j)) with j by lia. rewrite Hj.
  rewrite Forall_forall in Hsol.
  destruct (Hsol old) as [sol Hsold]; [by eapply list_elem_of_lookup_2|].
  rewrite Hsold.
  destruct (calculateSecureMatch_some u (soldierOfSlot old sol)) as (c & -> & _).
  eexists. split; [reflexivity|]. right. eexists j, old, _.
  unfold swapsSlot. cbn [result studentAssignments match_rank student_external_id
                                soldier_external_id em_soldier].
  rewrite Hc. repeat split; try done.
Qed.

Lemma finalInv_refl (st0 : AllocState) : finalInv st0 st0.
Proof.
  split; [|done]. apply Forall2_same_length_lookup_2; [done|].
  intros i m0 m H0 H. left. congruence.
Qed.

Lemma elem_of_usedStudentIdsOf (assignments : list EnrichedMatch) (m : EnrichedMatch) :
  m ∈ assignments -> student_external_id m ∈ usedStudentIdsOf assignments.
Proof.
  intros Hm. unfold usedStudentIdsOf. apply elem_of_list_to_set, list_elem_of_fmap.
  by exists m.
Qed.

Lemma finalInv_swap (st0 st st' : AllocState) (u : LocalStudent.t) (i : nat)
      (old new : EnrichedMatch) :
  finalInv st0 st ->
  LocalStudent.contact_id u ∉ usedStudentIdsOf (result st0) ->
  swapsSlot st u st' i old new ->
  finalInv st0 st'.
Proof.
  intros [Hslots Hcounts] Hu
         (Hold & Hr & Hover & _ & Hres & Hstu & Hsol & Hrank & Hem & Hsa).
  destruct (Forall2_lookup_r _ _ _ _ _ Hslots Hold) as (m0 & Hm0 & Hkept).
  assert (forall P : EnrichedMatch -> EnrichedMatch -> Prop,
             Forall2 P (result st0) (result st) -> P m0 new ->
             Forall2 P (result st0) (<[i := new]> (result st))) as Hins.
  { intros P HP Hnew. rewrite <- (list_insert_id (result st0) i m0 Hm0).
    by apply Forall2_insert. }
  split.
  - rewrite Hres. apply Hins; [done|]. right.
    destruct Hkept as [->|(Hr0 & _ & Hsol0 & Hem0 & _ & Hover0)].
    + repeat split; try done; [congruence|].
      rewrite <- Hcounts; [done|].
      by eapply elem_of_usedStudentIdsOf, list_elem_of_lookup_2.
    + repeat split; try done; congruence.
  - intros x Hx. rewrite Hsa, count_of_insert.
    case_decide as Heq; [subst x; contradiction|]. by apply Hcounts.
Qed.

Lemma finalInv_soldier (st0 st : AllocState) :
  finalInv st0 st ->
  Forall (fun m => is_Some (em_soldier m)) (result st0) ->
  Forall (fun m => is_Some (em_soldier m)) (result st).
Proof.
  intros [Hslots _] Hsol. apply Forall_forall. intros m Hm.
  apply list_elem_of_lookup in Hm as [i Hi].
  destruct (Forall2_lookup_r _ _ _ _ _ Hslots Hi) as (m0 & Hm0 & Hkept).
  rewrite Forall_forall in Hsol. specialize (Hsol m0 (list_elem_of_lookup_2 _ _ _ Hm0)).
  destruct Hkept as [->|(_ & _ & _ & -> & _)]; done.
Qed.

Lemma unusedStudentsOf_unused (assignments : list EnrichedMatch)
      (students : list LocalStudent.t) :
  Forall (fun u => LocalStudent.contact_id u ∉ usedStudentIdsOf assignments)
         (unusedStudentsOf assignments students).
Proof.
  apply Forall_forall. intros u Hu. unfold unusedStudentsOf in Hu.
  apply list_elem_of_In, List.filter_In in Hu as [_ Hu].
  apply negb_true_iff in Hu. by apply bool_decide_eq_false in Hu.
Qed.

Lemma forEachUnused_run (st0 : AllocState) (unusedStudents : list LocalStudent.t) :
  Forall (fun m => is_Some (em_soldier m)) (result st0) ->
  Forall (fun u => LocalStudent.contact_id u ∉ usedStudentIdsOf (result st0))
         unusedStudents ->
  forall st, finalInv st0 st ->
    exists st' events,
      forEachUnused unusedStudents st = Some st'
      /\ passRun st unusedStudents events st'
      /\ finalInv st0 st'
      /\ Forall (swapOfPass st0) events.
Proof.
  intros Hsol. induction 1 as [|u rest Hu Hrest IH]; intros st Hinv; simpl.
  - exists st, []. split; [done|]. split; [constructor|]. split; [done|]. constructor.
  - destruct (swapIn_spec st u (finalInv_soldier _ _ Hinv Hsol))
      as (st1 & Hswap & [->|(i & old & new & Hslot)]); rewrite Hswap.
    + destruct (IH st Hinv) as (st' & events & Hrun & Hpass & Hinv' & Hev).
      exists st', events. split; [done|]. split; [by constructor|]. by split.
    + pose proof (finalInv_swap _ _ _ _ _ _ _ Hinv Hu Hslot) as Hinv1.
      destruct (IH st1 Hinv1) as (st' & events & Hrun & Hpass & Hinv' & Hev).
      exists st', (mkSwap st u st1 i old new :: events).
      split; [done|]. split; [by econstructor|]. split; [done|].
      constructor; [|done]. unfold swapOfPass.
      cbn [before after swappedIn slot evicted placed].
      split; [exact Hslot|]. split; [exact Hinv|]. split; [exact Hinv1 | exact Hu].
Qed.

(** The final pass never fails; it is one run over the unused students, and
    the list it returns is the list it was given up to the swapped slots. *)
Lemma finalPass_run (st0 : AllocState) (students : list LocalStudent.t) :
  Forall (fun m => is_Some (em_soldier m)) (result st0) ->
  exists st' events,
    finalPass st0 students = Some st'
    /\ passRun st0 (unusedStudentsOf (result st0) students) events st'
    /\ finalInv st0 st'
    /\ Forall (swapOfPass st0) events.
Proof.
  intros Hsol. unfold finalPass.
  destruct (Z.ltb_spec 0 (len (unusedStudentsOf (result st0) students))) as [Hlt|Hge].
  - apply forEachUnused_run; [done | apply unusedStudentsOf_unused | apply finalInv_refl].
  - destruct (unusedStudentsOf (result st0) students) as [|u l]; [|unfold len in Hge; simpl in Hge; lia].
    exists st0, []. split; [done|]. split; [constructor|].
    split; [apply finalInv_refl | constructor].
Qed.

Lemma slotKept_slotOf (used0 : gset string) (counts0 : gmap string Z)
      (m0 m : EnrichedMatch) :
  slotKept used0 counts0 m0 m -> slotOf m = slotOf m0.
Proof.
  intros [->|(Hr0 & Hr & Hsol & _)]; [done|]. unfold slotOf. congruence.
Qed.

Lemma finalInv_slots (st0 st : AllocState) :
  finalInv st0 st -> map slotOf (result st) = map slotOf (result st0).
Proof.
  intros [Hslots _]. induction Hslots as [|m0 m l0 l Hm Hl IH]; simpl; [done|].
  by rewrite IH, (slotKept_slotOf _ _ _ _ Hm).
Qed.

Lemma ranks_from_slots (k : string) (l : list EnrichedMatch) :
  map match_rank (assignmentsOf k l)
  = map snd (List.filter (fun p => String.eqb (fst p) k) (map slotOf l)).
Proof.
  induction l as [|m l IH]; simpl; [done|].
  destruct (String.eqb (soldier_external_id m) k); simpl; by rewrite IH.
Qed.

Lemma rank1Count_pos (x : string) (l : list EnrichedMatch) :
  0 < rank1Count x l ->
  exists m, m ∈ l /\ match_rank m = 1 /\ student_external_id m = x.
Proof.
  unfold rank1Count, countWhere, len.
  induction l as [|m l IH]; simpl; [lia|].
  destruct (Z.eqb_spec (match_rank m) 1) as [Hr|Hr]; simpl.
  - destruct (String.eqb_spec (student_external_id m) x) as [Hx|Hx].
    + intros _. exists m. split; [by left | done].
    + intros (m' & Hm' & H')%IH. exists m'. split; [by right | done].
  - intros (m' & Hm' & H')%IH. exists m'. split; [by right | done].
Qed.


Lemma finalInv_pairs (st0 st : AllocState) :
  NoDup (map pairOf (result st0)) ->
  NoDup (map slotOf (result st0)) ->
  finalInv st0 st ->
  NoDup (map pairOf (result st)).
Proof.
  intros Hpairs Hslots0 [Hslots _].
  apply NoDup_alt. intros i j p Hi Hj.
  apply list_lookup_fmap_Some_1 in Hi as (mi & -> & Hi).
  apply list_lookup_fmap_Some_1 in Hj as (mj & Hp & Hj).
  destruct (Forall2_lookup_r _ _ _ _ _ Hslots Hi) as (ni & Hni & Hki).
  destruct (Forall2_lookup_r _ _ _ _ _ Hslots Hj) as (nj & Hnj & Hkj).
  pose proof (elem_of_usedStudentIdsOf _ _ (list_elem_of_lookup_2 _ _ _ Hni)) as Hui.
  pose proof (elem_of_usedStudentIdsOf _ _ (list_elem_of_lookup_2 _ _ _ Hnj)) as Huj.
  unfold pairOf in Hp. injection Hp as Hstu Hsol.
  destruct Hki as [->|(Hri0 & Hri & Hsi & _ & Hnew_i & _)],
           Hkj as [->|(Hrj0 & Hrj & Hsj & _ & Hnew_j & _)].
  - eapply (proj1 (NoDup_alt _) Hpairs i j (pairOf ni)).
    + by rewrite list_lookup_fmap, Hni.
    + rewrite list_lookup_fmap, Hnj. simpl. unfold pairOf. by rewrite Hstu, Hsol.
  - exfalso. apply Hnew_j. by rewrite <- Hstu.
  - exfalso. apply Hnew_i. by rewrite Hstu.
  - eapply (proj1 (NoDup_alt _) Hslots0 i j (slotOf ni)).
    + by rewrite list_lookup_fmap, Hni.
    + rewrite list_lookup_fmap, Hnj. simpl. unfold slotOf. f_equal. f_equal; congruence.
Qed.

(** *** What the loop over the soldiers guarantees for any map *)

Lemma greedyLight_fold (step : AllocState -> list MatchCandidate -> AllocState)
      (start : string -> Z) (entries : list (string * list MatchCandidate)) :
  (forall st candidates,
      exists block, extendsWith st (step st candidates) candidates block) ->
  forall st, greedyLight start st ->
             greedyLight start (fold_left (fun st entry => step st (snd entry)) entries st).
Proof.
  intros Hstep. induction entries as [|[k candidates] rest IH]; intros st Hst; [done|].
  simpl. apply IH.
  destruct (Hstep st candidates) as (block & Hres & Hblock & _ & Hcounts).
  destruct Hst as [Hsol Hc]. destruct Hblock as (_ & _ & _ & Hall).
  split.
  - rewrite Hres. apply Forall_app. split; [done|].
    eapply Forall_impl; [exact Hall|]. intros m (c & _ & _ & _ & ->). by eexists.
  - intros x. rewrite Hcounts, Hc, Hres, rank1Count_app. lia.
Qed.

Lemma greedyPass_light (matchesBySoldier : JSMap.t (list MatchCandidate))
      (students : list LocalStudent.t) :
  greedyLight (fun _ => 0) (greedyPass matchesBySoldier students).
Proof.
  apply (greedyLight_fold assignSoldier); [apply assignSoldier_extends|].
  split; simpl; [constructor|].
  intros x. rewrite count_of_initialCounts. unfold rank1Count, countWhere, len. simpl. lia.
Qed.

Lemma finalInv_rank1 (st0 st : AllocState) :
  finalInv st0 st ->
  (forall i m, result st0 !! i = Some m -> match_rank m = 1 -> result st !! i = Some m)
  /\ (forall i m, result st !! i = Some m -> match_rank m = 1 -> result st0 !! i = Some m).
Proof.
  intros [Hslots _]. split; intros i m Hi Hr.
  - destruct (Forall2_lookup_l _ _ _ _ _ Hslots Hi) as (m' & Hm' & [->|(Hr0 & _)]);
      [done | lia].
  - destruct (Forall2_lookup_r _ _ _ _ _ Hslots Hi) as (m' & Hm' & [->|(_ & Hr' & _)]);
      [done | lia].
Qed.



(** *** When student identifiers are not repeated *)

Lemma rank1Count_unused (x : string) (l : list EnrichedMatch) :
  x ∉ usedStudentIdsOf l -> rank1Count x l = 0.
Proof.
  intros Hx. destruct (Z.lt_trichotomy (rank1Count x l) 0) as [Hlt|[Heq|Hgt]]; [|done|].
  - unfold rank1Count, countWhere, len in Hlt. lia.
  - destruct (rank1Count_pos x l Hgt) as (m & Hm & _ & <-).
    exfalso. by apply Hx, elem_of_usedStudentIdsOf.
Qed.





(** ** The allocator's guarantees *)

Lemma ranks_serve (matchesBySoldier : JSMap.t (list MatchCandidate))
      (assignments : list EnrichedMatch) :
  (forall k candidates,
      (k, candidates) ∈ matchesBySoldier ->
      map match_rank (assignmentsOf k assignments)
      = ranksUpTo (Nat.min 2 (distinctStudents candidates))) ->
  eachSoldierServed matchesBySoldier assignments.
Proof.
  intros Hranks k candidates Hin. specialize (Hranks k candidates Hin).
  split; [|split].
  - intros Hd. rewrite Hranks. by replace (Nat.min 2 _) with 2%nat by lia.
  - intros Hd. by rewrite Hranks, Hd.
  - intros ->. by destruct (assignmentsOf k assignments).
Qed.

Lemma optimizeSecureMatches_run (matchesBySoldier : JSMap.t (list MatchCandidate))
      (students : list LocalStudent.t) :
  let st0 := greedyPass matchesBySoldier students in
  exists st' events,
    finalPass st0 students = Some st'
    /\ optimizeSecureMatches matchesBySoldier students = Some (result st')
    /\ passRun st0 (unusedStudentsOf (result st0) students) events st'
    /\ finalInv st0 st'
    /\ Forall (swapOfPass st0) events.
Proof.
  intros st0. destruct (greedyPass_light matchesBySoldier students) as [Hsol _].
  destruct (finalPass_run st0 students Hsol) as (st' & events & Hfin & Hrun & Hinv & Hev).
  exists st', events. unfold optimizeSecureMatches. fold st0. by rewrite Hfin.
Qed.

(** C1: for a candidate map (keys not repeated, each entry holding the
    candidates of its soldier), the allocator returns a list, and in it every
    soldier of the map has the ranks 1 and 2 when its candidates name two
    distinct students or more, the rank 1 alone when they name one student,
    and no assignment when it has no candidate. The same holds for the
    capacity-enforcing variant. *)
Theorem optimizeSecureMatches_serves_each_soldier
        (matchesBySoldier : JSMap.t (list MatchCandidate))
        (students : list LocalStudent.t) :
  wellFormed matchesBySoldier ->
  (exists assignments,
      optimizeSecureMatches matchesBySoldier students = Some assignments
      /\ eachSoldierServed matchesBySoldier assignments)
  /\ eachSoldierServed matchesBySoldier
                     (optimizeSecureMatches_capacity matchesBySoldier students).
Proof.
  intros Hwf. split.
  - destruct (optimizeSecureMatches_run matchesBySoldier students)
      as (st' & events & _ & Hopt & _ & Hinv & _).
    exists (result st'). split; [done|]. apply ranks_serve.
    intros k candidates Hin.
    rewrite ranks_from_slots, (finalInv_slots _ _ Hinv), <- ranks_from_slots.
    apply (gi_ranks _ _ _ (greedyPass_inv matchesBySoldier students Hwf)).
    by apply elem_of_soldiersWithOptions.
  - destruct (optimizeSecureMatches_capacity_inv matchesBySoldier students Hwf)
      as (st & -> & Hinv).
    apply ranks_serve. intros k candidates Hin.
    apply (gi_ranks _ _ _ Hinv). by apply elem_of_soldiersWithOptions.
Qed.

(** C5: for a candidate map, the assignment list has no two entries with the
    same (student, soldier) pair, before the final pass and after it; in
    particular two entries of the returned list for one soldier never name
    the same student. *)
Theorem optimizeSecureMatches_no_repeated_pair
        (matchesBySoldier : JSMap.t (list MatchCandidate))
        (students : list LocalStudent.t) :
  wellFormed matchesBySoldier ->
  NoDup (map pairOf (result (greedyPass matchesBySoldier students)))
  /\ exists assignments,
      optimizeSecureMatches matchesBySoldier students = Some assignments
      /\ NoDup (map pairOf assignments)
      /\ forall i j m1 m2,
          assignments !! i = Some m1 -> assignments !! j = Some m2 ->
          soldier_external_id m1 = soldier_external_id m2 ->
          student_external_id m1 = student_external_id m2 ->
          i = j.
Proof.
  intros Hwf. pose proof (greedyPass_inv matchesBySoldier students Hwf) as Hgreedy.
  split; [apply (gi_pairs _ _ _ Hgreedy)|].
  destruct (optimizeSecureMatches_run matchesBySoldier students)
    as (st' & events & _ & Hopt & _ & Hinv & _).
  exists (result st'). split; [done|].
  pose proof (finalInv_pairs _ _ (gi_pairs _ _ _ Hgreedy) (gi_slots _ _ _ Hgreedy) Hinv)
    as Hnd.
  split; [done|].
  intros i j m1 m2 Hi Hj Hsol Hstu.
  apply (proj1 (NoDup_alt _) Hnd i j (pairOf m1)).
  - by rewrite list_lookup_fmap, Hi.
  - rewrite list_lookup_fmap, Hj. simpl. unfold pairOf. by rewrite Hsol, Hstu.
Qed.

Lemma passRun_events (st0 : AllocState) (unusedStudents : list LocalStudent.t)
      (events : list SwapEvent) (st' : AllocState) :
  passRun st0 unusedStudents events st' ->
  (length events <= length unusedStudents)%nat
  /\ Forall (fun e => swapsSlot (before e) (swappedIn e) (after e)
                                (slot e) (evicted e) (placed e)
                      /\ swappedIn e ∈ unusedStudents) events.
Proof.
  induction 1 as [st|st u rest events st' Hskip Hrun [IHlen IH]
                 |st u st1 i old new rest events st' Hswap Hslot Hrun [IHlen IH]].
  - split; [done | constructor].
  - split; [simpl; lia|]. eapply Forall_impl; [exact IH|].
    intros e [He Hin]. split; [done | by right].
  - split; [simpl; lia|]. constructor.
    + split; [done | by left].
    + eapply Forall_impl; [exact IH|]. intros e [He Hin]. split; [done | by right].
Qed.

(** C6: the final pass is one run over the students that were unused when it
    started, with at most one swap per such student. It keeps the length of
    the list; a rank-1 assignment stays in its place unchanged, and none
    appears. Every swap replaces a rank-2 slot by a rank-2 match of the same
    soldier, and only when the counter of the slot's holder exceeds 1 and no
    other rank-2 holder has a larger counter. *)
Theorem finalPass_touches_rank2_only
        (matchesBySoldier : JSMap.t (list MatchCandidate))
        (students : list LocalStudent.t) :
  let st0 := greedyPass matchesBySoldier students in
  exists st' events,
    optimizeSecureMatches matchesBySoldier students = Some (result st')
    /\ finalPass st0 students = Some st'
    /\ passRun st0 (unusedStudentsOf (result st0) students) events st'
    /\ (length events <= length (unusedStudentsOf (result st0) students))%nat
    /\ length (result st') = length (result st0)
    /\ (forall i m, result st0 !! i = Some m -> match_rank m = 1 ->
                    result st' !! i = Some m)
    /\ (forall i m, result st' !! i = Some m -> match_rank m = 1 ->
                    result st0 !! i = Some m)
    /\ Forall (fun e =>
                 swapsSlot (before e) (swappedIn e) (after e)
                           (slot e) (evicted e) (placed e)
                 /\ match_rank (evicted e) = 2
                 /\ match_rank (placed e) = 2
                 /\ soldier_external_id (placed e) = soldier_external_id (evicted e)
                 /\ 1 < count_of (studentAssignments (before e))
                                 (student_external_id (evicted e))
                 /\ forall j m, result (before e) !! j = Some m -> match_rank m = 2 ->
                      count_of (studentAssignments (before e)) (student_external_id m)
                      <= count_of (studentAssignments (before e))
                                  (student_external_id (evicted e)))
              events.
Proof.
  intros st0.
  destruct (optimizeSecureMatches_run matchesBySoldier students)
    as (st' & events & Hfin & Hopt & Hrun & Hinv & Hev).
  fold st0 in Hfin, Hrun, Hinv, Hev.
  exists st', events. split; [done|]. split; [done|]. split; [done|].
  destruct (passRun_events _ _ _ _ Hrun) as [Hlen _].
  split; [done|].
  split; [symmetry; apply (Forall2_length _ _ _ (proj1 Hinv))|].
  destruct (finalInv_rank1 _ _ Hinv) as [Hkeep Hnone].
  split; [done|]. split; [done|].
  eapply Forall_impl; [exact Hev|].
  intros e (Hslot & _). split; [done|].
  destruct Hslot as (_ & Hr & Hover & Hmax & _ & _ & Hsol & Hrank & _).
  by repeat split.
Qed.



(** ** The generator's output is a candidate map *)

Lemma fold_set_entries {V} (f : LocalSoldier.t -> V) (P : string -> V -> Prop)
      (soldiers : list LocalSoldier.t) :
  (forall s, s ∈ soldiers -> P (LocalSoldier.contact_id s) (f s)) ->
  forall m0 : JSMap.t V,
    NoDup (JSMap.keys m0) ->
    (forall k v, (k, v) ∈ m0 -> P k v) ->
    let m := fold_left (fun m x => JSMap.set (LocalSoldier.contact_id x) (f x) m)
                       soldiers m0 in
    NoDup (JSMap.keys m) /\ forall k v, (k, v) ∈ m -> P k v.
Proof.
  induction soldiers as [|s l IH]; intros Hf m0 Hnd HP; [done|].
  simpl. apply IH.
  - intros s' Hs'. apply Hf. by right.
  - by apply JSMap_set_NoDup.
  - intros k v [[-> ->]|Hin]%JSMap_elem_of_set; [|by apply HP].
    apply Hf. by left.
Qed.

Lemma findAllSecureMatches_wellFormed (students : list LocalStudent.t)
      (soldiers : list LocalSoldier.t) :
  wellFormed (findAllSecureMatches students soldiers).
Proof.
  unfold wellFormed, findAllSecureMatches.
  destruct (fold_set_entries
              (fun x => sort_by byScoreDesc (scoreAll students x))
              (fun k v => forall c, c ∈ v -> LocalSoldier.contact_id (soldier c) = k)
              soldiers) with (m0 := @JSMap.empty (list MatchCandidate)) as [Hnd Hk].
  - intros s _ c Hc. apply elem_of_sort_by in Hc.
    pose proof (scoreAll_Forall students s) as Hall. rewrite Forall_forall in Hall.
    by destruct (Hall c Hc) as (_ & _ & ->).
  - constructor.
  - intros k v Hin. by apply elem_of_nil in Hin.
  - split; [done|]. intros k v c Hin Hc. by eapply Hk.
Qed.

Lemma findAllSecureMatches_capacity_wellFormed (students : list LocalStudent.t)
      (soldiers : list LocalSoldier.t) :
  wellFormed (findAllSecureMatches_capacity students soldiers).
Proof.
  unfold wellFormed, findAllSecureMatches_capacity.
  destruct (fold_set_entries
              (fun x => take 10 (sort_by byScoreThenLoad (scoreAll students x)))
              (fun k v => forall c, c ∈ v -> LocalSoldier.contact_id (soldier c) = k)
              soldiers) with (m0 := @JSMap.empty (list MatchCandidate)) as [Hnd Hk].
  - intros s _ c Hc.
    apply elem_of_take in Hc as (i & Hc%list_elem_of_lookup_2 & _).
    apply elem_of_sort_by in Hc.
    pose proof (scoreAll_Forall students s) as Hall. rewrite Forall_forall in Hall.
    by destruct (Hall c Hc) as (_ & _ & ->).
  - constructor.
  - intros k v Hin. by apply elem_of_nil in Hin.
  - split; [done|]. intros k v c Hin Hc. by eapply Hk.
Qed.

(** ** The summary *)

Lemma tally_counts_pos (optimizedMatches : list EnrichedMatch)
      (acc : gmap string Z * gset string) :
  map_Forall (fun _ c => 1 <= c) (fst acc) ->
  map_Forall (fun _ c => 1 <= c)
             (fst (fold_left
                     (fun acc m =>
                        (<[soldier_external_id m :=
                             count_of (fst acc) (soldier_external_id m) + 1]> (fst acc),
                         snd acc ∪ {[student_external_id m]}))
                     optimizedMatches acc)).
Proof.
  revert acc. induction optimizedMatches as [|m l IH]; intros acc Hacc; [done|].
  simpl. apply IH. simpl. apply map_Forall_insert_2; [|done].
  unfold count_of. destruct (fst acc !! soldier_external_id m) as [c|] eqn:Hc; simpl; [|lia].
  specialize (Hacc _ _ Hc). simpl in Hacc. lia.
Qed.

Lemma countWhere_two_or_one (values : list Z) :
  Forall (fun c => 1 <= c) values ->
  countWhere (fun c => 2 <=? c) values + countWhere (fun c => c =? 1) values
  = len values.
Proof.
  unfold countWhere, len. induction 1 as [|c l Hc Hl IH]; simpl; [done|].
  destruct (Z.leb_spec 2 c), (Z.eqb_spec c 1); simpl; lia.
Qed.

Lemma summarize_consistent (students : list LocalStudent.t)
      (soldiers : list LocalSoldier.t) (optimizedMatches : list EnrichedMatch) :
  let summary := summarize students soldiers optimizedMatches in
  soldiersWithTwoMatches summary + soldiersWithOneMatch summary
  + soldiersWithNoMatch summary = totalSoldiers summary
  /\ studentsUsed summary + studentsNotUsed summary = totalStudents summary.
Proof.
  unfold summarize.
  pose proof (tally_counts_pos optimizedMatches (∅, ∅) (map_Forall_empty _)) as Hpos.
  fold (tally optimizedMatches) in Hpos.
  destruct (tally optimizedMatches) as [matchesBySoldierId usedStudentIds].
  simpl in *. split; [|lia].
  rewrite countWhere_two_or_one.
  - unfold valuesOf, len. rewrite length_map, length_map_to_list. lia.
  - unfold valuesOf. apply Forall_fmap.
    apply map_Forall_to_list in Hpos. eapply Forall_impl; [exact Hpos|].
    by intros [k c].
Qed.

(** The run never fails: it returns the allocator's list, sorted by
    confidence, with its summary. *)
Lemma runSecureMatchingAlgorithm_returns
      (students : list LocalStudent.t) (soldiers : list LocalSoldier.t) :
  exists assignments : list EnrichedMatch,
    optimizeSecureMatches (findAllSecureMatches students soldiers) students
    = Some assignments
    /\ runSecureMatchingAlgorithm students soldiers
       = Some (sort_by byConfidenceDesc assignments,
               summarize students soldiers (sort_by byConfidenceDesc assignments)).
Proof.
  unfold runSecureMatchingAlgorithm.
  destruct (optimizeSecureMatches_run (findAllSecureMatches students soldiers) students)
    as (st' & events & _ & -> & _).
  by exists (result st').
Qed.

(** C8: the run returns, and in its summary the soldiers with two matches,
    with one and with none add up to the soldiers, and the students used and
    not used add up to the students. *)
Theorem runSecureMatchingAlgorithm_summary_consistent
        (students : list LocalStudent.t) (soldiers : list LocalSoldier.t) :
  exists (matches : list EnrichedMatch) (summary : MatchingSummary),
    runSecureMatchingAlgorithm students soldiers = Some (matches, summary)
    /\ soldiersWithTwoMatches summary + soldiersWithOneMatch summary
       + soldiersWithNoMatch summary = totalSoldiers summary
    /\ studentsUsed summary + studentsNotUsed summary = totalStudents summary
    /\ totalSoldiers summary = len soldiers
    /\ totalStudents summary = len students.
Proof.
  destruct (runSecureMatchingAlgorithm_returns students soldiers)
    as (assignments & _ & Hrun).
  eexists _, _. split; [exact Hrun|].
  destruct (summarize_consistent students soldiers
              (sort_by byConfidenceDesc assignments)) as [Hsol Hstu].
  split; [exact Hsol|]. split; [exact Hstu|].
  unfold summarize. by destruct (tally _).
Qed.

(** ** Runs with nothing to match *)

Lemma greedy_fold_empty (entries : list (string * list MatchCandidate))
      (st : AllocState) :
  Forall (fun entry => snd entry = []) entries ->
  fold_left (fun st entry => assignSoldier st (snd entry)) entries st = st.
Proof.
  intros Hall. revert st. induction Hall as [|[k v] l Hv Hl IH]; intros st; [done|].
  simpl in *. subst v. apply IH.
Qed.

Lemma forEachUnused_no_slot (unusedStudents : list LocalStudent.t) (st : AllocState) :
  result st = [] -> forEachUnused unusedStudents st = Some st.
Proof.
  intros Hres. induction unusedStudents as [|u l IH]; [done|].
  simpl. unfold swapIn. rewrite Hres. simpl. exact IH.
Qed.

Lemma optimizeSecureMatches_nothing (matchesBySoldier : JSMap.t (list MatchCandidate))
      (students : list LocalStudent.t) :
  Forall (fun entry => snd entry = []) matchesBySoldier ->
  optimizeSecureMatches matchesBySoldier students = Some [].
Proof.
  intros Hall. unfold optimizeSecureMatches, greedyPass.
  rewrite greedy_fold_empty.
  - unfold finalPass. simpl. destruct (0 <? _); [|done].
    by rewrite forEachUnused_no_slot.
  - apply Forall_forall. intros entry Hin.
    apply (proj1 (elem_of_soldiersWithOptions _ _)) in Hin.
    rewrite Forall_forall in Hall. by apply Hall.
Qed.

Lemma findAllSecureMatches_no_students (soldiers : list LocalSoldier.t) :
  Forall (fun entry => snd entry = []) (findAllSecureMatches [] soldiers).
Proof.
  unfold findAllSecureMatches.
  destruct (fold_set_entries
              (fun x => sort_by byScoreDesc (scoreAll [] x))
              (fun _ v => v = [])
              soldiers) with (m0 := @JSMap.empty (list MatchCandidate)) as [_ Hall].
  - done.
  - constructor.
  - intros k v Hin. by apply elem_of_nil in Hin.
  - apply Forall_forall. intros [k v] Hin. by apply (Hall k v).
Qed.

Lemma summarize_nothing (students : list LocalStudent.t) (soldiers : list LocalSoldier.t) :
  summarize students soldiers [] = emptySummary (len students) (len soldiers).
Proof.
  unfold summarize, emptySummary, valuesOf.
  change (tally []) with ((∅, ∅) : gmap string Z * gset string).
  lazy beta iota.
  rewrite map_to_list_empty, map_size_empty, size_empty.
  unfold countWhere. simpl List.filter. simpl map.
  change (len []) with 0. change (0 <? 0) with false.
  change (Z.of_nat 0) with 0. rewrite !Z.sub_0_r. reflexivity.
Qed.

(** C7, as the code has it: with no student or no soldier the run returns the
    empty assignment list and a summary whose match-derived counts are all 0,
    whose totals are the sizes of the inputs, and which counts every soldier
    as without match and every student as not used. *)
Theorem runSecureMatchingAlgorithm_empty_input
        (students : list LocalStudent.t) (soldiers : list LocalSoldier.t) :
  students = [] \/ soldiers = [] ->
  runSecureMatchingAlgorithm students soldiers
  = Some ([], emptySummary (len students) (len soldiers)).
Proof.
  intros Hempty. unfold runSecureMatchingAlgorithm.
  rewrite optimizeSecureMatches_nothing.
  - simpl. by rewrite summarize_nothing.
  - destruct Hempty as [->| ->]; [apply findAllSecureMatches_no_students|].
    constructor.
Qed.

(** ** Further properties of the scoring function *)

Lemma includes_In (codes : list string) (c : string) :
  includes codes c = true <-> In c codes.
Proof.
  unfold includes. rewrite existsb_exists. split.
  - intros (x & Hx & Heq). apply String.eqb_eq in Heq. by subst.
  - intros Hin. exists c. split; [done | apply String.eqb_refl].
Qed.

Lemma opt_string_eqb_sym (a b : option string) :
  opt_string_eqb a b = opt_string_eqb b a.
Proof. destruct a, b; simpl; try done. apply String.eqb_sym. Qed.

Lemma opt_string_eqb_eq (a b : option string) :
  opt_string_eqb a b = true <-> a = b.
Proof.
  destruct a, b; simpl; try (split; congruence).
  rewrite String.eqb_eq. split; congruence.
Qed.

Lemma languageFamilies_disjoint (f1 f2 : string * list string) (c : string) :
  In f1 languageFamilies -> In f2 languageFamilies ->
  In c (snd f1) -> In c (snd f2) -> f1 = f2.
Proof.
  unfold languageFamilies. simpl.
  intros H1 H2 Hc1 Hc2.
  repeat (destruct H1 as [<-|H1]; [|]); try contradiction; simpl in Hc1;
    repeat (destruct Hc1 as [<-|Hc1]; [|]); try contradiction;
    repeat (destruct H2 as [<-|H2]; [|]); try contradiction; simpl in Hc2;
    repeat (destruct Hc2 as [Hc2|Hc2]; [|]); try contradiction;
    try reflexivity; discriminate.
Qed.

(** When two codes match: both are present and not empty, and they are equal
    or belong to one family. *)
Lemma checkLanguageMatch_true (a b : option string) :
  checkLanguageMatch a b = true
  <-> truthy a = true /\ truthy b = true
      /\ (a = b \/ exists family, In family languageFamilies
                      /\ In (or_empty a) (snd family) /\ In (or_empty b) (snd family)).
Proof.
  unfold checkLanguageMatch.
  destruct (truthy a), (truthy b); cbn [negb orb];
    try (split; [done | by intros (? & ? & _)]).
  destruct (opt_string_eqb a b) eqn:Heq.
  - apply opt_string_eqb_eq in Heq. split; [|done]. intros _. repeat split. by left.
  - rewrite existsb_exists. split.
    + intros (family & Hin & [Ha Hb]%andb_true_iff).
      repeat split. right. exists family. by rewrite <- !includes_In.
    + intros (_ & _ & [Hab|(family & Hin & Ha & Hb)]).
      * apply opt_string_eqb_eq in Hab. congruence.
      * exists family. split; [done|]. apply andb_true_iff. by rewrite !includes_In.
Qed.

(** X1: the language match is a partial equivalence on codes: symmetric,
    transitive, and a code matches itself exactly when it is present and not
    empty; a missing or empty code matches nothing. *)
Theorem checkLanguageMatch_partial_equivalence :
  (forall a b, checkLanguageMatch a b = checkLanguageMatch b a)
  /\ (forall a b c, checkLanguageMatch a b = true -> checkLanguageMatch b c = true ->
                    checkLanguageMatch a c = true)
  /\ (forall a, checkLanguageMatch a a = truthy a)
  /\ (forall a b, truthy a = false -> checkLanguageMatch a b = false).
Proof.
  split; [|split; [|split]].
  - intros a b. unfold checkLanguageMatch.
    rewrite (orb_comm (negb (truthy a))), (opt_string_eqb_sym a b).
    destruct (_ || _); [done|]. destruct (opt_string_eqb b a); [done|].
    apply eq_true_iff_eq. rewrite !existsb_exists.
    split; intros (family & Hin & H); exists family; (split; [done|]);
      by rewrite andb_comm.
  - intros a b c [Ha [Hb Hab]]%checkLanguageMatch_true
                 [_ [Hc Hbc]]%checkLanguageMatch_true.
    apply checkLanguageMatch_true. split; [done|]. split; [done|].
    destruct Hab as [->|(f1 & Hf1 & Ha1 & Hb1)]; [done|].
    destruct Hbc as [<-|(f2 & Hf2 & Hb2 & Hc2)].
    + right. by exists f1.
    + right. exists f1. split; [done|]. split; [done|].
      by rewrite (languageFamilies_disjoint f1 f2 (or_empty b) Hf1 Hf2 Hb1 Hb2).
  - intros a. unfold checkLanguageMatch. destruct (truthy a); simpl; [|done].
    by rewrite (proj2 (opt_string_eqb_eq a a) eq_refl).
  - intros a b Ha. unfold checkLanguageMatch. by rewrite Ha.
Qed.

(** The distance score is one of eight integers. *)
Lemma getDistanceScore_values (city1 city2 : string) :
  exists n : Z, getDistanceScore city1 city2 = inject_Z n
                /\ In n [0; 20; 40; 50; 60; 80; 90; 100].
Proof.
  unfold getDistanceScore.
  destruct (getCityDistance city1 city2) as [distance|];
    [|exists 50; split; [done | simpl; tauto]].
  repeat match goal with
         | |- context [if ?b then _ else _] => destruct b
         end;
    match goal with
    | |- exists n, ?q = _ /\ _ => exists (Qnum q); split; [done | simpl; tauto]
    end.
Qed.

Lemma Math_round_inject_Z (n : Z) : Math_round (inject_Z n) = n.
Proof.
  unfold Math_round.
  assert (inject_Z n + (1 # 2) == (2 * n + 1) # 2)%Q as ->.
  { unfold Qeq, Qplus, inject_Z. simpl. lia. }
  change (Qfloor ((2 * n + 1) # 2)) with ((2 * n + 1) / 2).
  symmetry. apply (Z.div_unique _ _ _ 1); lia.
Qed.

(** *** The order of the distances *)

Ltac sf_cases :=
  repeat match goal with
         | |- context [(?a ?= ?b)%Z] => destruct (Z.compare_spec a b)
         | H : context [(?a ?= ?b)%Z] |- _ => destruct (Z.compare_spec a b)
         | |- context [(?a ?= ?b)%positive] => destruct (Pos.compare_spec a b)
         | H : context [(?a ?= ?b)%positive] |- _ => destruct (Pos.compare_spec a b)
         end;
  subst; simpl in *; try discriminate; try reflexivity; try lia.

Ltac sf_destruct a b c :=
  destruct a as [[]|[]| |[] ? ?], b as [[]|[]| |[] ? ?], c as [[]|[]| |[] ? ?];
  try discriminate; try reflexivity.

Lemma SFleb_trans (a b c : spec_float) :
  SFleb a b = true -> SFleb b c = true -> SFleb a c = true.
Proof.
  unfold SFleb, SFcompare.
  change (PosDef.Pos.compare_cont Eq) with Pos.compare.
  sf_destruct a b c; intros H1 H2; sf_cases.
Qed.

Lemma SFltb_leb_trans (a b c : spec_float) :
  SFltb a b = true -> SFleb b c = true -> SFltb a c = true.
Proof.
  unfold SFleb, SFltb, SFcompare.
  change (PosDef.Pos.compare_cont Eq) with Pos.compare.
  sf_destruct a b c; intros H1 H2; sf_cases.
Qed.

Lemma SFltb_not_leb (a b : spec_float) : SFltb a b = true -> SFleb b a = false.
Proof.
  unfold SFleb, SFltb, SFcompare.
  change (PosDef.Pos.compare_cont Eq) with Pos.compare.
  destruct a as [[]|[]| |[] ? ?], b as [[]|[]| |[] ? ?];
    try discriminate; try reflexivity; intros H1; sf_cases.
Qed.

Lemma float_leb_trans (a b c : float) :
  (a <=? b)%float = true -> (b <=? c)%float = true -> (a <=? c)%float = true.
Proof. rewrite !leb_spec. apply SFleb_trans. Qed.

Lemma float_ltb_leb_trans (a b c : float) :
  (a <? b)%float = true -> (b <=? c)%float = true -> (a <? c)%float = true.
Proof. rewrite !ltb_spec, leb_spec. apply SFltb_leb_trans. Qed.

Lemma float_ltb_not_leb (a b : float) :
  (a <? b)%float = true -> (b <=? a)%float = false.
Proof. rewrite ltb_spec, leb_spec. apply SFltb_not_leb. Qed.

(** The distance score as a function of the distance. *)
Lemma getDistanceScore_known (city1 city2 : string) (distance : float) :
  getCityDistance city1 city2 = Some distance ->
  getDistanceScore city1 city2
  = (if (150 <? distance)%float then 0
     else if (distance <=? 10)%float then 100
     else if (distance <=? 30)%float then 90
     else if (distance <=? 50)%float then 80
     else if (distance <=? 75)%float then 60
     else if (distance <=? 100)%float then 40
     else if (distance <=? 150)%float then 20
     else 0)%Q.
Proof. intros H. unfold getDistanceScore. by rewrite H. Qed.

Ltac float_bounds :=
  repeat match goal with
         | H1 : (?a <=? ?b)%float = true, H2 : (?b <=? ?c)%float = true,
           H3 : (?a <=? ?c)%float = false |- _ =>
             rewrite (float_leb_trans a b c H1 H2) in H3; discriminate
         | H1 : (?a <? ?b)%float = true, H2 : (?b <=? ?c)%float = true,
           H3 : (?a <? ?c)%float = false |- _ =>
             rewrite (float_ltb_leb_trans a b c H1 H2) in H3; discriminate
         end.

Lemma getDistanceScore_antitone (city1 city2 city1' city2' : string)
      (distance distance' : float) :
  getCityDistance city1 city2 = Some distance ->
  getCityDistance city1' city2' = Some distance' ->
  (distance <=? distance')%float = true ->
  (getDistanceScore city1' city2' <= getDistanceScore city1 city2)%Q.
Proof.
  intros H1 H2 Hle.
  rewrite (getDistanceScore_known _ _ _ H1), (getDistanceScore_known _ _ _ H2).
  destruct (150 <? distance')%float eqn:Hfar'.
  { repeat match goal with
           | |- context [if ?b then _ else _] => destruct b
           end; discriminate. }
  destruct (150 <? distance)%float eqn:Hfar; [float_bounds|].
  assert (Hstep : forall bound : float,
             (distance' <=? bound)%float = true -> (distance <=? bound)%float = true).
  { intros bound. by apply float_leb_trans. }
  destruct (distance' <=? 10)%float eqn:H10'.
  { rewrite (Hstep _ H10'). discriminate. }
  destruct (distance' <=? 30)%float eqn:H30'.
  { rewrite (Hstep _ H30'). destruct (distance <=? 10)%float; discriminate. }
  destruct (distance' <=? 50)%float eqn:H50'.
  { rewrite (Hstep _ H50').
    destruct (distance <=? 10)%float; [discriminate|].
    destruct (distance <=? 30)%float; discriminate. }
  destruct (distance' <=? 75)%float eqn:H75'.
  { rewrite (Hstep _ H75').
    destruct (distance <=? 10)%float; [discriminate|].
    destruct (distance <=? 30)%float; [discriminate|].
    destruct (distance <=? 50)%float; discriminate. }
  destruct (distance' <=? 100)%float eqn:H100'.
  { rewrite (Hstep _ H100').
    destruct (distance <=? 10)%float; [discriminate|].
    destruct (distance <=? 30)%float; [discriminate|].
    destruct (distance <=? 50)%float; [discriminate|].
    destruct (distance <=? 75)%float; discriminate. }
  destruct (distance' <=? 150)%float eqn:H150'.
  { rewrite (Hstep _ H150').
    destruct (distance <=? 10)%float; [discriminate|].
    destruct (distance <=? 30)%float; [discriminate|].
    destruct (distance <=? 50)%float; [discriminate|].
    destruct (distance <=? 75)%float; [discriminate|].
    destruct (distance <=? 100)%float; discriminate. }
  repeat match goal with
         | |- context [if ?b then _ else _] => destruct b
         end; discriminate.
Qed.

Lemma tableScore_mono (g l : bool) (d d' : Q) :
  (d <= d')%Q -> (tableScore g l d <= tableScore g l d')%Q.
Proof.
  intros H. rewrite !tableScore_spec.
  destruct g, l; simpl; [done|..];
    apply Qplus_le_r, Qopp_le_compat, Qplus_le_r, Qopp_le_compat, H.
Qed.

(** The score as integer arithmetic: the distance score less the penalty of
    the table's row, and at least 1. *)
Lemma score_integer (stu : LocalStudent.t) (sol : LocalSoldier.t) (c : MatchCandidate) :
  calculateSecureMatch stu sol = Some c ->
  exists n : Z,
    distance_score (criteria c) = inject_Z n
    /\ In n [0; 20; 40; 50; 60; 80; 90; 100]
    /\ score c = Z.max 1 (n - tablePenalty (gender_pref_match (criteria c))
                                         (language_match (criteria c))).
Proof.
  intros [= <-]. cbn [criteria score distance_score gender_pref_match language_match].
  destruct (getDistanceScore_values (or_empty (LocalStudent.city stu))
                                    (or_empty (LocalSoldier.city sol)))
    as (n & -> & Hn).
  exists n. split; [done|]. split; [done|]. f_equal.
  rewrite <- (Math_round_inject_Z (n - tablePenalty _ _)).
  unfold Math_round. apply Qfloor_comp, Qplus_comp; [|done].
  rewrite tableScore_spec.
  destruct (checkGenderMatch _ _), (checkLanguageMatch _ _); simpl;
    unfold Qeq, Qminus, Qplus, Qopp, inject_Z; simpl; lia.
Qed.

(** X2: the score is exact integer arithmetic. The distance score is one of
    0, 20, 40, 50, 60, 80, 90, 100, and the score is that number less the
    row's penalty (0 with both matches, 30 without the gender match, 40
    without the language match, 70 without both), raised to 1 when lower:
    rounding never changes it, and a score is 1 or a multiple of 10. *)
Theorem calculateSecureMatch_integer_table
        (stu : LocalStudent.t) (sol : LocalSoldier.t) (c : MatchCandidate) :
  calculateSecureMatch stu sol = Some c ->
  exists n : Z,
    distance_score (criteria c) = inject_Z n
    /\ In n [0; 20; 40; 50; 60; 80; 90; 100]
    /\ score c = Z.max 1 (n - tablePenalty (gender_pref_match (criteria c))
                                         (language_match (criteria c)))
    /\ (score c = 1 \/ score c mod 10 = 0).
Proof.
  intros Hc. destruct (score_integer stu sol c Hc) as (n & Hd & Hn & Hs).
  exists n. split; [exact Hd|]. split; [exact Hn|]. split; [exact Hs|].
  rewrite Hs. simpl in Hn.
  destruct (gender_pref_match (criteria c)), (language_match (criteria c));
    repeat destruct Hn as [<-|Hn]; try contradiction; vm_compute; tauto.
Qed.

(** X3: of two pairs with the same language and gender verdicts and known
    distances, the nearer one never scores lower. *)
Theorem calculateSecureMatch_nearer_scores_higher
        (stu stu' : LocalStudent.t) (sol sol' : LocalSoldier.t)
        (c c' : MatchCandidate) (distance distance' : float) :
  calculateSecureMatch stu sol = Some c ->
  calculateSecureMatch stu' sol' = Some c' ->
  getCityDistance (or_empty (LocalStudent.city stu)) (or_empty (LocalSoldier.city sol))
  = Some distance ->
  getCityDistance (or_empty (LocalStudent.city stu')) (or_empty (LocalSoldier.city sol'))
  = Some distance' ->
  (distance <=? distance')%float = true ->
  gender_pref_match (criteria c) = gender_pref_match (criteria c') ->
  language_match (criteria c) = language_match (criteria c') ->
  score c' <= score c.
Proof.
  intros [= <-] [= <-] Hd Hd' Hle.
  cbn [criteria score gender_pref_match language_match].
  intros -> ->.
  apply Z.max_le_compat_l, Math_round_mono, tableScore_mono.
  by apply (getDistanceScore_antitone _ _ _ _ distance distance').
Qed.

(** X4: with the default limit of 150 km, a pair is acceptable exactly when
    its distance score is not 0; an unknown distance is acceptable and scores
    50. *)
Theorem isDistanceAcceptable_iff_positive_score (city1 city2 : string) :
  isDistanceAcceptable city1 city2 defaultMaxDistance = true
  <-> (0 < getDistanceScore city1 city2)%Q.
Proof.
  unfold isDistanceAcceptable, defaultMaxDistance.
  destruct (getCityDistance city1 city2) as [distance|] eqn:Hd;
    [|unfold getDistanceScore; by rewrite Hd].
  rewrite (getDistanceScore_known _ _ _ Hd).
  destruct (150 <? distance)%float eqn:Hfar.
  { rewrite (float_ltb_not_leb _ _ Hfar). split; discriminate. }
  assert (Hstep : forall bound : float,
             (bound <=? 150)%float = true ->
             (distance <=? bound)%float = true -> (distance <=? 150)%float = true).
  { intros bound Hb H. by apply (float_leb_trans _ bound). }
  destruct (distance <=? 10)%float eqn:H10; [by rewrite (Hstep 10%float)|].
  destruct (distance <=? 30)%float eqn:H30; [by rewrite (Hstep 30%float)|].
  destruct (distance <=? 50)%float eqn:H50; [by rewrite (Hstep 50%float)|].
  destruct (distance <=? 75)%float eqn:H75; [by rewrite (Hstep 75%float)|].
  destruct (distance <=? 100)%float eqn:H100; [by rewrite (Hstep 100%float)|].
  destruct (distance <=? 150)%float; split; done.
Qed.

(** ** The gender verdict and the cloud copy *)

Ltac case_text p s :=
  let E := fresh "E" in
  destruct (opt_string_eqb p (Some s)) eqn:E;
  [apply opt_string_eqb_eq in E; subst p|].

Lemma checkGenderMatch_no_preference (g p : option string) :
  truthy p = false -> checkGenderMatch g p = true.
Proof. intros H. unfold checkGenderMatch. by rewrite H. Qed.

Lemma checkGenderMatch_unknown_gender (p : option string) :
  checkGenderMatch None p = true ->
  forall g, checkGenderMatch g p = true.
Proof.
  unfold checkGenderMatch. intros H g.
  by destruct (negb (truthy p) || opt_string_eqb p (Some "לא חשוב")
               || opt_string_eqb p (Some "any")).
Qed.

(** X5: rewriting a soldier's gender preference into the cloud's codes does
    not change any verdict of the gender check: [toSecureSoldier]'s code never
    does, and [getVolunteerPreferenceCode], which turns every other text into
    [any], never turns a match into a mismatch. *)
Theorem checkGenderMatch_preference_codes :
  (forall (g : option string) (sol : LocalSoldier.t),
      checkGenderMatch g (SecureSoldier.volunteer_gender_preference (toSecureSoldier sol))
      = checkGenderMatch g (LocalSoldier.volunteer_gender_preference sol))
  /\ (forall g p : option string,
         checkGenderMatch g p = true ->
         checkGenderMatch g (getVolunteerPreferenceCode p) = true).
Proof.
  split.
  - intros g sol. unfold toSecureSoldier.
    cbn [SecureSoldier.volunteer_gender_preference].
    generalize (LocalSoldier.volunteer_gender_preference sol). intros p.
    destruct (truthy p) eqn:Ht;
      [|by rewrite (checkGenderMatch_no_preference g p Ht)].
    case_text p "מתנדב"; [reflexivity|].
    case_text p "מתנדבת"; [reflexivity|].
    case_text p "לא חשוב"; reflexivity.
  - intros g p H. unfold getVolunteerPreferenceCode.
    destruct (truthy p) eqn:Ht; [|reflexivity]. cbn [negb].
    case_text p "מתנדב"; [exact H|].
    case_text p "מתנדבת"; [exact H|].
    by destruct (opt_string_eqb p (Some "לא חשוב")).
Qed.

(** X6: the cloud copy of a student keeps the gender as M, F or nothing. A
    match found on the copy is a match on the local record; the verdicts are
    equal when the local gender is one of the two Hebrew words or missing. *)
Theorem checkGenderMatch_student_code :
  (forall (stu : LocalStudent.t) (p : option string),
      checkGenderMatch (SecureStudent.gender (toSecureStudent stu)) p = true ->
      checkGenderMatch (LocalStudent.gender stu) p = true)
  /\ (forall (stu : LocalStudent.t) (p : option string),
         In (LocalStudent.gender stu) [None; Some ""; Some "זכר"; Some "נקבה"] ->
         checkGenderMatch (SecureStudent.gender (toSecureStudent stu)) p
         = checkGenderMatch (LocalStudent.gender stu) p).
Proof.
  split.
  - intros stu p. unfold toSecureStudent. cbn [SecureStudent.gender].
    generalize (LocalStudent.gender stu). intros g.
    case_text g "זכר"; [done|].
    case_text g "נקבה"; [done|].
    intros H. by apply checkGenderMatch_unknown_gender.
  - intros stu p. unfold toSecureStudent. cbn [SecureStudent.gender].
    generalize (LocalStudent.gender stu). intros g Hg.
    simpl in Hg. destruct Hg as [<-|[<-|[<-|[<-|[]]]]]; reflexivity.
Qed.

Ltac case_strings :=
  repeat match goal with
         | |- context [String.eqb ?x ?c] =>
             is_var x; destruct (String.eqb_spec x c) as [->|?];
             cbn [negb orb andb fst snd String.eqb Ascii.eqb Bool.eqb]
         end.

Lemma getGenderPreferenceScore_agree (g p : option string) :
  ~ In g [Some "M"; Some "F"] ->
  ~ In p [Some "male"; Some "female"; Some "any"] ->
  snd (getGenderPreferenceScore g p) = checkGenderMatch g p.
Proof.
  intros Hg Hp.
  assert (g <> Some "M" /\ g <> Some "F") as [HM HF].
  { split; intros ->; apply Hg; simpl; tauto. }
  assert (p <> Some "male" /\ p <> Some "female" /\ p <> Some "any")
    as (Hmale & Hfemale & Hany).
  { repeat split; intros ->; apply Hp; simpl; tauto. }
  clear Hg Hp.
  unfold getGenderPreferenceScore, checkGenderMatch, truthy, opt_string_eqb.
  destruct p as [p|]; [|reflexivity].
  destruct g as [g|]; case_strings; try reflexivity; try congruence.
Qed.

(** X7: the first engine's gender check and the secure one. A match of the
    first engine is a match of the secure one; they agree on every input that
    is not already one of the cloud's codes. *)
Theorem getGenderPreferenceScore_agrees :
  (forall g p : option string,
      snd (getGenderPreferenceScore g p) = true -> checkGenderMatch g p = true)
  /\ (forall g p : option string,
         ~ In g [Some "M"; Some "F"] ->
         ~ In p [Some "male"; Some "female"; Some "any"] ->
         snd (getGenderPreferenceScore g p) = checkGenderMatch g p).
Proof.
  split; [|exact getGenderPreferenceScore_agree].
  intros g p.
  unfold getGenderPreferenceScore, checkGenderMatch, truthy, opt_string_eqb.
  destruct p as [p|]; [|reflexivity].
  destruct g as [g|]; case_strings; try reflexivity; try congruence.
Qed.

(** ** More on the loop over the soldiers *)

(** An invariant of the loop body holds after the loop. *)
Lemma greedyPass_ind (I : AllocState -> Prop)
      (matchesBySoldier : JSMap.t (list MatchCandidate)) (students : list LocalStudent.t) :
  I {| result := []; studentAssignments := initialCounts students; drawn := 0 |} ->
  (forall st k candidates,
      (k, candidates) ∈ matchesBySoldier -> I st -> I (assignSoldier st candidates)) ->
  I (greedyPass matchesBySoldier students).
Proof.
  intros H0 Hstep. unfold greedyPass.
  assert (Hin : forall e, e ∈ soldiersWithOptions matchesBySoldier -> e ∈ matchesBySoldier).
  { intros e. apply elem_of_soldiersWithOptions. }
  revert Hin H0.
  generalize {| result := []; studentAssignments := initialCounts students; drawn := 0 |}.
  induction (soldiersWithOptions matchesBySoldier) as [|[k candidates] rest IH];
    intros st Hin Hst; [done|].
  simpl. apply IH.
  - intros e He. apply Hin. by right.
  - apply (Hstep st k). + apply Hin. by left. + done.
Qed.

(** What the per-soldier loop appends. *)
Lemma assignFromSorted_app (P : EnrichedMatch -> Prop) (candidates : list MatchCandidate) :
  (forall c uuid rank, c ∈ candidates -> P (matchOfCandidate uuid c rank)) ->
  forall assigned counts n assigned' counts' n',
    assignFromSorted candidates assigned counts n = (assigned', counts', n') ->
    exists block,
      assigned' = assigned ++ block
      /\ Forall P block
      /\ map id block = map randomUUID (seq n (n' - n))
      /\ (n <= n')%nat.
Proof.
  induction candidates as [|c rest IH]; intros HP assigned counts n assigned' counts' n'.
  { intros [= <- <- <-]. exists []. rewrite app_nil_r, Nat.sub_diag. by repeat split. }
  cbn [assignFromSorted].
  destruct (2 <=? len assigned).
  { intros [= <- <- <-]. exists []. rewrite app_nil_r, Nat.sub_diag. by repeat split. }
  destruct (alreadyAssigned assigned (LocalStudent.contact_id (student c))).
  { apply IH. intros c' uuid rank Hc'. apply HP. by right. }
  lazy zeta. intros Hrun.
  apply IH in Hrun as (block & -> & Hall & Hids & Hle);
    [|intros c' uuid rank Hc'; apply HP; by right].
  eexists (_ :: block). split; [by rewrite <- app_assoc|].
  split; [constructor; [apply HP; by left | exact Hall]|].
  split; [|lia].
  cbn [map]. rewrite Hids.
  replace (n' - n)%nat with (S (n' - S n)) by lia. done.
Qed.

Lemma assignSoldier_app (P : EnrichedMatch -> Prop) (st : AllocState)
      (candidates : list MatchCandidate) :
  (forall c uuid rank, c ∈ candidates -> P (matchOfCandidate uuid c rank)) ->
  exists block,
    result (assignSoldier st candidates) = result st ++ block
    /\ Forall P block
    /\ map id block
       = map randomUUID (seq (drawn st) (drawn (assignSoldier st candidates) - drawn st))
    /\ (drawn st <= drawn (assignSoldier st candidates))%nat.
Proof.
  intros HP. unfold assignSoldier. destruct (len candidates =? 0).
  { exists []. rewrite app_nil_r, Nat.sub_diag. by repeat split. }
  destruct (assignFromSorted _ [] (studentAssignments st) (drawn st))
    as [[a counts] n] eqn:Hrun.
  apply (assignFromSorted_app P) in Hrun as (block & -> & Hall & Hids & Hle);
    [|intros c uuid rank Hc; apply HP; by apply elem_of_sort_by in Hc].
  by exists block.
Qed.

Lemma matchOfCandidate_eta (uuid : string) (c : MatchCandidate) (rank : Z) :
  matchOfCandidate uuid c rank
  = matchOfCandidate (id (matchOfCandidate uuid c rank)) c
                     (match_rank (matchOfCandidate uuid c rank)).
Proof. reflexivity. Qed.

(** Every assignment of the loop is built from a candidate of the map. *)
Lemma greedyPass_fromCandidate (matchesBySoldier : JSMap.t (list MatchCandidate))
      (students : list LocalStudent.t) :
  Forall (fromCandidateOf matchesBySoldier) (result (greedyPass matchesBySoldier students)).
Proof.
  apply (greedyPass_ind (fun st => Forall (fromCandidateOf matchesBySoldier) (result st)));
    [constructor|].
  intros st k candidates Hin Hst.
  destruct (assignSoldier_app (fromCandidateOf matchesBySoldier) st candidates)
    as (block & -> & Hall & _).
  { intros c uuid rank Hc. exists k, candidates, c.
    split; [done|]. split; [done|]. apply matchOfCandidate_eta. }
  apply Forall_app. by split.
Qed.

(** The loop draws one identifier per assignment, in the order of the list. *)
Lemma greedyPass_ids (matchesBySoldier : JSMap.t (list MatchCandidate))
      (students : list LocalStudent.t) :
  let st := greedyPass matchesBySoldier students in
  map id (result st) = map randomUUID (seq 0 (drawn st)).
Proof.
  apply (greedyPass_ind
           (fun st => map id (result st) = map randomUUID (seq 0 (drawn st)))); [done|].
  intros st k candidates Hin Hst.
  destruct (assignSoldier_app (fun _ => True) st candidates)
    as (block & -> & _ & Hids & Hle); [done|].
  rewrite map_app, Hst, Hids, <- map_app. f_equal.
  replace (drawn (assignSoldier st candidates))
    with (drawn st + (drawn (assignSoldier st candidates) - drawn st))%nat at 2 by lia.
  by rewrite seq_app.
Qed.

(** *** Load balance *)

Lemma byLoadThenScore_total (counts : gmap string Z) (x y : MatchCandidate) :
  0 < byLoadThenScore counts x y -> byLoadThenScore counts y x <= 0.
Proof.
  unfold byLoadThenScore.
  destruct (Z.eqb_spec (count_of counts (LocalStudent.contact_id (student x)))
                       (count_of counts (LocalStudent.contact_id (student y))));
    destruct (Z.eqb_spec (count_of counts (LocalStudent.contact_id (student y)))
                         (count_of counts (LocalStudent.contact_id (student x))));
    simpl; lia.
Qed.

Lemma byLoadThenScore_trans (counts : gmap string Z) (x y z : MatchCandidate) :
  byLoadThenScore counts x y <= 0 -> byLoadThenScore counts y z <= 0 ->
  byLoadThenScore counts x z <= 0.
Proof.
  unfold byLoadThenScore.
  destruct (Z.eqb_spec (count_of counts (LocalStudent.contact_id (student x)))
                       (count_of counts (LocalStudent.contact_id (student y))));
    destruct (Z.eqb_spec (count_of counts (LocalStudent.contact_id (student y)))
                         (count_of counts (LocalStudent.contact_id (student z))));
    destruct (Z.eqb_spec (count_of counts (LocalStudent.contact_id (student x)))
                         (count_of counts (LocalStudent.contact_id (student z))));
    simpl; lia.
Qed.

Lemma byLoadThenScore_load (counts : gmap string Z) (x y : MatchCandidate) :
  byLoadThenScore counts x y <= 0 ->
  count_of counts (studentIdOf x) <= count_of counts (studentIdOf y).
Proof.
  unfold byLoadThenScore, studentIdOf.
  destruct (Z.eqb_spec (count_of counts (LocalStudent.contact_id (student x)))
                       (count_of counts (LocalStudent.contact_id (student y))));
    simpl; lia.
Qed.

(** Once a soldier has its first assignment, the per-soldier loop leaves the
    counters alone. *)
Lemma assignFromSorted_counts_later (candidates : list MatchCandidate) :
  forall assigned counts n,
    assigned <> [] ->
    snd (fst (assignFromSorted candidates assigned counts n)) = counts.
Proof.
  induction candidates as [|c rest IH]; intros assigned counts n Hne; [done|].
  cbn [assignFromSorted].
  destruct (2 <=? len assigned); [done|].
  destruct (alreadyAssigned assigned _); [by apply IH|].
  lazy zeta.
  destruct (Z.eqb_spec (len assigned + 1) 1) as [Hone|_].
  { destruct assigned; [done|]. unfold len in Hone. simpl in Hone. lia. }
  apply IH. by destruct assigned.
Qed.

(** One soldier raises one counter by 1: that of its least-loaded candidate. *)
Lemma assignSoldier_counts (st : AllocState) (candidates : list MatchCandidate) :
  candidates <> [] ->
  exists c0,
    c0 ∈ candidates
    /\ (forall c, c ∈ candidates ->
                  count_of (studentAssignments st) (studentIdOf c0)
                  <= count_of (studentAssignments st) (studentIdOf c))
    /\ studentAssignments (assignSoldier st candidates)
       = <[studentIdOf c0 := count_of (studentAssignments st) (studentIdOf c0) + 1]>
           (studentAssignments st).
Proof.
  intros Hne. unfold assignSoldier.
  destruct (Z.eqb_spec (len candidates) 0) as [Hz|_].
  { destruct candidates; [done|]. unfold len in Hz. simpl in Hz. lia. }
  pose proof (sort_by_sorted (byLoadThenScore (studentAssignments st))
                (byLoadThenScore_total _) (byLoadThenScore_trans _) candidates) as Hsorted.
  pose proof (fun c => elem_of_sort_by (byLoadThenScore (studentAssignments st))
                                       candidates c) as Hmem.
  pose proof (sort_by_length (byLoadThenScore (studentAssignments st)) candidates) as Hlen.
  destruct (sort_by (byLoadThenScore (studentAssignments st)) candidates)
    as [|c0 rest].
  { destruct candidates; [done | simpl in Hlen; lia]. }
  exists c0. split; [apply Hmem; by left|]. split.
  - intros c Hc. apply Hmem in Hc.
    apply StronglySorted_inv in Hsorted as [_ Hall]. rewrite Forall_forall in Hall.
    apply elem_of_cons in Hc as [->|Hc]; [lia|].
    apply byLoadThenScore_load, Hall. exact Hc.
  - cbn [assignFromSorted]. change (len (@nil EnrichedMatch)) with 0.
    cbn [Z.leb Z.compare alreadyAssigned existsb]. lazy zeta.
    change (0 + 1 =? 1) with true. lazy iota.
    match goal with
    | |- context [assignFromSorted rest ?a ?s ?n] =>
        pose proof (assignFromSorted_counts_later rest a s n ltac:(done)) as Hc;
        destruct (assignFromSorted rest a s n) as [[a' s'] n']
    end.
    simpl in Hc. by subst s'.
Qed.

Lemma assignSoldier_balanced (S : gset string) (st : AllocState)
      (candidates : list MatchCandidate) :
  (candidates <> [] -> forall x, x ∈ S <-> x ∈ map studentIdOf candidates) ->
  balanced S (studentAssignments st) ->
  balanced S (studentAssignments (assignSoldier st candidates)).
Proof.
  intros HS Hbal.
  destruct candidates as [|c l] eqn:Hcand; [done|]. rewrite <- Hcand in *.
  assert (candidates <> []) as Hne by (by subst).
  specialize (HS Hne).
  destruct (assignSoldier_counts st candidates Hne) as (c0 & Hc0 & Hmin & ->).
  assert (Hleast : forall y, y ∈ S ->
             count_of (studentAssignments st) (studentIdOf c0)
             <= count_of (studentAssignments st) y).
  { intros y Hy. apply HS, list_elem_of_fmap in Hy as (c' & -> & Hc'). by apply Hmin. }
  assert (studentIdOf c0 ∈ S) as Hin0.
  { apply HS, list_elem_of_fmap. by exists c0. }
  intros x y Hx Hy. rewrite !count_of_insert.
  pose proof (Hbal x y Hx Hy). pose proof (Hleast y Hy).
  pose proof (Hbal x (studentIdOf c0) Hx Hin0).
  repeat case_decide; subst; lia.
Qed.

Lemma greedyPass_balanced (S : gset string)
      (matchesBySoldier : JSMap.t (list MatchCandidate)) (students : list LocalStudent.t) :
  uniformMap S matchesBySoldier ->
  balanced S (studentAssignments (greedyPass matchesBySoldier students)).
Proof.
  intros Huni.
  apply (greedyPass_ind (fun st => balanced S (studentAssignments st))).
  - intros x y _ _. cbn [studentAssignments]. rewrite !count_of_initialCounts. lia.
  - intros st k candidates Hin. apply assignSoldier_balanced. by apply (Huni k).
Qed.

(** *** A final pass that has nothing to swap *)

Lemma swapIn_no_overload (st : AllocState) (u : LocalStudent.t) :
  (forall m, m ∈ result st -> match_rank m = 2 ->
             count_of (studentAssignments st) (student_external_id m) <= 1) ->
  swapIn st u = Some st.
Proof.
  intros Hlow. unfold swapIn.
  destruct (scanSwap (studentAssignments st) 0 (result st) (-1) 0)
    as [idx overload] eqn:Hscan.
  destruct (scanSwap_spec _ _ _ _ _ _ _ Hscan) as (_ & _ & Hcase).
  assert (overload <= 1) as Hle.
  { destruct Hcase as [[_ ->]|(j & m & Hj & _ & Hr & <- & _)]; [lia|].
    apply Hlow; [|done]. by eapply list_elem_of_lookup_2. }
  destruct (Z.ltb_spec 1 overload); [lia|]. by rewrite andb_false_r.
Qed.

Lemma forEachUnused_no_overload (st : AllocState) (unusedStudents : list LocalStudent.t) :
  (forall m, m ∈ result st -> match_rank m = 2 ->
             count_of (studentAssignments st) (student_external_id m) <= 1) ->
  forEachUnused unusedStudents st = Some st.
Proof.
  intros Hlow. induction unusedStudents as [|u rest IH]; [done|].
  simpl. by rewrite swapIn_no_overload.
Qed.

(** When every soldier's candidates list the same students, and the students
    of the run are among them, the loop over the soldiers leaves the rank-1
    loads within 1 of each other and the final pass swaps nothing. *)
Lemma uniformMap_fair (S : gset string)
      (matchesBySoldier : JSMap.t (list MatchCandidate)) (students : list LocalStudent.t) :
  uniformMap S matchesBySoldier ->
  (forall s, s ∈ students -> LocalStudent.contact_id s ∈ S) ->
  let st0 := greedyPass matchesBySoldier students in
  finalPass st0 students = Some st0
  /\ forall x y, x ∈ S -> y ∈ S ->
                 rank1Count x (result st0) <= rank1Count y (result st0) + 1.
Proof.
  intros Huni Hstu st0.
  pose proof (greedyPass_balanced S matchesBySoldier students Huni) as Hbal. fold st0 in Hbal.
  destruct (greedyPass_light matchesBySoldier students) as [_ Hcount]. fold st0 in Hcount.
  split.
  - unfold finalPass.
    destruct (unusedStudentsOf (result st0) students) as [|u rest] eqn:Hunused; [done|].
    destruct (0 <? len (u :: rest)); [|done].
    apply forEachUnused_no_overload. intros m Hm Hrank.
    pose proof (unusedStudentsOf_unused (result st0) students) as Hall.
    rewrite Hunused in Hall. apply Forall_cons in Hall as [Hu _].
    assert (u ∈ students) as Hin.
    { assert (u ∈ unusedStudentsOf (result st0) students) as H
          by (rewrite Hunused; by left).
      unfold unusedStudentsOf in H.
      by apply list_elem_of_In, List.filter_In in H as [H%list_elem_of_In _]. }
    assert (student_external_id m ∈ S) as HmS.
    { pose proof (greedyPass_fromCandidate matchesBySoldier students) as Hfrom.
      fold st0 in Hfrom. rewrite Forall_forall in Hfrom.
      destruct (Hfrom m Hm) as (k & candidates & c & Hk & Hc & ->).
      cbn [student_external_id matchOfCandidate].
      apply (Huni k candidates Hk).
      - intros ->. by apply elem_of_nil in Hc.
      - apply list_elem_of_fmap. by exists c. }
    specialize (Hbal _ _ HmS (Hstu u Hin)).
    rewrite (Hcount (LocalStudent.contact_id u)), (rank1Count_unused _ _ Hu) in Hbal. lia.
  - intros x y Hx Hy. specialize (Hbal x y Hx Hy). rewrite !Hcount in Hbal. lia.
Qed.

(** ** The allocator on the generator's output *)

Lemma findAllSecureMatches_entries (students : list LocalStudent.t)
      (soldiers : list LocalSoldier.t) (k : string) (candidates : list MatchCandidate) :
  (k, candidates) ∈ findAllSecureMatches students soldiers ->
  exists owner, owner ∈ soldiers
    /\ LocalSoldier.contact_id owner = k
    /\ candidates = sort_by byScoreDesc (scoreAll students owner).
Proof.
  unfold findAllSecureMatches.
  destruct (fold_set_entries
              (fun x => sort_by byScoreDesc (scoreAll students x))
              (fun k v => exists owner, owner ∈ soldiers
                            /\ LocalSoldier.contact_id owner = k
                            /\ v = sort_by byScoreDesc (scoreAll students owner))
              soldiers) with (m0 := @JSMap.empty (list MatchCandidate)) as [_ H].
  - intros s Hs. by exists s.
  - constructor.
  - intros k' v Hin. by apply elem_of_nil in Hin.
  - apply H.
Qed.

Lemma findAllSecureMatches_candidate (students : list LocalStudent.t)
      (soldiers : list LocalSoldier.t) (k : string) (candidates : list MatchCandidate)
      (c : MatchCandidate) :
  (k, candidates) ∈ findAllSecureMatches students soldiers -> c ∈ candidates ->
  student c ∈ students /\ soldier c ∈ soldiers
  /\ calculateSecureMatch (student c) (soldier c) = Some c.
Proof.
  intros (owner & Howner & _ & ->)%findAllSecureMatches_entries Hc.
  apply elem_of_sort_by in Hc.
  pose proof (scoreAll_Forall students owner) as Hall. rewrite Forall_forall in Hall.
  destruct (Hall c Hc) as (Hcalc & _ & Hsol). rewrite Hsol.
  split; [|by split].
  rewrite <- (scoreAll_students students owner). apply list_elem_of_fmap. by exists c.
Qed.

Lemma findAllSecureMatches_uniform (students : list LocalStudent.t)
      (soldiers : list LocalSoldier.t) :
  uniformMap (list_to_set (map LocalStudent.contact_id students))
             (findAllSecureMatches students soldiers).
Proof.
  intros k candidates (owner & _ & _ & ->)%findAllSecureMatches_entries _ x.
  rewrite elem_of_list_to_set.
  rewrite <- (scoreAll_students students owner) at 1.
  unfold studentIdOf. rewrite <- (list_fmap_compose student LocalStudent.contact_id).
  change (LocalStudent.contact_id ∘ student) with (fun c => LocalStudent.contact_id (student c)).
  by rewrite (sort_by_perm byScoreDesc (scoreAll students owner)).
Qed.

(** X8: on the generator's output the loads are fair and the final pass is
    idle. Every soldier lists every student, so the least-loaded-first order
    keeps the numbers of rank-1 assignments of any two students within 1 of
    each other; no rank-2 holder is then overloaded, the final pass swaps
    nothing, and the allocator returns the list of the loop over the
    soldiers. *)
Theorem optimizeSecureMatches_pipeline_balanced
        (students : list LocalStudent.t) (soldiers : list LocalSoldier.t) :
  let matchesBySoldier := findAllSecureMatches students soldiers in
  let st0 := greedyPass matchesBySoldier students in
  optimizeSecureMatches matchesBySoldier students = Some (result st0)
  /\ forall s1 s2, s1 ∈ students -> s2 ∈ students ->
       rank1Count (LocalStudent.contact_id s1) (result st0)
       <= rank1Count (LocalStudent.contact_id s2) (result st0) + 1.
Proof.
  intros matchesBySoldier st0.
  destruct (uniformMap_fair (list_to_set (map LocalStudent.contact_id students))
              matchesBySoldier students) as [Hfinal Hfair].
  - apply findAllSecureMatches_uniform.
  - intros s Hs. apply elem_of_list_to_set, list_elem_of_fmap. by exists s.
  - fold st0 in Hfinal, Hfair. split.
    + unfold optimizeSecureMatches. fold st0. by rewrite Hfinal.
    + intros s1 s2 H1 H2.
      apply Hfair; apply elem_of_list_to_set, list_elem_of_fmap; by eexists.
Qed.

Lemma score_le_100 (stu : LocalStudent.t) (sol : LocalSoldier.t) (c : MatchCandidate) :
  calculateSecureMatch stu sol = Some c -> 1 <= score c <= 100.
Proof.
  intros (n & _ & Hn & ->)%score_integer.
  assert (0 <= n <= 100) as Hrange.
  { simpl in Hn. repeat destruct Hn as [<-|Hn]; try lia. }
  destruct (gender_pref_match (criteria c)), (language_match (criteria c)); simpl; lia.
Qed.

(** The run returns the allocator's list, sorted. *)
Lemma runSecureMatchingAlgorithm_pipeline
      (students : list LocalStudent.t) (soldiers : list LocalSoldier.t) :
  let assignments :=
    result (greedyPass (findAllSecureMatches students soldiers) students) in
  runSecureMatchingAlgorithm students soldiers
  = Some (sort_by byConfidenceDesc assignments,
          summarize students soldiers (sort_by byConfidenceDesc assignments)).
Proof.
  intros assignments. unfold runSecureMatchingAlgorithm.
  destruct (uniformMap_fair (list_to_set (map LocalStudent.contact_id students))
              (findAllSecureMatches students soldiers) students) as [Hfinal _].
  - apply findAllSecureMatches_uniform.
  - intros s Hs. apply elem_of_list_to_set, list_elem_of_fmap. by exists s.
  - unfold optimizeSecureMatches. by rewrite Hfinal.
Qed.

(** X9: every assignment the run returns is a real pair with its real score:
    a student and a soldier of the input, the score and the criteria that
    [calculateSecureMatch] gives this pair, the two records attached, status
    [suggested], rank 1 or 2, and a score between 1 and 100. *)
Theorem runSecureMatchingAlgorithm_assignments_are_scored_pairs
        (students : list LocalStudent.t) (soldiers : list LocalSoldier.t) :
  exists (matches : list EnrichedMatch) (summary : MatchingSummary),
    runSecureMatchingAlgorithm students soldiers = Some (matches, summary)
    /\ Forall (fun m =>
                 exists stu sol c,
                   stu ∈ students /\ sol ∈ soldiers
                   /\ calculateSecureMatch stu sol = Some c
                   /\ m = matchOfCandidate (id m) c (match_rank m)
                   /\ (match_rank m = 1 \/ match_rank m = 2)
                   /\ 1 <= confidence_score m <= 100)
              matches.
Proof.
  eexists _, _. split; [apply runSecureMatchingAlgorithm_pipeline|].
  apply Forall_forall. intros m Hm. apply elem_of_sort_by in Hm.
  pose proof (greedyPass_fromCandidate (findAllSecureMatches students soldiers) students)
    as Hfrom.
  rewrite Forall_forall in Hfrom.
  destruct (Hfrom m Hm) as (k & candidates & c & Hk & Hc & Heq).
  destruct (findAllSecureMatches_candidate _ _ _ _ _ Hk Hc) as (Hstu & Hsol & Hcalc).
  exists (student c), (soldier c), c.
  split; [done|]. split; [done|]. split; [done|]. split; [done|].
  split.
  - pose proof (greedyPass_inv (findAllSecureMatches students soldiers) students
                  (findAllSecureMatches_wellFormed students soldiers)) as Hinv.
    destruct Hinv as [_ _ _ _ _ _ H12]. rewrite Forall_forall in H12. by apply H12.
  - rewrite Heq. cbn [confidence_score matchOfCandidate].
    by apply (score_le_100 (student c) (soldier c)).
Qed.

(** ** The identifiers of the assignments *)

Lemma elem_of_insert_inv {A} (l : list A) (i : nat) (x y : A) :
  y ∈ <[i := x]> l -> y = x \/ y ∈ l.
Proof.
  revert i. induction l as [|a l IH]; intros i; [by right|].
  destruct i as [|i]; simpl.
  - intros [->|Hy]%elem_of_cons; [by left | right; by right].
  - intros [->|Hy]%elem_of_cons; [right; by left|].
    destruct (IH i Hy) as [->|Hin]; [by left | right; by right].
Qed.

Lemma NoDup_insert_fresh {A} (l : list A) (i : nat) (x : A) :
  NoDup l -> x ∉ l -> NoDup (<[i := x]> l).
Proof.
  revert i. induction l as [|a l IH]; intros i Hnd Hx; [done|].
  apply NoDup_cons in Hnd as [Ha Hnd]. apply not_elem_of_cons in Hx as [Hxa Hx].
  destruct i as [|i]; simpl; apply NoDup_cons.
  - by split.
  - split; [|by apply IH].
    intros [->|Hin]%elem_of_insert_inv; done.
Qed.

Lemma map_insert {A B} (f : A -> B) (l : list A) (i : nat) (x : A) :
  map f (<[i := x]> l) = <[i := f x]> (map f l).
Proof. exact (list_fmap_insert f l i x). Qed.

Lemma swapIn_drawnFrom (st st' : AllocState) (u : LocalStudent.t) (draws : list nat) :
  swapIn st u = Some st' ->
  drawnFrom draws (drawn st) (result st) ->
  exists draws', drawnFrom draws' (drawn st') (result st').
Proof.
  unfold swapIn.
  destruct (scanSwap (studentAssignments st) 0 (result st) (-1) 0) as [idx overload].
  destruct ((0 <=? idx) && (1 <? overload)); [|intros [= <-]; by exists draws].
  destruct (result st !! Z.to_nat idx) as [old|]; [|done].
  destruct (em_soldier old) as [sol|]; [|done].
  destruct (calculateSecureMatch u (soldierOfSlot old sol)) as [c|];
    [|intros [= <-]; by exists draws].
  intros [= <-] (Hids & Hnd & Hlt). cbn [result drawn].
  exists (<[Z.to_nat idx := drawn st]> draws). split; [|split].
  - rewrite !map_insert. cbn [id]. by rewrite Hids.
  - apply NoDup_insert_fresh; [done|]. intros Hin. specialize (Hlt _ Hin). lia.
  - intros j [->|Hj]%elem_of_insert_inv; [lia|]. specialize (Hlt _ Hj). lia.
Qed.

Lemma forEachUnused_drawnFrom (unusedStudents : list LocalStudent.t) :
  forall (st st' : AllocState) (draws : list nat),
    forEachUnused unusedStudents st = Some st' ->
    drawnFrom draws (drawn st) (result st) ->
    exists draws', drawnFrom draws' (drawn st') (result st').
Proof.
  induction unusedStudents as [|u rest IH]; intros st st' draws; simpl.
  - intros [= <-]. by exists draws.
  - destruct (swapIn st u) as [st1|] eqn:Hswap; [|done].
    intros Hrest Hd.
    destruct (swapIn_drawnFrom _ _ _ _ Hswap Hd) as (draws1 & Hd1).
    by apply (IH st1 st' draws1).
Qed.

(** X10: every assignment has an identifier of its own draw. The identifiers
    of the returned list are the values of [crypto.randomUUID()] at draws no
    two of which are the same; when the source does not repeat itself, no two
    assignments share an identifier. *)
Theorem optimizeSecureMatches_ids_from_distinct_draws
        (matchesBySoldier : JSMap.t (list MatchCandidate))
        (students : list LocalStudent.t) :
  exists (assignments : list EnrichedMatch) (draws : list nat),
    optimizeSecureMatches matchesBySoldier students = Some assignments
    /\ map id assignments = map randomUUID draws
    /\ NoDup draws
    /\ ((forall i j, randomUUID i = randomUUID j -> i = j) ->
        NoDup (map id assignments)).
Proof.
  destruct (optimizeSecureMatches_run matchesBySoldier students)
    as (st' & events & Hfin & Hopt & _).
  set (st0 := greedyPass matchesBySoldier students) in *.
  assert (drawnFrom (seq 0 (drawn st0)) (drawn st0) (result st0)) as Hd0.
  { split; [apply greedyPass_ids|]. split; [apply NoDup_seq|].
    intros j Hj%elem_of_seq. lia. }
  assert (exists draws, drawnFrom draws (drawn st') (result st')) as (draws & Hids & Hnd & _).
  { revert Hfin. unfold finalPass.
    destruct (0 <? len (unusedStudentsOf (result st0) students)).
    - intros Hrun. by apply (forEachUnused_drawnFrom _ _ _ _ Hrun Hd0).
    - intros [= <-]. by eexists. }
  exists (result st'), draws. split; [done|]. split; [done|]. split; [done|].
  intros Hinj. rewrite Hids. apply NoDup_fmap_2; [|done].
  intros i j. apply Hinj.
Qed.

(** ** The summary, soldier by soldier *)

Lemma filter_Permutation' {A} (p : A -> bool) (l l' : list A) :
  l ≡ₚ l' -> List.filter p l ≡ₚ List.filter p l'.
Proof.
  induction 1 as [|x l l' _ IH|x y l|l l' l'' _ IH1 _ IH2]; simpl.
  - done.
  - destruct (p x); [by constructor | done].
  - destruct (p x), (p y); try done. apply perm_swap.
  - by etrans.
Qed.

Lemma countWhere_Permutation {A} (p : A -> bool) (l l' : list A) :
  l ≡ₚ l' -> countWhere p l = countWhere p l'.
Proof.
  intros H. unfold countWhere, len. f_equal.
  by apply Permutation_length, filter_Permutation'.
Qed.

Lemma countWhere_map {A B} (f : A -> B) (p : B -> bool) (l : list A) :
  countWhere p (map f l) = countWhere (fun x => p (f x)) l.
Proof.
  unfold countWhere, len. f_equal.
  induction l as [|x l IH]; simpl; [done|]. destruct (p (f x)); simpl; by rewrite IH.
Qed.

Lemma countWhere_ext {A} (p q : A -> bool) (l : list A) :
  (forall x, x ∈ l -> p x = q x) -> countWhere p l = countWhere q l.
Proof.
  unfold countWhere, len. intros H. f_equal.
  induction l as [|x l IH]; simpl; [done|].
  rewrite (H x) by (by left). destruct (q x); simpl; rewrite IH; try done;
    intros y Hy; apply H; by right.
Qed.

Lemma countWhere_cons {A} (p : A -> bool) (x : A) (l : list A) :
  countWhere p (x :: l) = (if p x then 1 else 0) + countWhere p l.
Proof. unfold countWhere, len. simpl. destruct (p x); simpl; lia. Qed.

Lemma countWhere_nonneg {A} (p : A -> bool) (l : list A) : 0 <= countWhere p l.
Proof. unfold countWhere, len. lia. Qed.

Lemma assignmentsOf_cons (k : string) (m : EnrichedMatch) (l : list EnrichedMatch) :
  assignmentsOf k (m :: l)
  = if String.eqb (soldier_external_id m) k then m :: assignmentsOf k l
    else assignmentsOf k l.
Proof. reflexivity. Qed.

Lemma assignmentsOf_absent (k : string) (l : list EnrichedMatch) :
  k ∉ map soldier_external_id l -> assignmentsOf k l = [].
Proof.
  induction l as [|m l IH]; [done|]. intros Hk.
  apply not_elem_of_cons in Hk as [Hne Hk]. rewrite assignmentsOf_cons.
  destruct (String.eqb_spec (soldier_external_id m) k) as [Heq|_]; [done|]. by apply IH.
Qed.

Lemma assignmentsOf_present (k : string) (l : list EnrichedMatch) :
  k ∈ map soldier_external_id l -> assignmentsOf k l <> [].
Proof.
  induction l as [|m l IH]; [by intros ?%elem_of_nil|].
  rewrite assignmentsOf_cons. intros Hk.
  destruct (String.eqb_spec (soldier_external_id m) k) as [Heq|Hne]; [done|].
  apply IH. apply elem_of_cons in Hk as [Hk|Hk]; [done|done].
Qed.

(** What [matchesBySoldierId] and [usedStudentIds] hold after the loop. *)
Lemma tally_fold (l : list EnrichedMatch) :
  forall acc : gmap string Z * gset string,
    let r := fold_left
               (fun acc m =>
                  (<[soldier_external_id m :=
                       count_of (fst acc) (soldier_external_id m) + 1]> (fst acc),
                   snd acc ∪ {[student_external_id m]}))
               l acc in
    (forall k, fst r !! k
               = if decide (k ∈ map soldier_external_id l)
                 then Some (count_of (fst acc) k + len (assignmentsOf k l))
                 else fst acc !! k)
    /\ snd r = snd acc ∪ list_to_set (map student_external_id l).
Proof.
  induction l as [|m l IH]; intros acc; cbn zeta.
  { split; [|simpl; set_solver]. intros k. by rewrite decide_False by apply not_elem_of_nil. }
  cbn [fold_left].
  destruct (IH (<[soldier_external_id m :=
                    count_of (fst acc) (soldier_external_id m) + 1]> (fst acc),
                snd acc ∪ {[student_external_id m]})) as [Hfst Hsnd].
  cbn zeta in Hfst, Hsnd. cbn [fst snd] in Hfst, Hsnd. split.
  - intros k. rewrite Hfst. rewrite count_of_insert, assignmentsOf_cons.
    destruct (decide (soldier_external_id m = k)) as [Heq|Hne].
    + rewrite (proj2 (String.eqb_eq _ _) Heq). subst k.
      rewrite (decide_True (P := _ ∈ map _ (m :: l))) by (by left).
      destruct (decide (soldier_external_id m ∈ map soldier_external_id l)) as [Hin|Hout].
      * f_equal. unfold len. simpl. lia.
      * rewrite lookup_insert_eq, (assignmentsOf_absent _ _ Hout). f_equal.
    + rewrite (proj2 (String.eqb_neq _ _) Hne).
      destruct (decide (k ∈ map soldier_external_id l)) as [Hin|Hout].
      * rewrite decide_True; [done | by right].
      * rewrite decide_False, lookup_insert_ne; [done | done |].
        intros [?|?]%elem_of_cons; by simplify_eq.
  - rewrite Hsnd. simpl. set_solver.
Qed.

Lemma tally_spec (l : list EnrichedMatch) :
  (forall k, fst (tally l) !! k
             = if decide (k ∈ map soldier_external_id l)
               then Some (len (assignmentsOf k l)) else None)
  /\ snd (tally l) = usedStudentIdsOf l.
Proof.
  destruct (tally_fold l (∅, ∅)) as [Hfst Hsnd]. cbn zeta in *. split.
  - intros k. unfold tally. rewrite Hfst. cbn [fst]. case_decide; [|done].
    f_equal.
  - unfold tally. rewrite Hsnd. unfold usedStudentIdsOf. simpl. set_solver.
Qed.

(** The values of [matchesBySoldierId], soldier by soldier. *)
Lemma tally_values (l : list EnrichedMatch) (K : list string) :
  NoDup K ->
  (forall k, k ∈ K <-> k ∈ map soldier_external_id l) ->
  valuesOf (fst (tally l)) ≡ₚ map (fun k => len (assignmentsOf k l)) K.
Proof.
  intros Hnd HK. destruct (tally_spec l) as [Hfst _].
  unfold valuesOf.
  assert (map_to_list (fst (tally l))
          ≡ₚ map (fun k => (k, len (assignmentsOf k l))) K) as ->.
  { apply NoDup_Permutation.
    - apply NoDup_map_to_list.
    - apply NoDup_fmap_2; [|done]. by intros k1 k2 [= ->].
    - intros [k v]. split.
      + intros Hkv%elem_of_map_to_list. rewrite Hfst in Hkv.
        case_decide as Hk; [|done]. injection Hkv as <-.
        apply list_elem_of_fmap. exists k. split; [done|]. by apply HK.
      + intros (k' & [= -> ->] & Hk')%list_elem_of_fmap.
        apply elem_of_map_to_list. rewrite Hfst. apply HK in Hk'. by rewrite decide_True. }
  rewrite <- (list_fmap_compose (fun k => (k, len (assignmentsOf k l))) snd). done.
Qed.

Lemma summarize_by_soldier (students : list LocalStudent.t) (soldiers : list LocalSoldier.t)
      (l : list EnrichedMatch) (K : list string) :
  NoDup K ->
  (forall k, k ∈ K <-> k ∈ map soldier_external_id l) ->
  let summary := summarize students soldiers l in
  soldiersWithTwoMatches summary
  = countWhere (fun k => 2 <=? len (assignmentsOf k l)) K
  /\ soldiersWithOneMatch summary
     = countWhere (fun k => len (assignmentsOf k l) =? 1) K
  /\ soldiersWithNoMatch summary = len soldiers - len K
  /\ studentsUsed summary = Z.of_nat (size (usedStudentIdsOf l)).
Proof.
  intros Hnd HK. pose proof (tally_values l K Hnd HK) as Hperm.
  destruct (tally_spec l) as [_ Hsnd].
  unfold summarize. destruct (tally l) as [matchesBySoldierId usedStudentIds].
  cbn [fst snd] in *. cbn.
  split; [|split; [|split]].
  - by rewrite (countWhere_Permutation _ _ _ Hperm), countWhere_map.
  - by rewrite (countWhere_Permutation _ _ _ Hperm), countWhere_map.
  - f_equal. unfold len. f_equal.
    rewrite <- (length_map_to_list matchesBySoldierId).
    unfold valuesOf in Hperm.
    apply Permutation_length in Hperm. rewrite !length_map in Hperm. done.
  - by rewrite Hsnd.
Qed.

(** ** The keys of the generated map *)

Lemma fold_set_keys {V} (f : LocalSoldier.t -> V) (soldiers : list LocalSoldier.t) :
  forall m0 : JSMap.t V,
    let m := fold_left (fun m x => JSMap.set (LocalSoldier.contact_id x) (f x) m)
                       soldiers m0 in
    (forall k, k ∈ JSMap.keys m
               <-> k ∈ JSMap.keys m0 \/ k ∈ map LocalSoldier.contact_id soldiers)
    /\ (NoDup (JSMap.keys m0 ++ map LocalSoldier.contact_id soldiers) ->
        JSMap.keys m = JSMap.keys m0 ++ map LocalSoldier.contact_id soldiers).
Proof.
  induction soldiers as [|s l IH]; intros m0; cbn zeta.
  { simpl. split; [|by rewrite app_nil_r].
    intros k. split; [by left|]. intros [?|?%elem_of_nil]; done. }
  cbn [fold_left]. destruct (IH (JSMap.set (LocalSoldier.contact_id s) (f s) m0))
    as [Hmem Heq]. cbn zeta in Hmem, Heq.
  split.
  - intros k. rewrite Hmem, JSMap_keys_set. cbn [map].
    case_bool_decide as Hin.
    + rewrite elem_of_cons. split; [tauto|]. intros [?|[->|?]]; tauto.
    + rewrite elem_of_app, list_elem_of_singleton, elem_of_cons. tauto.
  - intros Hnd. cbn [map] in *. rewrite Heq; rewrite JSMap_keys_set.
    + rewrite bool_decide_eq_false_2; [by rewrite <- app_assoc|].
      apply NoDup_app in Hnd as (_ & Hdisj & _). intros Hin.
      apply (Hdisj _ Hin). by left.
    + rewrite bool_decide_eq_false_2.
      * by rewrite <- app_assoc.
      * apply NoDup_app in Hnd as (_ & Hdisj & _). intros Hin.
        apply (Hdisj _ Hin). by left.
Qed.

(** X11: the keys of the generated map are the soldiers' identifiers, each
    once: a soldier whose identifier repeats an earlier one overwrites that
    entry instead of adding one. When no identifier is repeated the entries
    are in the order of the soldiers. Both copies of the generator agree. *)
Theorem findAllSecureMatches_keys
        (students : list LocalStudent.t) (soldiers : list LocalSoldier.t) :
  let keys := JSMap.keys (findAllSecureMatches students soldiers) in
  NoDup keys
  /\ (forall k, k ∈ keys <-> k ∈ map LocalSoldier.contact_id soldiers)
  /\ (NoDup (map LocalSoldier.contact_id soldiers) ->
      keys = map LocalSoldier.contact_id soldiers)
  /\ JSMap.keys (findAllSecureMatches_capacity students soldiers) = keys.
Proof.
  cbn zeta. split; [apply findAllSecureMatches_wellFormed|].
  unfold findAllSecureMatches, findAllSecureMatches_capacity.
  destruct (fold_set_keys (fun x => sort_by byScoreDesc (scoreAll students x))
                          soldiers JSMap.empty) as [Hmem Heq].
  cbn zeta in Hmem, Heq. split; [|split].
  - intros k. rewrite Hmem. split; [|by right]. by intros [?%elem_of_nil|?].
  - exact Heq.
  - clear Hmem Heq.
    assert (Hgen : forall m m' : JSMap.t (list MatchCandidate),
               JSMap.keys m = JSMap.keys m' ->
               JSMap.keys
                 (fold_left
                    (fun matchesBySoldier soldier =>
                       JSMap.set (LocalSoldier.contact_id soldier)
                                 (take 10 (sort_by byScoreThenLoad (scoreAll students soldier)))
                                 matchesBySoldier) soldiers m)
               = JSMap.keys
                   (fold_left
                      (fun matchesBySoldier soldier =>
                         JSMap.set (LocalSoldier.contact_id soldier)
                                   (sort_by byScoreDesc (scoreAll students soldier))
                                   matchesBySoldier) soldiers m')).
    { induction soldiers as [|s l IH]; intros m m' H; [done|].
      cbn [fold_left]. apply IH. by rewrite !JSMap_keys_set, H. }
    by apply Hgen.
Qed.

Lemma findAllSecureMatches_key_count
      (students : list LocalStudent.t) (soldiers : list LocalSoldier.t) :
  length (JSMap.keys (findAllSecureMatches students soldiers))
  = size (list_to_set (map LocalSoldier.contact_id soldiers) : gset string).
Proof.
  pose proof (findAllSecureMatches_wellFormed students soldiers) as [Hnd _].
  rewrite <- (size_list_to_set (C := gset string)) by done. f_equal.
  apply set_eq. intros k. rewrite !elem_of_list_to_set.
  unfold findAllSecureMatches.
  destruct (fold_set_keys (fun x => sort_by byScoreDesc (scoreAll students x))
                          soldiers JSMap.empty) as [Hmem _].
  cbn zeta in Hmem. rewrite Hmem. split; [|by right]. by intros [?%elem_of_nil|?].
Qed.

(** ** The summary of a run, in closed form *)

Lemma sumZ_add {A} (f g : A -> Z) (l : list A) :
  sumZ (map (fun k => f k + g k) l) = sumZ (map f l) + sumZ (map g l).
Proof. induction l as [|k l IH]; simpl; [done|]. rewrite IH. lia. Qed.

Lemma sumZ_indicator (K : list string) (k0 : string) (v : Z) :
  NoDup K -> k0 ∈ K ->
  sumZ (map (fun k => if String.eqb k0 k then v else 0) K) = v.
Proof.
  induction 1 as [|k K Hk Hnd IH]; [by intros ?%elem_of_nil|].
  assert (Hzero : k0 ∉ K -> sumZ (map (fun k => if String.eqb k0 k then v else 0) K) = 0).
  { clear. induction K as [|k K IH]; [done|].
    intros [Hne HK]%not_elem_of_cons. simpl.
    rewrite (proj2 (String.eqb_neq _ _) Hne), IH by done. lia. }
  intros [->|Hin]%elem_of_cons; simpl.
  - rewrite String.eqb_refl, Hzero by done. lia.
  - destruct (String.eqb_spec k0 k) as [->|_]; [done|]. by rewrite IH.
Qed.

Lemma sumZ_const {A} (f : A -> Z) (v : Z) (l : list A) :
  (forall k, k ∈ l -> f k = v) -> sumZ (map f l) = len l * v.
Proof.
  unfold len. induction l as [|k l IH]; intros Hf; [done|].
  simpl length. rewrite Nat2Z.inj_succ. simpl.
  rewrite (Hf k) by (by left). rewrite IH; [lia|]. intros k' Hk'. apply Hf. by right.
Qed.

(** A count over the list is the sum of the counts over each soldier's
    assignments. *)
Lemma countWhere_by_key (p : EnrichedMatch -> bool) (K : list string)
      (l : list EnrichedMatch) :
  NoDup K ->
  (forall m, m ∈ l -> soldier_external_id m ∈ K) ->
  countWhere p l = sumZ (map (fun k => countWhere p (assignmentsOf k l)) K).
Proof.
  intros Hnd. induction l as [|m l IH]; intros HK.
  - symmetry. rewrite (sumZ_const _ 0); [change (countWhere p []) with 0; lia | done].
  - rewrite countWhere_cons, IH by (intros m' Hm'; apply HK; by right).
    rewrite <- (sumZ_indicator K (soldier_external_id m) (if p m then 1 else 0) Hnd)
      by (apply HK; by left).
    rewrite <- sumZ_add. f_equal. apply map_ext. intros k.
    rewrite assignmentsOf_cons. destruct (String.eqb (soldier_external_id m) k); [|lia].
    by rewrite countWhere_cons.
Qed.

Lemma distinctStudents_generated (students : list LocalStudent.t)
      (soldiers : list LocalSoldier.t) (k : string) (candidates : list MatchCandidate) :
  (k, candidates) ∈ findAllSecureMatches students soldiers ->
  distinctStudents candidates
  = size (list_to_set (map LocalStudent.contact_id students) : gset string).
Proof.
  intros (owner & _ & _ & ->)%findAllSecureMatches_entries.
  unfold distinctStudents. f_equal. apply set_eq. intros x.
  rewrite !elem_of_list_to_set.
  rewrite <- (scoreAll_students students owner) at 2.
  unfold studentIdOf. rewrite <- (list_fmap_compose student LocalStudent.contact_id).
  change (LocalStudent.contact_id ∘ student) with (fun c => LocalStudent.contact_id (student c)).
  by rewrite (sort_by_perm byScoreDesc (scoreAll students owner)).
Qed.

(** The run's list, soldier by soldier: each key of the generated map has the
    ranks 1 and 2, or the rank 1 alone when the students share one
    identifier. *)
Lemma pipeline_blocks (students : list LocalStudent.t) (soldiers : list LocalSoldier.t) :
  students <> [] ->
  let d := size (list_to_set (map LocalStudent.contact_id students) : gset string) in
  let K := JSMap.keys (findAllSecureMatches students soldiers) in
  let l := sort_by byConfidenceDesc
             (result (greedyPass (findAllSecureMatches students soldiers) students)) in
  (1 <= d)%nat
  /\ NoDup K
  /\ (forall k, k ∈ K <-> k ∈ map soldier_external_id l)
  /\ (forall k, k ∈ K ->
        map match_rank (assignmentsOf k l) ≡ₚ ranksUpTo (Nat.min 2 d)).
Proof.
  intros Hne d K l.
  pose proof (findAllSecureMatches_wellFormed students soldiers) as Hwf.
  pose proof (greedyPass_inv _ students Hwf) as [Hranks Hkeys _ _ _ _ _].
  assert (1 <= d)%nat as Hd.
  { destruct students as [|s rest]; [done|]. subst d.
    assert (size (list_to_set (map LocalStudent.contact_id (s :: rest)) : gset string) <> 0%nat);
      [|lia].
    intros Hz%size_empty_inv. simpl in Hz. set_solver. }
  assert (Hblock : forall k, k ∈ K ->
             map match_rank
                 (assignmentsOf k (result (greedyPass (findAllSecureMatches students soldiers)
                                                      students)))
             = ranksUpTo (Nat.min 2 d)).
  { intros k (entry & -> & Hin)%list_elem_of_fmap. destruct entry as [k candidates].
    cbn [fst].
    rewrite (Hranks k candidates) by (by apply elem_of_soldiersWithOptions).
    by rewrite (distinctStudents_generated students soldiers k). }
  assert (Hperm : forall k,
             assignmentsOf k l
             ≡ₚ assignmentsOf k (result (greedyPass (findAllSecureMatches students soldiers)
                                                    students))).
  { intros k. apply filter_Permutation', sort_by_perm. }
  split; [done|]. split; [apply Hwf|]. split.
  - intros k. subst l. rewrite (sort_by_perm byConfidenceDesc). split.
    + intros Hk. destruct (decide (k ∈ map soldier_external_id
                (result (greedyPass (findAllSecureMatches students soldiers) students))))
        as [Hin|Hout]; [done|].
      specialize (Hblock k Hk). rewrite (assignmentsOf_absent _ _ Hout) in Hblock.
      destruct d as [|[|d']]; [lia|done|done].
    + intros (m & -> & Hm)%list_elem_of_fmap. specialize (Hkeys m Hm).
      apply list_elem_of_fmap in Hkeys as (entry & -> & Hentry).
      apply (proj1 (elem_of_soldiersWithOptions _ _)) in Hentry.
      apply list_elem_of_fmap. by exists entry.
  - intros k Hk. by rewrite (Hperm k), (Hblock k Hk).
Qed.

Lemma countWhere_true {A} (l : list A) : countWhere (fun _ => true) l = len l.
Proof. unfold countWhere. f_equal. induction l as [|x l IH]; simpl; congruence. Qed.

Lemma countWhere_false {A} (l : list A) : countWhere (fun _ => false) l = 0.
Proof. unfold countWhere. by induction l. Qed.

Lemma summarize_totalMatches (students : list LocalStudent.t)
      (soldiers : list LocalSoldier.t) (l : list EnrichedMatch) :
  totalMatches (summarize students soldiers l) = len l.
Proof. unfold summarize. by destruct (tally l). Qed.

Lemma summary_closed_form (students : list LocalStudent.t) (soldiers : list LocalSoldier.t) :
  students <> [] ->
  let d := size (list_to_set (map LocalStudent.contact_id students) : gset string) in
  let s := Z.of_nat (size (list_to_set (map LocalSoldier.contact_id soldiers) : gset string)) in
  let l := sort_by byConfidenceDesc
             (result (greedyPass (findAllSecureMatches students soldiers) students)) in
  let summary := summarize students soldiers l in
  totalMatches summary = s * Z.of_nat (Nat.min 2 d)
  /\ soldiersWithTwoMatches summary = (if (2 <=? d)%nat then s else 0)
  /\ soldiersWithOneMatch summary = (if (d =? 1)%nat then s else 0)
  /\ soldiersWithNoMatch summary = len soldiers - s
  /\ (NoDup (map LocalSoldier.contact_id soldiers) -> soldiersWithNoMatch summary = 0).
Proof.
  intros Hne d s l summary. subst summary.
  destruct (pipeline_blocks students soldiers Hne) as (Hd & Hnd & HK & Hblock).
  fold d in Hd, Hblock. fold l in HK, Hblock.
  set (K := JSMap.keys (findAllSecureMatches students soldiers)) in *.
  assert (len K = s) as HlenK.
  { unfold len, s. f_equal. apply findAllSecureMatches_key_count. }
  assert (Hlen : forall k, k ∈ K -> len (assignmentsOf k l) = Z.of_nat (Nat.min 2 d)).
  { intros k Hk. unfold len. f_equal.
    rewrite <- (length_map match_rank), (Hblock k Hk). unfold ranksUpTo.
    by rewrite length_map, length_seq. }
  destruct (summarize_by_soldier students soldiers l K Hnd HK) as (Htwo & Hone & Hnone & _).
  split; [|split; [|split; [|split]]].
  - rewrite summarize_totalMatches, <- countWhere_true.
    rewrite (countWhere_by_key _ K l Hnd).
    + rewrite (sumZ_const _ (Z.of_nat (Nat.min 2 d))); [by rewrite HlenK|].
      intros k Hk. by rewrite countWhere_true, (Hlen k Hk).
    + intros m Hm. apply HK, list_elem_of_fmap. by exists m.
  - rewrite Htwo.
    rewrite (countWhere_ext _ (fun _ => (2 <=? d)%nat) K).
    + destruct (2 <=? d)%nat; [by rewrite countWhere_true | apply countWhere_false].
    + intros k Hk. rewrite (Hlen k Hk).
      destruct (Nat.leb_spec 2 d), (Z.leb_spec 2 (Z.of_nat (Nat.min 2 d))); lia.
  - rewrite Hone.
    rewrite (countWhere_ext _ (fun _ => (d =? 1)%nat) K).
    + destruct (d =? 1)%nat; [by rewrite countWhere_true | apply countWhere_false].
    + intros k Hk. rewrite (Hlen k Hk).
      destruct (Nat.eqb_spec d 1), (Z.eqb_spec (Z.of_nat (Nat.min 2 d)) 1); lia.
  - by rewrite Hnone, HlenK.
  - intros Hids. rewrite Hnone, HlenK. unfold s, len.
    rewrite size_list_to_set by done. rewrite length_map. lia.
Qed.

(** X12: with at least one student, the summary of a run depends only on how
    many distinct identifiers the soldiers and the students have. Every
    distinct soldier identifier gets min(2, distinct students) assignments;
    [soldiersWithNoMatch] counts exactly the soldiers whose identifier repeats
    an earlier one, so it is 0 when no identifier is repeated; and with two
    distinct students or more every soldier identifier has two matches. *)
Theorem runSecureMatchingAlgorithm_summary_closed_form
        (students : list LocalStudent.t) (soldiers : list LocalSoldier.t) :
  students <> [] ->
  let d := size (list_to_set (map LocalStudent.contact_id students) : gset string) in
  let s := Z.of_nat (size (list_to_set (map LocalSoldier.contact_id soldiers) : gset string)) in
  exists (matches : list EnrichedMatch) (summary : MatchingSummary),
    runSecureMatchingAlgorithm students soldiers = Some (matches, summary)
    /\ totalMatches summary = s * Z.of_nat (Nat.min 2 d)
    /\ soldiersWithTwoMatches summary = (if (2 <=? d)%nat then s else 0)
    /\ soldiersWithOneMatch summary = (if (d =? 1)%nat then s else 0)
    /\ soldiersWithNoMatch summary = len soldiers - s
    /\ (NoDup (map LocalSoldier.contact_id soldiers) -> soldiersWithNoMatch summary = 0).
Proof.
  intros Hne d s. eexists _, _.
  split; [apply runSecureMatchingAlgorithm_pipeline|].
  exact (summary_closed_form students soldiers Hne).
Qed.

(** ** The order of the returned list *)

Lemma filter_insert_sorted {A} (cmp : A -> A -> Z) (p : A -> bool) (x : A) (l : list A) :
  (p x = true -> forall y, 0 < cmp x y -> p y = false) ->
  List.filter p (insert_sorted cmp x l)
  = if p x then x :: List.filter p l else List.filter p l.
Proof.
  intros Hp. induction l as [|y l IH]; simpl; [done|].
  destruct (Z.leb_spec (cmp x y) 0) as [Hle|Hgt]; simpl; [done|].
  rewrite IH. destruct (p x) eqn:Hx; [|done].
  by rewrite (Hp eq_refl y Hgt).
Qed.

(** Elements that the comparator never moves past each other keep their
    order. *)
Lemma sort_by_keeps_ties {A} (cmp : A -> A -> Z) (p : A -> bool) (l : list A) :
  (forall x y, p x = true -> 0 < cmp x y -> p y = false) ->
  List.filter p (sort_by cmp l) = List.filter p l.
Proof.
  intros Hp. induction l as [|x l IH]; [done|].
  cbn [sort_by foldr]. fold (sort_by cmp l).
  rewrite filter_insert_sorted by (intros Hx y; by apply Hp).
  simpl. by rewrite IH.
Qed.

Lemma byConfidenceDesc_total (x y : EnrichedMatch) :
  0 < byConfidenceDesc x y -> byConfidenceDesc y x <= 0.
Proof. unfold byConfidenceDesc. lia. Qed.

Lemma byConfidenceDesc_trans (x y z : EnrichedMatch) :
  byConfidenceDesc x y <= 0 -> byConfidenceDesc y z <= 0 -> byConfidenceDesc x z <= 0.
Proof. unfold byConfidenceDesc. lia. Qed.

(** X13: the run returns the allocator's list reordered and nothing else: a
    permutation of it, with the scores in descending order, in which
    assignments of equal score keep the order the allocator gave them. *)
Theorem runSecureMatchingAlgorithm_sorts_stably
        (students : list LocalStudent.t) (soldiers : list LocalSoldier.t) :
  exists (assignments matches : list EnrichedMatch) (summary : MatchingSummary),
    optimizeSecureMatches (findAllSecureMatches students soldiers) students
    = Some assignments
    /\ runSecureMatchingAlgorithm students soldiers = Some (matches, summary)
    /\ matches ≡ₚ assignments
    /\ StronglySorted (fun a b => confidence_score b <= confidence_score a) matches
    /\ forall s : Z,
        List.filter (fun m => confidence_score m =? s) matches
        = List.filter (fun m => confidence_score m =? s) assignments.
Proof.
  destruct (runSecureMatchingAlgorithm_returns students soldiers)
    as (assignments & Hopt & Hrun).
  eexists assignments, _, _. split; [exact Hopt|]. split; [exact Hrun|].
  split; [apply sort_by_perm|]. split.
  - eapply StronglySorted_weaken;
      [|apply (sort_by_sorted byConfidenceDesc byConfidenceDesc_total
                              byConfidenceDesc_trans)].
    intros a b. unfold byConfidenceDesc. lia.
  - intros s. apply sort_by_keeps_ties. intros x y Hx Hgt.
    unfold byConfidenceDesc in Hgt. apply Z.eqb_eq in Hx. apply Z.eqb_neq. lia.
Qed.

(** ** The score bands, the average and the unused *)

Lemma score_bands (l : list EnrichedMatch) :
  countWhere (fun m => 70 <=? confidence_score m) l
  + countWhere (fun m => (30 <=? confidence_score m) && (confidence_score m <? 70)) l
  + countWhere (fun m => confidence_score m <? 30) l
  = len l.
Proof.
  induction l as [|m l IH]; [done|].
  rewrite !countWhere_cons. unfold len in *. simpl length. rewrite Nat2Z.inj_succ.
  destruct (Z.leb_spec 70 (confidence_score m)), (Z.leb_spec 30 (confidence_score m)),
    (Z.ltb_spec (confidence_score m) 70), (Z.ltb_spec (confidence_score m) 30);
    simpl; lia.
Qed.

Lemma totalScore_bounds (lo hi : Z) (l : list EnrichedMatch) :
  Forall (fun m => lo <= confidence_score m <= hi) l ->
  forall s0,
    s0 + len l * lo <= fold_left (fun s m => s + confidence_score m) l s0
    <= s0 + len l * hi.
Proof.
  unfold len. induction 1 as [|m l Hm Hl IH]; intros s0; [simpl; lia|].
  cbn [fold_left]. specialize (IH (s0 + confidence_score m)).
  simpl length. rewrite Nat2Z.inj_succ. nia.
Qed.

Lemma average_bounds (lo hi total n : Z) :
  0 < n -> n * lo <= total <= n * hi ->
  lo <= Math_round (inject_Z total / inject_Z n) <= hi.
Proof.
  intros Hn [Hlo Hhi].
  assert (inject_Z 0 < inject_Z n)%Q as Hpos by (by rewrite <- Zlt_Qlt).
  split.
  - apply Z.le_trans with (Math_round (inject_Z lo)); [by rewrite Math_round_inject_Z|].
    apply Math_round_mono, Qle_shift_div_l; [done|].
    rewrite <- inject_Z_mult, <- Zle_Qle. lia.
  - apply Z.le_trans with (Math_round (inject_Z hi)); [|by rewrite Math_round_inject_Z].
    apply Math_round_mono, Qle_shift_div_r; [done|].
    rewrite <- inject_Z_mult, <- Zle_Qle. lia.
Qed.

Lemma size_list_to_set_le (l : list string) :
  (size (list_to_set l : gset string) <= length l)%nat.
Proof.
  induction l as [|x l IH]; [by rewrite list_to_set_nil, size_empty|].
  rewrite list_to_set_cons, size_union_alt, size_singleton. cbn [length].
  assert (size (list_to_set l ∖ {[x]} : gset string) <= size (list_to_set l : gset string))%nat
    by (apply subseteq_size; set_solver).
  lia.
Qed.

Lemma tally_size (l : list EnrichedMatch) :
  size (fst (tally l)) = size (list_to_set (map soldier_external_id l) : gset string).
Proof.
  destruct (tally_spec l) as [Hfst _].
  rewrite <- size_dom. f_equal. apply set_eq. intros k.
  rewrite elem_of_dom, Hfst, elem_of_list_to_set.
  case_decide; [by split; [|eexists] | split; [by intros [? ?]|done]].
Qed.

Lemma summarize_fields (students : list LocalStudent.t) (soldiers : list LocalSoldier.t)
      (l : list EnrichedMatch) :
  let summary := summarize students soldiers l in
  highScoreMatches summary + mediumScoreMatches summary + lowScoreMatches summary
  = len l
  /\ avgScore summary
     = (if 0 <? len l
        then Math_round (inject_Z (fold_left (fun s m => s + confidence_score m) l 0)
                         / inject_Z (len l))
        else 0)
  /\ studentsUsed summary = Z.of_nat (size (usedStudentIdsOf l))
  /\ studentsNotUsed summary = len students - Z.of_nat (size (usedStudentIdsOf l))
  /\ soldiersWithNoMatch summary
     = len soldiers
       - Z.of_nat (size (list_to_set (map soldier_external_id l) : gset string)).
Proof.
  pose proof (tally_size l) as Hsize. destruct (tally_spec l) as [_ Hsnd].
  unfold summarize. destruct (tally l) as [matchesBySoldierId usedStudentIds].
  cbn [fst snd] in *. cbn. subst usedStudentIds. rewrite Hsize.
  split; [apply score_bands | done].
Qed.

(** X14: the summary of a run is sound. The three score bands partition the
    assignments; the average score is 0 without assignments and between 1 and
    100 otherwise; [studentsUsed] is the number of distinct students in the
    list, and neither [studentsNotUsed] nor [soldiersWithNoMatch] is ever
    negative. *)
Theorem runSecureMatchingAlgorithm_summary_sound
        (students : list LocalStudent.t) (soldiers : list LocalSoldier.t) :
  exists (matches : list EnrichedMatch) (summary : MatchingSummary),
    runSecureMatchingAlgorithm students soldiers = Some (matches, summary)
    /\ totalMatches summary = len matches
    /\ highScoreMatches summary + mediumScoreMatches summary + lowScoreMatches summary
       = totalMatches summary
    /\ (matches = [] -> avgScore summary = 0)
    /\ (matches <> [] -> 1 <= avgScore summary <= 100)
    /\ studentsUsed summary = Z.of_nat (size (usedStudentIdsOf matches))
    /\ 0 <= studentsNotUsed summary
    /\ 0 <= soldiersWithNoMatch summary.
Proof.
  set (l := sort_by byConfidenceDesc
              (result (greedyPass (findAllSecureMatches students soldiers) students))).
  exists l, (summarize students soldiers l).
  split; [apply runSecureMatchingAlgorithm_pipeline|].
  destruct (summarize_fields students soldiers l)
    as (Hbands & Havg & Hused & Hunused & Hnone).
  assert (Hpairs : Forall (fun m =>
                     1 <= confidence_score m <= 100
                     /\ student_external_id m ∈ map LocalStudent.contact_id students
                     /\ soldier_external_id m ∈ map LocalSoldier.contact_id soldiers) l).
  { apply Forall_forall. intros m Hm. apply elem_of_sort_by in Hm.
    pose proof (greedyPass_fromCandidate (findAllSecureMatches students soldiers) students)
      as Hfrom.
    rewrite Forall_forall in Hfrom.
    destruct (Hfrom m Hm) as (k & candidates & c & Hk & Hc & ->).
    destruct (findAllSecureMatches_candidate _ _ _ _ _ Hk Hc) as (Hstu & Hsol & Hcalc).
    cbn [confidence_score student_external_id soldier_external_id matchOfCandidate].
    split; [by apply (score_le_100 (student c) (soldier c))|].
    split; apply list_elem_of_fmap; by eexists. }
  rewrite summarize_totalMatches.
  split; [done|]. split; [done|]. split; [|split; [|split; [done|split]]].
  - intros Hnil. rewrite Havg, Hnil. done.
  - intros Hne. rewrite Havg.
    assert (0 < len l) as Hpos.
    { unfold len. destruct l; [done | simpl; lia]. }
    rewrite (proj2 (Z.ltb_lt _ _) Hpos).
    apply average_bounds; [done|].
    pose proof (totalScore_bounds 1 100 l
                  ltac:(eapply Forall_impl; [exact Hpairs | by intros m (? & _)]) 0).
    lia.
  - rewrite Hunused.
    assert (size (usedStudentIdsOf l) <= length students)%nat; [|unfold len; lia].
    etrans; [|rewrite <- (length_map LocalStudent.contact_id students);
               apply size_list_to_set_le].
    apply subseteq_size. intros x Hx. unfold usedStudentIdsOf in Hx.
    apply elem_of_list_to_set, list_elem_of_fmap in Hx as (m & -> & Hm).
    apply elem_of_list_to_set. rewrite Forall_forall in Hpairs.
    by destruct (Hpairs m Hm) as (_ & ? & _).
  - rewrite Hnone.
    assert (size (list_to_set (map soldier_external_id l) : gset string)
            <= length soldiers)%nat; [|unfold len; lia].
    etrans; [|rewrite <- (length_map LocalSoldier.contact_id soldiers);
               apply size_list_to_set_le].
    apply subseteq_size. intros x Hx.
    apply elem_of_list_to_set, list_elem_of_fmap in Hx as (m & -> & Hm).
    apply elem_of_list_to_set. rewrite Forall_forall in Hpairs.
    by destruct (Hpairs m Hm) as (_ & _ & ?).
Qed.

(** ** The matches panel *)

Lemma updateMatchStatus_lookup (matches : list EnrichedMatch) (matchId : string)
      (newStatus : MatchStatus) (j : nat) :
  updateMatchStatus matches matchId newStatus !! j
  = (fun m => if String.eqb (id m) matchId then withStatus m newStatus else m)
      <$> matches !! j.
Proof. unfold updateMatchStatus. apply list_lookup_fmap. Qed.

(** X15: with identifiers that are not repeated, approving or rejecting a
    match changes the status of that one row and nothing else. *)
Theorem updateMatchStatus_changes_one_row
        (matches : list EnrichedMatch) (i : nat) (m0 : EnrichedMatch)
        (newStatus : MatchStatus) :
  NoDup (map id matches) ->
  matches !! i = Some m0 ->
  updateMatchStatus matches (id m0) newStatus = <[i := withStatus m0 newStatus]> matches.
Proof.
  intros Hnd Hi. apply list_eq. intros j. rewrite updateMatchStatus_lookup.
  destruct (decide (i = j)) as [<-|Hne].
  - rewrite list_lookup_insert_eq by (by eapply lookup_lt_Some).
    rewrite Hi. simpl. by rewrite String.eqb_refl.
  - rewrite list_lookup_insert_ne by done.
    destruct (matches !! j) as [m|] eqn:Hj; [|done]. simpl.
    destruct (String.eqb_spec (id m) (id m0)) as [Heq|_]; [|done].
    exfalso. apply Hne.
    apply (NoDup_lookup (map id matches) i j (id m0)); [done| |].
    + change (map id matches) with (id <$> matches). by rewrite list_lookup_fmap, Hi.
    + change (map id matches) with (id <$> matches). rewrite list_lookup_fmap, Hj.
      simpl. by rewrite Heq.
Qed.

Lemma countWhere_updateMatchStatus (p : EnrichedMatch -> bool)
      (matches : list EnrichedMatch) (matchId : string) (newStatus : MatchStatus) :
  (forall m, p (withStatus m newStatus) = p m) ->
  countWhere p (updateMatchStatus matches matchId newStatus) = countWhere p matches.
Proof.
  intros Hp. unfold updateMatchStatus. rewrite countWhere_map.
  apply countWhere_ext. intros m _. by destruct (String.eqb (id m) matchId).
Qed.

Lemma status_partition (matches : list EnrichedMatch) :
  countWhere (isStatus approved) matches + countWhere (isStatus rejected) matches
  + countWhere (isStatus suggested) matches = len matches.
Proof.
  induction matches as [|m l IH]; [done|].
  rewrite !countWhere_cons. unfold len in *. simpl length. rewrite Nat2Z.inj_succ.
  unfold isStatus in *. destruct (status m); simpl; lia.
Qed.

(** X16: reviewing never changes the totals. After any status update the
    panel shows the same number of matches, of primary and of secondary
    matches and the same average score; approved, rejected and pending
    matches always add up to the total. *)
Theorem stats_after_updateMatchStatus
        (matches : list EnrichedMatch) (matchId : string) (newStatus : MatchStatus) :
  let before := stats matches in
  let after := stats (updateMatchStatus matches matchId newStatus) in
  PanelStats.total after = PanelStats.total before
  /\ PanelStats.primary after = PanelStats.primary before
  /\ PanelStats.secondary after = PanelStats.secondary before
  /\ PanelStats.avgScore after = PanelStats.avgScore before
  /\ PanelStats.approved after + PanelStats.rejected after + PanelStats.pending after
     = PanelStats.total after.
Proof.
  cbn zeta. unfold stats.
  cbn [PanelStats.total PanelStats.primary PanelStats.secondary PanelStats.avgScore
       PanelStats.approved PanelStats.rejected PanelStats.pending].
  assert (forall s0,
             fold_left (fun sum m => sum + confidence_score m)
                       (updateMatchStatus matches matchId newStatus) s0
             = fold_left (fun sum m => sum + confidence_score m) matches s0) as Hsum.
  { unfold updateMatchStatus. induction matches as [|m l IH]; intros s0; [done|].
    simpl. rewrite IH. by destruct (String.eqb (id m) matchId). }
  assert (len (updateMatchStatus matches matchId newStatus) = len matches) as Hlen.
  { unfold len, updateMatchStatus. by rewrite length_map. }
  split; [done|]. split; [by apply countWhere_updateMatchStatus|].
  split; [by apply countWhere_updateMatchStatus|].
  split; [by rewrite Hlen, Hsum|]. apply status_partition.
Qed.

Lemma len_cons {A} (x : A) (l : list A) : len (x :: l) = 1 + len l.
Proof. unfold len. simpl length. lia. Qed.

Lemma countWhere_negb {A} (p : A -> bool) (l : list A) :
  countWhere (fun x => negb (p x)) l = len l - countWhere p l.
Proof.
  induction l as [|x l IH]; [done|]. rewrite !countWhere_cons, len_cons, IH.
  destruct (p x); simpl; lia.
Qed.

Lemma countWhere_indicator {A} (p : A -> bool) (l : list A) :
  countWhere p l = sumZ (map (fun x => if p x then 1 else 0) l).
Proof.
  induction l as [|x l IH]; [done|]. rewrite countWhere_cons, IH. done.
Qed.

Lemma sumZ_ext {A} (f g : A -> Z) (l : list A) :
  (forall x, x ∈ l -> f x = g x) -> sumZ (map f l) = sumZ (map g l).
Proof.
  induction l as [|x l IH]; intros H; [done|]. simpl.
  rewrite (H x) by (by left). rewrite IH; [done|]. intros y Hy. apply H. by right.
Qed.

(** The counts of one soldier's assignments when they carry the ranks 1, or
    1 and 2. *)
Lemma block_counts (block : list EnrichedMatch) (n : nat) :
  (1 <= n <= 2)%nat ->
  map match_rank block ≡ₚ ranksUpTo n ->
  countWhere (fun m => match_rank m =? 1) block = 1
  /\ countWhere (fun m => match_rank m =? 2) block = (if 2 <=? len block then 1 else 0)
  /\ (len block =? 1) = negb (2 <=? len block).
Proof.
  intros Hn Hperm.
  assert (len block = Z.of_nat n) as Hlen.
  { unfold len. f_equal. rewrite <- (length_map match_rank), Hperm.
    unfold ranksUpTo. by rewrite length_map, length_seq. }
  rewrite <- !(countWhere_map match_rank (fun r => r =? 1)),
          <- !(countWhere_map match_rank (fun r => r =? 2)).
  rewrite !(countWhere_Permutation _ _ _ Hperm), Hlen.
  destruct n as [|[|[|n]]]; try lia; by vm_compute.
Qed.

(** X17: the panel's statistics of a fresh run agree with the summary of the
    run. Total and average score are the summary's; every match is pending;
    the primary matches are as many as the soldiers with one or two matches,
    the secondary matches as many as the soldiers with two. *)
Theorem stats_agree_with_summary
        (students : list LocalStudent.t) (soldiers : list LocalSoldier.t) :
  exists (matches : list EnrichedMatch) (summary : MatchingSummary),
    runSecureMatchingAlgorithm students soldiers = Some (matches, summary)
    /\ PanelStats.total (stats matches) = totalMatches summary
    /\ PanelStats.avgScore (stats matches) = avgScore summary
    /\ PanelStats.pending (stats matches) = PanelStats.total (stats matches)
    /\ PanelStats.approved (stats matches) = 0
    /\ PanelStats.rejected (stats matches) = 0
    /\ PanelStats.primary (stats matches)
       = soldiersWithTwoMatches summary + soldiersWithOneMatch summary
    /\ PanelStats.secondary (stats matches) = soldiersWithTwoMatches summary
    /\ PanelStats.primary (stats matches) + PanelStats.secondary (stats matches)
       = PanelStats.total (stats matches).
Proof.
  set (l0 := result (greedyPass (findAllSecureMatches students soldiers) students)).
  set (l := sort_by byConfidenceDesc l0).
  exists l, (summarize students soldiers l).
  split; [apply runSecureMatchingAlgorithm_pipeline|].
  destruct (summarize_fields students soldiers l) as (_ & Havg & _).
  pose proof (greedyPass_inv _ students (findAllSecureMatches_wellFormed students soldiers))
    as [Hranks Hkeys _ _ _ _ _].
  fold l0 in Hranks, Hkeys.
  set (K := elements (list_to_set (map soldier_external_id l) : gset string)).
  assert (NoDup K) as Hnd by apply NoDup_elements.
  assert (HK : forall k, k ∈ K <-> k ∈ map soldier_external_id l).
  { intros k. unfold K. by rewrite elem_of_elements, elem_of_list_to_set. }
  assert (Hblock : forall k, k ∈ K ->
             exists n, (1 <= n <= 2)%nat
                       /\ map match_rank (assignmentsOf k l) ≡ₚ ranksUpTo n).
  { intros k Hk. apply HK in Hk. unfold l in Hk.
    rewrite (sort_by_perm byConfidenceDesc) in Hk.
    pose proof (assignmentsOf_present k l0 Hk) as Hne.
    apply list_elem_of_fmap in Hk as (m & -> & Hm).
    pose proof (Hkeys m Hm) as Hin.
    apply list_elem_of_fmap in Hin as ([k candidates] & Hkeq & Hentry).
    cbn [fst] in Hkeq. rewrite Hkeq in Hne |- *.
    specialize (Hranks k candidates Hentry).
    exists (Nat.min 2 (distinctStudents candidates)). split.
    - split; [|lia].
      destruct (Nat.min 2 (distinctStudents candidates)); [|lia].
      by destruct (assignmentsOf k l0).
    - rewrite <- Hranks. apply Permutation_map. unfold l.
      apply filter_Permutation', sort_by_perm. }
  assert (Hcover : forall m, m ∈ l -> soldier_external_id m ∈ K).
  { intros m Hm. apply HK, list_elem_of_fmap. by exists m. }
  assert (Hsuggested : forall m, m ∈ l -> status m = suggested).
  { intros m Hm. apply elem_of_sort_by in Hm.
    pose proof (greedyPass_fromCandidate (findAllSecureMatches students soldiers) students)
      as Hfrom.
    rewrite Forall_forall in Hfrom.
    by destruct (Hfrom m Hm) as (k & candidates & c & _ & _ & ->). }
  destruct (summarize_by_soldier students soldiers l K Hnd HK) as (Htwo & Hone & _).
  assert (Hprimary : countWhere (fun m => match_rank m =? 1) l = len K).
  { rewrite (countWhere_by_key _ K l Hnd Hcover), (sumZ_const _ 1); [lia|].
    intros k Hk. destruct (Hblock k Hk) as (n & Hn & Hperm).
    by destruct (block_counts _ n Hn Hperm) as (-> & _). }
  assert (Hsecondary : countWhere (fun m => match_rank m =? 2) l
                       = countWhere (fun k => 2 <=? len (assignmentsOf k l)) K).
  { rewrite (countWhere_by_key _ K l Hnd Hcover), countWhere_indicator.
    apply sumZ_ext. intros k Hk. destruct (Hblock k Hk) as (n & Hn & Hperm).
    by destruct (block_counts _ n Hn Hperm) as (_ & -> & _). }
  assert (Hone' : countWhere (fun k => len (assignmentsOf k l) =? 1) K
                  = len K - countWhere (fun k => 2 <=? len (assignmentsOf k l)) K).
  { rewrite (countWhere_ext _ (fun k => negb (2 <=? len (assignmentsOf k l))) K).
    - apply countWhere_negb.
    - intros k Hk. destruct (Hblock k Hk) as (n & Hn & Hperm).
      by destruct (block_counts _ n Hn Hperm) as (_ & _ & ->). }
  unfold stats.
  cbn [PanelStats.total PanelStats.primary PanelStats.secondary PanelStats.avgScore
       PanelStats.approved PanelStats.rejected PanelStats.pending].
  rewrite summarize_totalMatches, Havg, Htwo, Hone, Hone', Hprimary, Hsecondary.
  split; [done|]. split; [done|].
  split; [|split; [|split; [|split; [lia|split; [done|]]]]].
  - rewrite <- countWhere_true. apply countWhere_ext. intros m Hm.
    unfold isStatus. by rewrite (Hsuggested m Hm).
  - rewrite <- (countWhere_false l). apply countWhere_ext. intros m Hm.
    unfold isStatus. by rewrite (Hsuggested m Hm).
  - rewrite <- (countWhere_false l). apply countWhere_ext. intros m Hm.
    unfold isStatus. by rewrite (Hsuggested m Hm).
  - rewrite <- Hprimary, <- Hsecondary.
    assert (Forall (fun m => match_rank m = 1 \/ match_rank m = 2) l) as H12.
    { pose proof (greedyPass_inv _ students
                    (findAllSecureMatches_wellFormed students soldiers))
        as [_ _ _ _ _ _ H12].
      apply Forall_forall. intros m Hm. apply elem_of_sort_by in Hm.
      rewrite Forall_forall in H12. by apply H12. }
    clear -H12. induction H12 as [|m l' Hm _ IH]; [done|].
    rewrite !countWhere_cons, len_cons.
    destruct Hm as [-> | ->]; simpl; lia.
Qed.

(** *** The filtered view *)

Lemma filter_filter {A} (p q : A -> bool) (l : list A) :
  List.filter q (List.filter p l) = List.filter (fun x => p x && q x) l.
Proof.
  induction l as [|x l IH]; [done|]. simpl.
  destruct (p x); simpl; [|done]. destruct (q x); by rewrite IH.
Qed.

Lemma filter_true {A} (l : list A) : List.filter (fun _ => true) l = l.
Proof. induction l as [|x l IH]; simpl; congruence. Qed.

Lemma filter_ext' {A} (p q : A -> bool) (l : list A) :
  (forall x, p x = q x) -> List.filter p l = List.filter q l.
Proof. intros H. induction l as [|x l IH]; simpl; [done|]. by rewrite H, IH. Qed.

(** The three filters, as one. *)
Lemma filteredMatches_unfold (stringLess : string -> string -> bool)
      (parseInt : string -> option Z) (matches : list EnrichedMatch)
      (filterStatus filterRank : string) (minScore : Z)
      (sortField : SortField) (sortOrder : SortOrder) :
  filteredMatches stringLess parseInt matches filterStatus filterRank minScore
                  sortField sortOrder
  = sort_by (panelCompare stringLess sortField sortOrder)
            (List.filter (passesFilters parseInt filterStatus filterRank minScore) matches).
Proof.
  unfold filteredMatches, passesFilters. f_equal. cbv zeta.
  destruct (String.eqb filterStatus ""), (String.eqb filterRank ""), (0 <? minScore);
    cbn [negb orb andb]; rewrite ?filter_filter;
    first [ apply filter_ext'; intros m; by rewrite ?andb_true_r, ?andb_assoc
          | symmetry; apply filter_true ].
Qed.

Lemma panelCompare_total (stringLess : string -> string -> bool)
      (sortField : SortField) (sortOrder : SortOrder) :
  sortField = by_confidence_score \/ sortField = by_match_rank ->
  forall x y, 0 < panelCompare stringLess sortField sortOrder x y ->
              panelCompare stringLess sortField sortOrder y x <= 0.
Proof.
  intros [-> | ->] x y; unfold panelCompare, sortValueLess;
    repeat match goal with
           | |- context [?a <? ?b] => destruct (Z.ltb_spec a b)
           end; destruct sortOrder; lia.
Qed.

Lemma panelCompare_trans (stringLess : string -> string -> bool)
      (sortField : SortField) (sortOrder : SortOrder) :
  sortField = by_confidence_score \/ sortField = by_match_rank ->
  forall x y z, panelCompare stringLess sortField sortOrder x y <= 0 ->
                panelCompare stringLess sortField sortOrder y z <= 0 ->
                panelCompare stringLess sortField sortOrder x z <= 0.
Proof.
  intros [-> | ->] x y z; unfold panelCompare, sortValueLess;
    repeat match goal with
           | |- context [?a <? ?b] => destruct (Z.ltb_spec a b)
           end; destruct sortOrder; lia.
Qed.

(** X18: the panel shows exactly the matches that pass the active filters,
    each as often as the list has it, whatever the sort; sorted by score or by
    rank the rows are in ascending or descending order as chosen. *)
Theorem filteredMatches_shows_what_passes
        (stringLess : string -> string -> bool) (parseInt : string -> option Z)
        (matches : list EnrichedMatch) (filterStatus filterRank : string) (minScore : Z)
        (sortField : SortField) (sortOrder : SortOrder) :
  let shown := filteredMatches stringLess parseInt matches filterStatus filterRank
                               minScore sortField sortOrder in
  let value m := match sortField with
                 | by_match_rank => match_rank m
                 | _ => confidence_score m
                 end in
  shown ≡ₚ List.filter (passesFilters parseInt filterStatus filterRank minScore) matches
  /\ (forall m, m ∈ shown
                <-> m ∈ matches
                    /\ passesFilters parseInt filterStatus filterRank minScore m = true)
  /\ (sortField = by_confidence_score \/ sortField = by_match_rank ->
      StronglySorted (fun a b => match sortOrder with
                                 | asc => value a <= value b
                                 | desc => value b <= value a
                                 end) shown).
Proof.
  cbv zeta. rewrite filteredMatches_unfold. split; [apply sort_by_perm|]. split.
  - intros m. rewrite elem_of_sort_by, !list_elem_of_In. apply List.filter_In.
  - intros Hfield.
    eapply StronglySorted_weaken;
      [|apply (sort_by_sorted _ (panelCompare_total stringLess sortField sortOrder Hfield)
                              (panelCompare_trans stringLess sortField sortOrder Hfield))].
    intros a b. destruct Hfield as [-> | ->]; unfold panelCompare, sortValueLess;
      repeat match goal with
             | |- context [?a <? ?b] => destruct (Z.ltb_spec a b)
             end; destruct sortOrder; lia.
Qed.

Lemma sort_by_sorted_id {A} (cmp : A -> A -> Z) (l : list A) :
  StronglySorted (fun a b => cmp a b <= 0) l -> sort_by cmp l = l.
Proof.
  induction 1 as [|x l Hl IH Hx]; [done|].
  cbn [sort_by foldr]. fold (sort_by cmp l). rewrite IH.
  destruct Hx as [|y l' Hy _]; simpl; [done|].
  by rewrite (proj2 (Z.leb_le _ _) Hy).
Qed.

(** X19: with no filter set and the default sort, by score descending, the
    panel shows the list of a run exactly as the run returned it. *)
Theorem filteredMatches_default_view
        (students : list LocalStudent.t) (soldiers : list LocalSoldier.t) :
  exists (matches : list EnrichedMatch) (summary : MatchingSummary),
    runSecureMatchingAlgorithm students soldiers = Some (matches, summary)
    /\ forall (stringLess : string -> string -> bool) (parseInt : string -> option Z),
        filteredMatches stringLess parseInt matches "" "" 0 by_confidence_score desc
        = matches.
Proof.
  eexists _, _. split; [apply runSecureMatchingAlgorithm_pipeline|].
  intros stringLess parseInt. rewrite filteredMatches_unfold.
  rewrite (filter_ext' _ (fun _ => true)), filter_true by done.
  apply sort_by_sorted_id.
  eapply StronglySorted_weaken;
    [|apply (sort_by_sorted byConfidenceDesc byConfidenceDesc_total
                            byConfidenceDesc_trans)].
  intros a b. unfold byConfidenceDesc, panelCompare, sortValueLess.
  repeat match goal with
         | |- context [?a <? ?b] => destruct (Z.ltb_spec a b)
         end; lia.
Qed.

(** ** The capacity-enforcing allocator, one soldier *)

Lemma assignRespectingCapacity_full (candidates : list MatchCandidate)
      (assigned : list EnrichedMatch) (counts : gmap string Z) (n : nat) :
  2 <= len assigned ->
  assignRespectingCapacity candidates assigned counts n = (assigned, counts, n).
Proof.
  intros H. destruct candidates as [|c rest]; [done|]. cbn [assignRespectingCapacity].
  by rewrite (proj2 (Z.leb_le _ _) H).
Qed.

(** The first pass after its first assignment: the next candidate of another
    student with capacity left takes rank 2. *)
Lemma assignRespectingCapacity_second (candidates : list MatchCandidate) :
  forall (m1 : EnrichedMatch) (counts counts' : gmap string Z) (n : nat) (c : MatchCandidate),
    (forall x, x <> student_external_id m1 -> count_of counts' x = count_of counts x) ->
    c ∈ candidates ->
    studentIdOf c <> student_external_id m1 ->
    hasCapacity counts c = true ->
    exists cb idb counts'' n',
      assignRespectingCapacity candidates [m1] counts' n
      = ([m1; matchOfCandidate idb cb 2], counts'', n')
      /\ cb ∈ candidates
      /\ studentIdOf cb <> student_external_id m1
      /\ hasCapacity counts cb = true.
Proof.
  induction candidates as [|h rest IH]; intros m1 counts counts' n c Hsame Hc Hne Hcap.
  { by apply elem_of_nil in Hc. }
  cbn [assignRespectingCapacity]. change (2 <=? len [m1]) with false. lazy iota.
  cbn [alreadyAssigned existsb orb].
  destruct (String.eqb_spec (student_external_id m1) (LocalStudent.contact_id (student h)))
    as [Heq|Hdiff]; cbn [orb].
  - apply elem_of_cons in Hc as [->|Hc]; [by rewrite Heq in Hne|].
    destruct (IH m1 counts counts' n c Hsame Hc Hne Hcap)
      as (cb & idb & counts'' & n' & Hrun & Hcb & Hcbne & Hcbcap).
    exists cb, idb, counts'', n'. split; [done|]. split; [by right | done].
  - destruct (count_of counts' (LocalStudent.contact_id (student h))
              <? (if LocalStudent.is_scholarship_active (student h) then 2 else 4))
      eqn:Hh.
    + lazy zeta. change (len [m1] + 1) with 2. change (2 =? 1) with false. lazy iota.
      rewrite assignRespectingCapacity_full by (by vm_compute).
      eexists h, _, _, _. split; [reflexivity|]. split; [by left|].
      split; [by intros ?|].
      unfold hasCapacity. by rewrite <- (Hsame _ (not_eq_sym Hdiff)).
    + apply elem_of_cons in Hc as [->|Hc].
      { unfold hasCapacity in Hcap.
        rewrite <- (Hsame (LocalStudent.contact_id (student h)) Hne) in Hcap.
        congruence. }
      destruct (IH m1 counts counts' n c Hsame Hc Hne Hcap)
        as (cb & idb & counts'' & n' & Hrun & Hcb & Hcbne & Hcbcap).
      exists cb, idb, counts'', n'. split; [done|]. split; [by right | done].
Qed.

Lemma assignRespectingCapacity_two (candidates : list MatchCandidate) :
  forall (counts : gmap string Z) (n : nat) (c1 c2 : MatchCandidate),
    c1 ∈ candidates -> c2 ∈ candidates ->
    studentIdOf c1 <> studentIdOf c2 ->
    hasCapacity counts c1 = true -> hasCapacity counts c2 = true ->
    exists ca cb ida idb counts' n',
      assignRespectingCapacity candidates [] counts n
      = ([matchOfCandidate ida ca 1; matchOfCandidate idb cb 2], counts', n')
      /\ ca ∈ candidates /\ cb ∈ candidates
      /\ studentIdOf ca <> studentIdOf cb
      /\ hasCapacity counts ca = true /\ hasCapacity counts cb = true.
Proof.
  induction candidates as [|h rest IH]; intros counts n c1 c2 H1 H2 Hne Hcap1 Hcap2.
  { by apply elem_of_nil in H1. }
  cbn [assignRespectingCapacity]. change (2 <=? len (@nil EnrichedMatch)) with false.
  lazy iota. cbn [alreadyAssigned existsb].
  destruct (count_of counts (LocalStudent.contact_id (student h))
            <? (if LocalStudent.is_scholarship_active (student h) then 2 else 4)) eqn:Hh.
  - lazy zeta. change (len (@nil EnrichedMatch) + 1) with 1. change (1 =? 1) with true.
    lazy iota. cbn [app].
    assert (exists c, c ∈ rest /\ studentIdOf c <> studentIdOf h
                      /\ hasCapacity counts c = true) as (c & Hc & Hcne & Hccap).
    { destruct (decide (studentIdOf c1 = studentIdOf h)) as [Heq|Hdiff].
      - exists c2. split; [|split; [congruence | done]].
        apply elem_of_cons in H2 as [->|H2]; [congruence | done].
      - exists c1. split; [|by split].
        apply elem_of_cons in H1 as [->|H1]; [done | done]. }
    match goal with
    | |- context [assignRespectingCapacity rest [?m1] ?counts' ?n'] =>
        destruct (assignRespectingCapacity_second rest m1 counts counts' n' c)
          as (cb & idb & counts'' & n'' & Hrun & Hcb & Hcbne & Hcbcap)
    end; try done.
    { intros x Hx. rewrite count_of_insert. by case_decide. }
    eexists h, cb, _, idb, counts'', n''. split; [exact Hrun|].
    split; [by left|]. split; [by right|].
    split; [by intros ?|]. done.
  - assert (c1 ∈ rest /\ c2 ∈ rest) as [H1' H2'].
    { unfold hasCapacity in Hcap1, Hcap2. split.
      - apply elem_of_cons in H1 as [->|H1]; [congruence | done].
      - apply elem_of_cons in H2 as [->|H2]; [congruence | done]. }
    destruct (IH counts n c1 c2 H1' H2' Hne Hcap1 Hcap2)
      as (ca & cb & ida & idb & counts' & n' & Hrun & Ha & Hb & Hrest).
    exists ca, cb, ida, idb, counts', n'. split; [done|].
    split; [by right|]. split; [by right | done].
Qed.

(** X20: the capacity-enforcing allocator does not overload when it need
    not. A soldier with two candidates of different students who both have
    capacity left gets its two matches from candidates with capacity left;
    the force pass adds nothing. *)
Theorem assignSoldier_capacity_within_capacity
        (st : AllocState) (candidates : list MatchCandidate) (c1 c2 : MatchCandidate) :
  c1 ∈ candidates -> c2 ∈ candidates ->
  studentIdOf c1 <> studentIdOf c2 ->
  hasCapacity (studentAssignments st) c1 = true ->
  hasCapacity (studentAssignments st) c2 = true ->
  exists ca cb ida idb,
    result (assignSoldier_capacity st candidates)
    = result st ++ [matchOfCandidate ida ca 1; matchOfCandidate idb cb 2]
    /\ ca ∈ candidates /\ cb ∈ candidates
    /\ studentIdOf ca <> studentIdOf cb
    /\ hasCapacity (studentAssignments st) ca = true
    /\ hasCapacity (studentAssignments st) cb = true.
Proof.
  intros H1 H2 Hne Hcap1 Hcap2. unfold assignSoldier_capacity.
  destruct (Z.eqb_spec (len candidates) 0) as [Hz|_].
  { destruct candidates; [by apply elem_of_nil in H1|]. unfold len in Hz. simpl in Hz. lia. }
  destruct (assignRespectingCapacity_two candidates (studentAssignments st) (drawn st)
              c1 c2 H1 H2 Hne Hcap1 Hcap2)
    as (ca & cb & ida & idb & counts' & n' & -> & Hrest).
  change (len [matchOfCandidate ida ca 1; matchOfCandidate idb cb 2] <? 2) with false.
  lazy iota. cbn [result]. by exists ca, cb, ida, idb.
Qed.

End Matching.

(** ** Two runs differ by the drawn identifiers only *)

Section Determinism.
Variable getCityDistance : string -> string -> option float.
Variable randomUUID : nat -> string.

Lemma len_map {A B} (f : A -> B) (l : list A) : len (map f l) = len l.
Proof. unfold len. by rewrite length_map. Qed.

Lemma alreadyAssigned_eraseId (assigned : list EnrichedMatch) (studentId : string) :
  alreadyAssigned (map eraseId assigned) studentId = alreadyAssigned assigned studentId.
Proof.
  unfold alreadyAssigned. induction assigned as [|m l IH]; simpl; [done|]. by rewrite IH.
Qed.

Lemma assignFromSorted_eraseId (candidates : list MatchCandidate)
      (assigned : list EnrichedMatch) (counts : gmap string Z) (n : nat) :
  assignFromSorted blankUUID candidates (map eraseId assigned) counts n
  = let '(a, c, k) := assignFromSorted randomUUID candidates assigned counts n in
    (map eraseId a, c, k).
Proof.
  revert assigned counts n.
  induction candidates as [|c rest IH]; intros assigned counts n; [done|].
  cbn [assignFromSorted]. rewrite len_map, alreadyAssigned_eraseId.
  destruct (2 <=? len assigned); [done|].
  destruct (alreadyAssigned assigned _); [apply IH|].
  rewrite <- IH. by rewrite map_app.
Qed.

Lemma assignSoldier_eraseIds (st : AllocState) (candidates : list MatchCandidate) :
  assignSoldier blankUUID (eraseIds st) candidates
  = eraseIds (assignSoldier randomUUID st candidates).
Proof.
  unfold assignSoldier. destruct (len candidates =? 0); [done|].
  cbn [eraseIds studentAssignments drawn result].
  pose proof (assignFromSorted_eraseId
                (sort_by (byLoadThenScore (studentAssignments st)) candidates)
                [] (studentAssignments st) (drawn st)) as H.
  simpl map in H. rewrite H.
  destruct (assignFromSorted randomUUID _ _ _ _) as [[a c] k].
  unfold eraseIds. cbn [result studentAssignments drawn]. by rewrite map_app.
Qed.

Lemma greedyPass_eraseIds (matchesBySoldier : JSMap.t (list MatchCandidate))
      (students : list LocalStudent.t) :
  greedyPass blankUUID matchesBySoldier students
  = eraseIds (greedyPass randomUUID matchesBySoldier students).
Proof.
  unfold greedyPass.
  set (st0 := {| result := []; studentAssignments := initialCounts students;
                 drawn := 0 |}).
  change st0 with (eraseIds st0) at 1. generalize st0.
  induction (soldiersWithOptions matchesBySoldier) as [|entry l IH]; intros st; [done|].
  simpl. rewrite assignSoldier_eraseIds. apply IH.
Qed.

Lemma scanSwap_eraseId (counts : gmap string Z) (rest : list EnrichedMatch)
      (i bestSwapIdx bestOverload : Z) :
  scanSwap counts i (map eraseId rest) bestSwapIdx bestOverload
  = scanSwap counts i rest bestSwapIdx bestOverload.
Proof.
  revert i bestSwapIdx bestOverload.
  induction rest as [|m l IH]; intros i b o; [done|].
  simpl. by rewrite !IH.
Qed.

Lemma swapIn_eraseIds (st : AllocState) (u : LocalStudent.t) :
  swapIn getCityDistance blankUUID (eraseIds st) u
  = eraseIds <$> swapIn getCityDistance randomUUID st u.
Proof.
  unfold swapIn. cbn [eraseIds result studentAssignments drawn].
  rewrite scanSwap_eraseId.
  destruct (scanSwap (studentAssignments st) 0 (result st) (-1) 0) as [idx overload].
  destruct (_ && _); [|done].
  change (map eraseId (result st)) with (eraseId <$> result st).
  rewrite list_lookup_fmap.
  destruct (result st !! Z.to_nat idx) as [oldMatch|]; [|done].
  simpl. destruct (em_soldier oldMatch) as [soldier|]; [|done].
  simpl. unfold eraseIds. simpl. by rewrite list_fmap_insert.
Qed.

Lemma forEachUnused_eraseIds (unusedStudents : list LocalStudent.t) (st : AllocState) :
  forEachUnused getCityDistance blankUUID unusedStudents (eraseIds st)
  = eraseIds <$> forEachUnused getCityDistance randomUUID unusedStudents st.
Proof.
  revert st. induction unusedStudents as [|u l IH]; intros st; [done|].
  simpl. rewrite swapIn_eraseIds.
  destruct (swapIn getCityDistance randomUUID st u) as [st'|]; [|done].
  simpl. apply IH.
Qed.

Lemma usedStudentIdsOf_eraseId (assignments : list EnrichedMatch) :
  usedStudentIdsOf (map eraseId assignments) = usedStudentIdsOf assignments.
Proof. unfold usedStudentIdsOf. by rewrite map_map. Qed.

Lemma finalPass_eraseIds (st : AllocState) (students : list LocalStudent.t) :
  finalPass getCityDistance blankUUID (eraseIds st) students
  = eraseIds <$> finalPass getCityDistance randomUUID st students.
Proof.
  unfold finalPass, unusedStudentsOf. cbn [eraseIds result].
  rewrite usedStudentIdsOf_eraseId.
  destruct (0 <? _); [apply forEachUnused_eraseIds | done].
Qed.

Lemma optimizeSecureMatches_eraseId (matchesBySoldier : JSMap.t (list MatchCandidate))
      (students : list LocalStudent.t) :
  optimizeSecureMatches getCityDistance blankUUID matchesBySoldier students
  = map eraseId <$> optimizeSecureMatches getCityDistance randomUUID
                                          matchesBySoldier students.
Proof.
  unfold optimizeSecureMatches.
  rewrite greedyPass_eraseIds, finalPass_eraseIds.
  by destruct (finalPass getCityDistance randomUUID _ students).
Qed.

Lemma countWhere_eraseId (p : EnrichedMatch -> bool) (l : list EnrichedMatch) :
  (forall m, p (eraseId m) = p m) ->
  countWhere p (map eraseId l) = countWhere p l.
Proof.
  intros Hp. unfold countWhere, len. f_equal.
  induction l as [|m l IH]; simpl; [done|]. rewrite Hp.
  destruct (p m); simpl; by rewrite IH.
Qed.

Lemma summarize_eraseId (students : list LocalStudent.t) (soldiers : list LocalSoldier.t)
      (optimizedMatches : list EnrichedMatch) :
  summarize students soldiers (map eraseId optimizedMatches)
  = summarize students soldiers optimizedMatches.
Proof.
  unfold summarize.
  assert (tally (map eraseId optimizedMatches) = tally optimizedMatches) as ->.
  { unfold tally. generalize ((∅, ∅) : gmap string Z * gset string).
    induction optimizedMatches as [|m l IH]; intros acc; [done|]. simpl. apply IH. }
  assert (fold_left (fun s m => s + confidence_score m) (map eraseId optimizedMatches) 0
          = fold_left (fun s m => s + confidence_score m) optimizedMatches 0) as ->.
  { generalize 0. induction optimizedMatches as [|m l IH]; intros z; [done|].
    simpl. apply IH. }
  rewrite len_map, !countWhere_eraseId by done. reflexivity.
Qed.

Lemma runSecureMatchingAlgorithm_eraseId (students : list LocalStudent.t)
      (soldiers : list LocalSoldier.t) :
  runSecureMatchingAlgorithm getCityDistance blankUUID students soldiers
  = (fun r => (map eraseId (fst r), snd r))
      <$> runSecureMatchingAlgorithm getCityDistance randomUUID students soldiers.
Proof.
  unfold runSecureMatchingAlgorithm. rewrite optimizeSecureMatches_eraseId.
  destruct (optimizeSecureMatches getCityDistance randomUUID _ students) as [a|]; [|done].
  simpl.
  rewrite <- (sort_by_map eraseId byConfidenceDesc byConfidenceDesc) by done.
  by rewrite summarize_eraseId.
Qed.

End Determinism.

(** C9, as the code has it: two runs on the same students and soldiers, with
    the same distance service, return; their summaries are equal and their
    assignment lists are equal once the [id] field, drawn afresh for every
    assignment, is blanked. *)
Theorem runSecureMatchingAlgorithm_deterministic_up_to_ids
        (getCityDistance : string -> string -> option float)
        (uuid1 uuid2 : nat -> string)
        (students : list LocalStudent.t) (soldiers : list LocalSoldier.t) :
  exists (matches1 matches2 : list EnrichedMatch) (summary : MatchingSummary),
    runSecureMatchingAlgorithm getCityDistance uuid1 students soldiers
    = Some (matches1, summary)
    /\ runSecureMatchingAlgorithm getCityDistance uuid2 students soldiers
       = Some (matches2, summary)
    /\ map eraseId matches1 = map eraseId matches2.
Proof.
  pose proof (runSecureMatchingAlgorithm_eraseId getCityDistance uuid1 students soldiers)
    as H1.
  pose proof (runSecureMatchingAlgorithm_eraseId getCityDistance uuid2 students soldiers)
    as H2.
  destruct (runSecureMatchingAlgorithm_returns
              getCityDistance uuid1 students soldiers) as (a1 & _ & Hr1).
  destruct (runSecureMatchingAlgorithm_returns
              getCityDistance uuid2 students soldiers) as (a2 & _ & Hr2).
  rewrite Hr1 in H1. rewrite Hr2 in H2. rewrite H1 in H2. simpl in H2.
  injection H2 as Hm Hs.
  eexists _, _, _. split; [exact Hr1|]. split; [|exact Hm].
  by rewrite Hr2, Hs.
Qed.

(** X21: what a run uploads does not depend on the identifiers drawn. The
    cloud copy of an assignment keeps score, rank, criteria and status and
    blanks both external identifiers, so two assignments that agree on these
    four have the same copy, and two runs on the same input upload the same
    list. *)
Theorem toSecureMatch_upload_deterministic
        (getCityDistance : string -> string -> option float)
        (uuid1 uuid2 : nat -> string)
        (students : list LocalStudent.t) (soldiers : list LocalSoldier.t) :
  (forall m1 m2 : EnrichedMatch,
      toSecureMatch m1 = toSecureMatch m2
      <-> confidence_score m1 = confidence_score m2
          /\ match_rank m1 = match_rank m2
          /\ match_criteria m1 = match_criteria m2
          /\ status m1 = status m2)
  /\ exists (matches1 matches2 : list EnrichedMatch) (summary : MatchingSummary),
      runSecureMatchingAlgorithm getCityDistance uuid1 students soldiers
      = Some (matches1, summary)
      /\ runSecureMatchingAlgorithm getCityDistance uuid2 students soldiers
         = Some (matches2, summary)
      /\ map toSecureMatch matches1 = map toSecureMatch matches2.
Proof.
  split.
  - intros m1 m2. unfold toSecureMatch. split.
    + intros [= H1 H2 H3 H4]. done.
    + intros (-> & -> & -> & ->). done.
  - pose proof (runSecureMatchingAlgorithm_eraseId getCityDistance uuid1 students soldiers)
      as H1.
    pose proof (runSecureMatchingAlgorithm_eraseId getCityDistance uuid2 students soldiers)
      as H2.
    destruct (runSecureMatchingAlgorithm_returns
                getCityDistance uuid1 students soldiers) as (a1 & _ & Hr1).
    destruct (runSecureMatchingAlgorithm_returns
                getCityDistance uuid2 students soldiers) as (a2 & _ & Hr2).
    rewrite Hr1 in H1. rewrite Hr2 in H2. rewrite H1 in H2. simpl in H2.
    injection H2 as Hm Hs.
    eexists _, _, _. split; [exact Hr1|]. split; [by rewrite Hr2, Hs|].
    apply (f_equal (map toSecureMatch)) in Hm.
    by rewrite !map_map in Hm.
Qed.

Lemma wellFormedb_sound (matchesBySoldier : JSMap.t (list MatchCandidate)) :
  wellFormedb matchesBySoldier = true -> wellFormed matchesBySoldier.
Proof.
  unfold wellFormedb. intros [Hnd Hall]%andb_true_iff.
  split; [by apply bool_decide_eq_true in Hnd|].
  intros k candidates c Hin Hc.
  rewrite forallb_forall in Hall.
  specialize (Hall (k, candidates) (proj1 (list_elem_of_In _ _) Hin)). simpl in Hall.
  rewrite forallb_forall in Hall.
  specialize (Hall c (proj1 (list_elem_of_In _ _) Hc)).
  by apply String.eqb_eq in Hall.
Qed.

(** ** The properties at the sample inputs *)

(** The scarce map holds the scores the scoring function gives. *)
Example sampleScarceMap_scored :
  sampleScarceMap
  = JSMap.set "Z" (scoreAll sampleDistance [studentB; studentA] soldierZ)
              (findAllSecureMatches sampleDistance [studentA] [soldierX; soldierY]).
Proof. vm_compute. reflexivity. Qed.

(** The sort keeps the order of the elements its comparator does not
    separate. *)
Example sort_by_stable :
  sort_by (fun a b => fst a - fst b) [(2, "a"); (1, "b"); (2, "c"); (1, "d")]
  = [(1, "b"); (1, "d"); (2, "a"); (2, "c")].
Proof. reflexivity. Qed.

(** Why the identifiers of the students must not be repeated for a swap to
    add a student for good: here the record of U comes twice, U is put in
    twice, its counter reaches 2, and the students V and W then evict it
    from both slots. *)
Example optimizeSecureMatches_repeated_student_evicted :
  map brief <$> optimizeSecureMatches sampleDistance upperUUID sampleOverloadMap
                  [studentA; studentB; studentU; studentU; studentV; studentW]
  = Some [("A", "A", "X1", 10, 1); ("B", "A", "X2", 10, 1); ("C", "A", "X3", 10, 1);
          ("D", "B", "Z1", 10, 1); ("J", "V", "Z1", 10, 2);
          ("F", "B", "Z2", 10, 1); ("K", "W", "Z2", 10, 2)].
Proof. vm_compute. reflexivity. Qed.

(** The end-to-end scenario: student A (Hebrew, Tel Aviv, female) and student
    B (Russian, Haifa, male) for one soldier (Hebrew, Tel Aviv, prefers a
    female volunteer). *)
Example runSecureMatchingAlgorithm_scenario :
  (fun r => (map brief (fst r), snd r))
    <$> runSecureMatchingAlgorithm sampleDistance upperUUID [studentA; studentB] [soldierX]
  = Some ([("A", "A", "X", 100, 1); ("B", "B", "X", 1, 2)],
          {| totalStudents := 2; totalSoldiers := 1; totalMatches := 2;
             soldiersWithTwoMatches := 1; soldiersWithOneMatch := 0;
             soldiersWithNoMatch := 0; studentsUsed := 2; studentsNotUsed := 0;
             avgScore := 51; highScoreMatches := 1; mediumScoreMatches := 0;
             lowScoreMatches := 1 |}).
Proof. vm_compute. reflexivity. Qed.

(** On the scarce map student A takes rank 1 twice; the final pass then gives
    the rank-2 slot that A holds for soldier Z to the unused student U. *)
Example optimizeSecureMatches_swaps_in_unused_student :
  map brief (result (greedyPass upperUUID sampleScarceMap
                                [studentA; studentB; studentU]))
  = [("A", "A", "X", 100, 1); ("B", "A", "Y", 1, 1);
     ("C", "B", "Z", 40, 1); ("D", "A", "Z", 60, 2)]
  /\ map brief <$> optimizeSecureMatches sampleDistance upperUUID sampleScarceMap
                                         [studentA; studentB; studentU]
     = Some [("A", "A", "X", 100, 1); ("B", "A", "Y", 1, 1);
             ("C", "B", "Z", 40, 1); ("E", "U", "Z", 10, 2)].
Proof. split; vm_compute; reflexivity. Qed.

Lemma optimizeSecureMatches_serves_each_soldier_witness :
  wellFormed sampleScarceMap
  /\ ((exists assignments,
          optimizeSecureMatches sampleDistance upperUUID sampleScarceMap
                                [studentA; studentB; studentU] = Some assignments
          /\ eachSoldierServed sampleScarceMap assignments)
      /\ eachSoldierServed sampleScarceMap
           (optimizeSecureMatches_capacity upperUUID sampleScarceMap
                                           [studentA; studentB; studentU])).
Proof.
  assert (wellFormed sampleScarceMap) as Hwf.
  { apply wellFormedb_sound. vm_compute. reflexivity. }
  split; [exact Hwf|].
  exact (optimizeSecureMatches_serves_each_soldier
           sampleDistance upperUUID sampleScarceMap [studentA; studentB; studentU] Hwf).
Defined.

Lemma calculateSecureMatch_score_range_witness :
  (0 <= getDistanceScore sampleDistance (or_empty (LocalStudent.city studentB))
                         (or_empty (LocalSoldier.city soldierX)) <= 100)%Q
  /\ exists c : MatchCandidate,
      calculateSecureMatch sampleDistance studentB soldierX = Some c
      /\ 1 <= score c <= 100.
Proof.
  assert (0 <= getDistanceScore sampleDistance (or_empty (LocalStudent.city studentB))
                                (or_empty (LocalSoldier.city soldierX)) <= 100)%Q as Hd.
  { vm_compute. split; discriminate. }
  split; [exact Hd|].
  exact (calculateSecureMatch_score_range sampleDistance studentB soldierX Hd).
Defined.

Lemma findAllSecureMatches_all_sorted_witness :
  soldierY ∈ [soldierX; soldierY]
  /\ exists candidates,
      JSMap.get "Y" (findAllSecureMatches sampleDistance
                       [studentA; studentB; studentU] [soldierX; soldierY])
      = Some candidates
      /\ map studentIdOf candidates = ["B"; "U"; "A"]
      /\ map score candidates = [100; 10; 1].
Proof.
  assert (soldierY ∈ [soldierX; soldierY]) as Hin.
  { right. left. }
  split; [exact Hin|].
  destruct (findAllSecureMatches_all_sorted
              sampleDistance [studentA; studentB; studentU] [soldierX; soldierY]
              soldierY Hin) as [(owner & candidates & Hget & _) _].
  exists candidates. split; [exact Hget|].
  vm_compute in Hget. injection Hget as <-. split; reflexivity.
Defined.

Lemma optimizeSecureMatches_no_repeated_pair_witness :
  wellFormed sampleScarceMap
  /\ exists assignments,
      optimizeSecureMatches sampleDistance upperUUID sampleScarceMap
                            [studentA; studentB; studentU] = Some assignments
      /\ NoDup (map pairOf assignments).
Proof.
  assert (wellFormed sampleScarceMap) as Hwf.
  { apply wellFormedb_sound. vm_compute. reflexivity. }
  split; [exact Hwf|].
  destruct (optimizeSecureMatches_no_repeated_pair
              sampleDistance upperUUID sampleScarceMap [studentA; studentB; studentU] Hwf)
    as (_ & assignments & Hopt & Hnd & _).
  by exists assignments.
Defined.

Lemma runSecureMatchingAlgorithm_empty_input_witness :
  (([] : list LocalStudent.t) = [] \/ [soldierX] = [])
  /\ runSecureMatchingAlgorithm sampleDistance upperUUID [] [soldierX]
     = Some ([], emptySummary 0 1).
Proof.
  split; [by left|].
  exact (runSecureMatchingAlgorithm_empty_input
           sampleDistance upperUUID [] [soldierX] (or_introl eq_refl)).
Defined.

(** With eleven students the capacity-enforcing generator files ten of them:
    the entry is not a rearrangement of the students. *)
Lemma findAllSecureMatches_capacity_drops_candidates :
  ~ exists candidates,
      JSMap.get "X" (findAllSecureMatches_capacity sampleDistance elevenStudents
                                                   [soldierX])
      = Some candidates
      /\ map student candidates ≡ₚ elevenStudents.
Proof.
  intros (candidates & Hget & Hperm).
  apply Permutation_length in Hperm. rewrite length_map in Hperm.
  assert (length <$> JSMap.get "X" (findAllSecureMatches_capacity
                                      sampleDistance elevenStudents [soldierX])
          = Some 10%nat) as Hlen.
  { vm_compute. reflexivity. }
  rewrite Hget in Hlen. simpl in Hlen. injection Hlen as Hlen.
  rewrite Hlen in Hperm. vm_compute in Hperm. discriminate.
Qed.

(** With no student and one soldier the summary counts one soldier, and one
    soldier without match. *)
Lemma runSecureMatchingAlgorithm_empty_input_counts_soldiers :
  ~ exists summary,
      runSecureMatchingAlgorithm sampleDistance upperUUID [] [soldierX]
      = Some ([], summary)
      /\ allCountsZero summary.
Proof.
  intros (summary & Hrun & Hzero).
  assert (soldiersWithNoMatch summary = 1) as Hone.
  { vm_compute in Hrun. by injection Hrun as <-. }
  destruct Hzero as (_ & _ & _ & _ & _ & Hnone & _). lia.
Qed.

(** Two runs on the same input whose identifier draws differ return
    different records. *)
Lemma runSecureMatchingAlgorithm_ids_differ :
  runSecureMatchingAlgorithm sampleDistance upperUUID [studentA] [soldierX]
  <> runSecureMatchingAlgorithm sampleDistance lowerUUID [studentA] [soldierX].
Proof.
  intros Heq.
  apply (f_equal (fun r => (fun x => map id (fst x)) <$> r)) in Heq.
  vm_compute in Heq. discriminate.
Qed.

(** *** Further sample runs *)

Lemma calculateSecureMatch_integer_table_witness :
  exists c : MatchCandidate,
    calculateSecureMatch sampleDistance studentB soldierX = Some c
    /\ exists n : Z,
        distance_score (criteria c) = inject_Z n
        /\ In n [0; 20; 40; 50; 60; 80; 90; 100]
        /\ score c = Z.max 1 (n - tablePenalty (gender_pref_match (criteria c))
                                             (language_match (criteria c)))
        /\ (score c = 1 \/ score c mod 10 = 0).
Proof.
  eexists. split; [reflexivity|].
  exact (calculateSecureMatch_integer_table sampleDistance studentB soldierX _ eq_refl).
Defined.

Lemma calculateSecureMatch_nearer_scores_higher_witness :
  exists c c' : MatchCandidate,
    calculateSecureMatch sampleDistance studentA soldierX = Some c
    /\ calculateSecureMatch sampleDistance studentC soldierX = Some c'
    /\ score c' <= score c.
Proof.
  eexists _, _. split; [reflexivity|]. split; [reflexivity|].
  exact (calculateSecureMatch_nearer_scores_higher
           sampleDistance studentA studentC soldierX soldierX _ _ 0%float 81.5%float
           eq_refl eq_refl eq_refl eq_refl eq_refl eq_refl eq_refl).
Defined.

Lemma runSecureMatchingAlgorithm_summary_closed_form_witness :
  [studentA; studentB] <> []
  /\ let d := size (list_to_set (map LocalStudent.contact_id [studentA; studentB])
                    : gset string) in
     let s := Z.of_nat (size (list_to_set (map LocalSoldier.contact_id
                                               [soldierX; soldierY; soldierX])
                              : gset string)) in
     exists (matches : list EnrichedMatch) (summary : MatchingSummary),
       runSecureMatchingAlgorithm sampleDistance upperUUID [studentA; studentB]
                                  [soldierX; soldierY; soldierX]
       = Some (matches, summary)
       /\ totalMatches summary = s * Z.of_nat (Nat.min 2 d)
       /\ soldiersWithTwoMatches summary = (if (2 <=? d)%nat then s else 0)
       /\ soldiersWithOneMatch summary = (if (d =? 1)%nat then s else 0)
       /\ soldiersWithNoMatch summary = len [soldierX; soldierY; soldierX] - s
       /\ (NoDup (map LocalSoldier.contact_id [soldierX; soldierY; soldierX]) ->
           soldiersWithNoMatch summary = 0).
Proof.
  assert ([studentA; studentB] <> []) as Hne by discriminate.
  split; [exact Hne|].
  exact (runSecureMatchingAlgorithm_summary_closed_form
           sampleDistance upperUUID [studentA; studentB] [soldierX; soldierY; soldierX] Hne).
Defined.

Lemma updateMatchStatus_changes_one_row_witness :
  NoDup (map id sampleMatches)
  /\ sampleMatches !! 1%nat = Some sampleMatch2
  /\ updateMatchStatus sampleMatches (id sampleMatch2) rejected
     = <[1%nat := withStatus sampleMatch2 rejected]> sampleMatches.
Proof.
  assert (NoDup (map id sampleMatches)) as Hnd.
  { apply (bool_decide_unpack _). vm_compute. reflexivity. }
  split; [exact Hnd|]. split; [reflexivity|].
  exact (updateMatchStatus_changes_one_row sampleMatches 1 sampleMatch2 rejected Hnd eq_refl).
Defined.

(** The closed form at a run with a repeated soldier identifier: two
    distinct soldiers with two matches each, and one soldier counted as
    unmatched. *)
Example runSecureMatchingAlgorithm_repeated_soldier :
  (fun r => (totalMatches (snd r), soldiersWithTwoMatches (snd r),
             soldiersWithNoMatch (snd r)))
    <$> runSecureMatchingAlgorithm sampleDistance upperUUID [studentA; studentB]
                                   [soldierX; soldierY; soldierX]
  = Some (4, 2, 1).
Proof. vm_compute. reflexivity. Qed.

Lemma assignSoldier_capacity_within_capacity_witness :
  let cB := sampleCandidate studentB soldierZ 40 true 40 true in
  let cA := sampleCandidate studentA soldierZ 60 false 100 true in
  let st := {| result := []; studentAssignments := ∅; drawn := 0 |} in
  hasCapacity (studentAssignments st) cB = true
  /\ hasCapacity (studentAssignments st) cA = true
  /\ exists ca cb ida idb,
      result (assignSoldier_capacity upperUUID st [cB; cA])
      = result st ++ [matchOfCandidate ida ca 1; matchOfCandidate idb cb 2]
      /\ ca ∈ [cB; cA] /\ cb ∈ [cB; cA]
      /\ studentIdOf ca <> studentIdOf cb
      /\ hasCapacity (studentAssignments st) ca = true
      /\ hasCapacity (studentAssignments st) cb = true.
Proof.
  intros cB cA st.
  split; [reflexivity|]. split; [reflexivity|].
  apply (assignSoldier_capacity_within_capacity upperUUID st [cB; cA] cB cA).
  - by left.
  - right. by left.
  - discriminate.
  - reflexivity.
  - reflexivity.
Defined.

